(** * botport: a request/response protocol over a chat channel

    Shallow embedding of [botport.ts] (classes [BotAPIResponse],
    [BotAPIServer], [BotAPIClient]) and the properties of its wire codec,
    route matching, response object and client correlation table.

    Conventions of the embedding.
    - A JavaScript string is modelled by the bytes of its UTF-8 encoding
      (a Rocq [string]); lone surrogates have no counterpart.
    - Built-ins of the JavaScript runtime that the source calls
      ([split], [trim], [encodeURIComponent], [JSON.stringify], ...) are
      given executable definitions below; [URL], [toUpperCase], the
      outcome of [Message.reply] and the compiler of regular expressions
      are supplied by an environment record.  The compiler is asked only
      for the route templates that hold regular-expression syntax of their
      own; what the expression of any other template matches is defined
      here.
    - The integers that the program prints in decimal (statuses,
      time-outs) are taken below 10^21 in magnitude, where JavaScript
      prints every digit.
    - Effects (replies, console output, handler invocations) are recorded
      in a log, threaded through a small state monad. *)

From Stdlib Require Import ZArith Lia Ascii String List Bool.
From stdpp Require Import base gmap strings list.

Set Warnings "-register-all".

Local Open Scope Z_scope.

(** ** Bytes and characters *)

Definition code (c : ascii) : Z := Z.of_N (N_of_ascii c).
Definition chr (z : Z) : ascii := ascii_of_N (Z.to_N z).

Definition between (lo hi : Z) (c : ascii) : bool :=
  (lo <=? code c) && (code c <=? hi).

Definition is_digit (c : ascii) : bool := between 48 57 c.
Definition is_upper (c : ascii) : bool := between 65 90 c.
Definition is_lower (c : ascii) : bool := between 97 122 c.

(** [\w] of a regular expression without the [u] and [i] flags. *)
Definition is_word (c : ascii) : bool :=
  is_digit c || is_upper c || is_lower c || (code c =? 95).

(** ** White space

    [\s] and [String.prototype.trim] use the ECMAScript WhiteSpace and
    LineTerminator code points: U+0009..U+000D, U+0020, U+00A0, U+1680,
    U+2000..U+200A, U+2028, U+2029, U+202F, U+205F, U+3000 and U+FEFF.
    [ws_len s] is the number of bytes of the white-space character that
    starts [s] (0 when [s] does not start with one). *)

Definition is_ascii_ws (c : ascii) : bool := between 9 13 c || (code c =? 32).

Definition ws_len (s : string) : nat :=
  match s with
  | EmptyString => 0%nat
  | String c r =>
      if is_ascii_ws c then 1%nat
      else match code c, r with
           | 194, String d _ => if code d =? 160 then 2%nat else 0%nat
           | 225, String d (String e _) =>
               if (code d =? 154) && (code e =? 128) then 3%nat else 0%nat
           | 226, String d (String e _) =>
               if (code d =? 128) &&
                  (between 128 138 e || between 168 169 e || (code e =? 175))
               then 3%nat
               else if (code d =? 129) && (code e =? 159) then 3%nat else 0%nat
           | 227, String d (String e _) =>
               if (code d =? 128) && (code e =? 128) then 3%nat else 0%nat
           | 239, String d (String e _) =>
               if (code d =? 187) && (code e =? 191) then 3%nat else 0%nat
           | _, _ => 0%nat
           end
  end.

(** Bytes that can start a white-space character. *)
Definition ws_lead (c : ascii) : bool :=
  is_ascii_ws c ||
  match code c with 194 | 225 | 226 | 227 | 239 => true | _ => false end.

(** LineTerminator: the characters that [.] of a regular expression does
    not match. *)
Definition lt_len (s : string) : nat :=
  match s with
  | EmptyString => 0%nat
  | String c r =>
      if (code c =? 10) || (code c =? 13) then 1%nat
      else match code c, r with
           | 226, String d (String e _) =>
               if (code d =? 128) && between 168 169 e then 3%nat else 0%nat
           | _, _ => 0%nat
           end
  end.

Fixpoint has_line_terminator (s : string) : bool :=
  match s with
  | EmptyString => false
  | String _ r => match lt_len s with O => has_line_terminator r | _ => true end
  end.

(** [skip] counts the bytes still to drop of a white-space character
    whose first byte was already seen. *)
Fixpoint trimStart_go (skip : nat) (s : string) : string :=
  match s with
  | EmptyString => EmptyString
  | String _ r =>
      match skip with
      | S k => trimStart_go k r
      | O => match ws_len s with
             | O => s
             | S k => trimStart_go k r
             end
      end
  end.

Definition trimStart (s : string) : string := trimStart_go 0 s.

Definition all_ws (s : string) : bool :=
  match trimStart s with EmptyString => true | _ => false end.

Fixpoint trimEnd (s : string) : string :=
  match s with
  | EmptyString => EmptyString
  | String c r => if all_ws s then EmptyString else String c (trimEnd r)
  end.

(** [String.prototype.trim]. *)
Definition trim (s : string) : string := trimEnd (trimStart s).

(** [s.split(/\s+/)]: the pieces between maximal runs of white space; a
    run at the start or at the end of [s] yields an empty first or last
    piece.  [acc] is the current piece, reversed. *)
Fixpoint split_ws_go (acc : string) (inws : bool) (skip : nat) (s : string)
  : list string :=
  match s with
  | EmptyString => [String.rev acc]
  | String c r =>
      match skip with
      | S k => split_ws_go acc inws k r
      | O =>
          match ws_len s with
          | O => split_ws_go (String c acc) false 0 r
          | S k =>
              if inws then split_ws_go acc true k r
              else String.rev acc :: split_ws_go EmptyString true k r
          end
      end
  end.

Definition split_ws (s : string) : list string :=
  split_ws_go EmptyString false 0 s.

(** [parts.join(' ')]. *)
Definition join_sp (parts : list string) : string := String.concat " " parts.

(** [s.indexOf(' ')] together with the two [substring] calls around it:
    the text before the first space and the text after it. *)
Fixpoint cut_at_space (s : string) : option (string * string) :=
  match s with
  | EmptyString => None
  | String c r =>
      if code c =? 32 then Some (EmptyString, r)
      else match cut_at_space r with
           | Some (a, b) => Some (String c a, b)
           | None => None
           end
  end.

(** Strip a literal prefix. *)
Fixpoint strip_prefix (p s : string) : option string :=
  match p, s with
  | EmptyString, _ => Some s
  | String a p', String b s' => if Ascii.eqb a b then strip_prefix p' s' else None
  | _, _ => None
  end.

(** ** Numbers in decimal *)

Definition digit_char (d : Z) : ascii := chr (48 + d).

Fixpoint digits_go (fuel : nat) (n : Z) (acc : string) : string :=
  match fuel with
  | O => acc
  | S f =>
      let acc' := String (digit_char (n mod 10)) acc in
      if n <? 10 then acc' else digits_go f (n / 10) acc'
  end.

(** Decimal digits of a non-negative integer. *)
Definition digits (n : Z) : string :=
  digits_go (S (Z.to_nat (Z.log2 n))) n EmptyString.

(** [String(n)] for an integer [n] below 10^21 in absolute value. *)
Definition string_of_Z (n : Z) : string :=
  if n <? 0 then String "-" (digits (- n)) else digits n.

Fixpoint digits_value (acc : Z) (s : string) : Z :=
  match s with
  | EmptyString => acc
  | String c r => digits_value (10 * acc + (code c - 48)) r
  end.

Fixpoint take_digits (s : string) : string * string :=
  match s with
  | String c r =>
      if is_digit c then let '(d, rest) := take_digits r in (String c d, rest)
      else (EmptyString, s)
  | EmptyString => (EmptyString, EmptyString)
  end.

(** [parseInt(s, 10)]: leading white space, an optional sign, then the
    longest run of decimal digits; [None] stands for NaN.  The result is
    the exact integer (JavaScript rounds it to a double, which changes
    neither its comparison with 100 or 200 nor any value below 2^53). *)
Definition parseInt (s : string) : option Z :=
  let s := trimStart s in
  let '(neg, s) :=
    match s with
    | String c r =>
        if code c =? 45 then (true, r)
        else if code c =? 43 then (false, r) else (false, s)
    | EmptyString => (false, s)
    end in
  match take_digits s with
  | (EmptyString, _) => None
  | (d, _) => Some (if neg then - digits_value 0 d else digits_value 0 d)
  end.

(** ** Hexadecimal and UTF-8 *)

Definition hex_upper (d : Z) : ascii := if d <? 10 then chr (48 + d) else chr (55 + d).
Definition hex_lower (d : Z) : ascii := if d <? 10 then chr (48 + d) else chr (87 + d).

Definition hex_val (c : ascii) : option Z :=
  if is_digit c then Some (code c - 48)
  else if between 65 70 c then Some (code c - 55)
  else if between 97 102 c then Some (code c - 87)
  else None.

Definition hex2 (h l : ascii) : option Z :=
  match hex_val h, hex_val l with
  | Some a, Some b => Some (16 * a + b)
  | _, _ => None
  end.

Definition is_cont (b : Z) : bool := (128 <=? b) && (b <=? 191).

(** Well-formed UTF-8 sequences of two, three and four bytes (no overlong
    forms, no surrogates, nothing above U+10FFFF). *)
Definition utf8_seq2 (a b : Z) : bool := (194 <=? a) && (a <=? 223) && is_cont b.

Definition utf8_seq3 (a b c : Z) : bool :=
  (224 <=? a) && (a <=? 239) && is_cont b && is_cont c &&
  (if a =? 224 then 160 <=? b else true) &&
  (if a =? 237 then b <=? 159 else true).

Definition utf8_seq4 (a b c d : Z) : bool :=
  (240 <=? a) && (a <=? 244) && is_cont b && is_cont c && is_cont d &&
  (if a =? 240 then 144 <=? b else true) &&
  (if a =? 244 then b <=? 143 else true).

(** The strings that are the UTF-8 encoding of a JavaScript string without
    lone surrogates. *)
Fixpoint utf8_valid_go (fuel : nat) (s : string) : bool :=
  match fuel with
  | O => false
  | S f =>
      match s with
      | EmptyString => true
      | String a r =>
          if code a <? 128 then utf8_valid_go f r
          else match r with
               | String b r1 =>
                   if utf8_seq2 (code a) (code b) then utf8_valid_go f r1
                   else match r1 with
                        | String c r2 =>
                            if utf8_seq3 (code a) (code b) (code c)
                            then utf8_valid_go f r2
                            else match r2 with
                                 | String d r3 =>
                                     utf8_seq4 (code a) (code b) (code c) (code d)
                                     && utf8_valid_go f r3
                                 | EmptyString => false
                                 end
                        | EmptyString => false
                        end
               | EmptyString => false
               end
      end
  end.

Definition utf8_valid (s : string) : bool := utf8_valid_go (S (String.length s)) s.

(** UTF-8 bytes of a code point (a lone surrogate gets the generalised
    three-byte form). *)
Definition utf8_encode (cp : Z) : string :=
  if cp <? 128 then String (chr cp) EmptyString
  else if cp <? 2048 then
    String (chr (192 + cp / 64)) (String (chr (128 + cp mod 64)) EmptyString)
  else if cp <? 65536 then
    String (chr (224 + cp / 4096))
      (String (chr (128 + (cp / 64) mod 64))
         (String (chr (128 + cp mod 64)) EmptyString))
  else
    String (chr (240 + cp / 262144))
      (String (chr (128 + (cp / 4096) mod 64))
         (String (chr (128 + (cp / 64) mod 64))
            (String (chr (128 + cp mod 64)) EmptyString))).

(** ** Percent-encoding *)

(** Characters that [encodeURIComponent] leaves alone:
    [A-Z a-z 0-9 - _ . ! ~ * ' ( )]. *)
Definition uri_unreserved (c : ascii) : bool :=
  is_word c ||
  match code c with
  | 45 | 46 | 33 | 126 | 42 | 39 | 40 | 41 => true
  | _ => false
  end.

Definition percent_byte (c : ascii) : string :=
  String "%" (String (hex_upper (code c / 16))
                (String (hex_upper (code c mod 16)) EmptyString)).

(** [encodeURIComponent(s)] for a string without lone surrogates (on
    which the built-in throws): every byte of the UTF-8 encoding outside
    the unreserved set becomes [%XX]. *)
Fixpoint encodeURIComponent (s : string) : string :=
  match s with
  | EmptyString => EmptyString
  | String c r =>
      if uri_unreserved c then String c (encodeURIComponent r)
      else percent_byte c +:+ encodeURIComponent r
  end.

Inductive uri_item := Raw (c : ascii) | Esc (b : Z).

(** First pass of [decodeURIComponent]: every [%] must be followed by
    two hexadecimal digits. *)
Fixpoint uri_unescape (s : string) : option (list uri_item) :=
  match s with
  | EmptyString => Some []
  | String c r =>
      if code c =? 37 then
        match r with
        | String h (String l r') =>
            match hex2 h l, uri_unescape r' with
            | Some b, Some items => Some (Esc b :: items)
            | _, _ => None
            end
        | _ => None
        end
      else match uri_unescape r with
           | Some items => Some (Raw c :: items)
           | None => None
           end
  end.

(** Second pass: an escaped byte of 128 or more must start a well-formed
    UTF-8 sequence all of whose bytes are escaped. *)
Fixpoint uri_assemble (items : list uri_item) : option string :=
  match items with
  | [] => Some EmptyString
  | Raw c :: rest => String c <$> uri_assemble rest
  | Esc a :: rest =>
      if a <? 128 then String (chr a) <$> uri_assemble rest
      else match rest with
           | Esc b :: rest1 =>
               if utf8_seq2 a b
               then (fun t => String (chr a) (String (chr b) t)) <$> uri_assemble rest1
               else match rest1 with
                    | Esc c :: rest2 =>
                        if utf8_seq3 a b c
                        then (fun t => String (chr a) (String (chr b) (String (chr c) t)))
                               <$> uri_assemble rest2
                        else match rest2 with
                             | Esc d :: rest3 =>
                                 if utf8_seq4 a b c d
                                 then (fun t => String (chr a) (String (chr b)
                                                  (String (chr c) (String (chr d) t))))
                                        <$> uri_assemble rest3
                                 else None
                             | _ => None
                             end
                    | _ => None
                    end
           | _ => None
           end
  end.

(** [decodeURIComponent(s)]; [None] when the built-in throws URIError. *)
Definition decodeURIComponent (s : string) : option string :=
  uri_unescape s ≫= uri_assemble.

(** ** JSON values

    The values handed to [JSON.stringify] and returned by [JSON.parse].
    A number is an exact decimal [m * 10^e] (the model does not round to
    a double: it is exact for numbers of at most 15 significant digits
    within the double range, and does not distinguish -0 from 0).
    [JBigInt] stands for the values on which [JSON.stringify] throws.
    An object is its list of own properties in enumeration order. *)

Inductive jsval :=
| JUndefined
| JNull
| JBool (b : bool)
| JNum (m e : Z)
| JBigInt (n : Z)
| JStr (s : string)
| JArr (items : list jsval)
| JObj (props : list (string * jsval)).

(** Truthiness, as tested by [if (body)]. *)
Definition truthy (v : jsval) : bool :=
  match v with
  | JUndefined | JNull => false
  | JBool b => b
  | JNum m _ => negb (m =? 0)
  | JBigInt n => negb (n =? 0)
  | JStr s => match s with EmptyString => false | _ => true end
  | JArr _ | JObj _ => true
  end.

Fixpoint strip_zeros (fuel : nat) (m e : Z) : Z * Z :=
  match fuel with
  | O => (m, e)
  | S f =>
      if m =? 0 then (0, 0)
      else if m mod 10 =? 0 then strip_zeros f (m / 10) (e + 1)
      else (m, e)
  end.

Definition normalise (m e : Z) : Z * Z :=
  strip_zeros (S (Z.to_nat (Z.log2 (Z.abs m)))) m e.

Definition jint (n : Z) : jsval := let '(m, e) := normalise n 0 in JNum m e.

Fixpoint zeros (n : nat) : string :=
  match n with O => EmptyString | S k => String "0" (zeros k) end.

(** Number::toString (radix 10) on the decimal digits of the number. *)
Definition number_to_string (m e : Z) : string :=
  let '(m, e) := normalise m e in
  if m =? 0 then "0"
  else
    let ds := digits (Z.abs m) in
    let k := Z.of_nat (String.length ds) in
    let n := k + e in
    let body :=
      if (k <=? n) && (n <=? 21) then ds +:+ zeros (Z.to_nat (n - k))
      else if (0 <? n) && (n <=? 21) then
        String.substring 0 (Z.to_nat n) ds +:+ "." +:+
        String.substring (Z.to_nat n) (Z.to_nat (k - n)) ds
      else if (-6 <? n) && (n <=? 0) then "0." +:+ zeros (Z.to_nat (- n)) +:+ ds
      else
        let ex := (if n - 1 <? 0 then "-" else "+") +:+ digits (Z.abs (n - 1)) in
        match ds with
        | String d EmptyString => String d ("e" +:+ ex)
        | String d rest => String d ("." +:+ rest +:+ "e" +:+ ex)
        | EmptyString => EmptyString
        end in
    if m <? 0 then String "-" body else body.

(** QuoteJSONString. *)
Definition quote_char (c : ascii) : string :=
  match code c with
  | 8 => "\b" | 9 => "\t" | 10 => "\n" | 12 => "\f" | 13 => "\r"
  | 34 => String "\" (String c EmptyString)
  | 92 => "\\"
  | n => if n <? 32
         then "\u00" +:+ String (hex_lower (n / 16)) (String (hex_lower (n mod 16)) EmptyString)
         else String c EmptyString
  end.

Fixpoint quote_chars (s : string) : string :=
  match s with
  | EmptyString => EmptyString
  | String c r => quote_char c +:+ quote_chars r
  end.

Definition dquote : ascii := chr 34.

Definition quote (s : string) : string :=
  String dquote (quote_chars s +:+ String dquote EmptyString).

(** Result of [JSON.stringify]. *)
Inductive stringified :=
| SText (s : string)      (* a JSON text *)
| SUndefined              (* the value [undefined] *)
| SThrow.                 (* TypeError *)

Definition commas (l : list string) : string := String.concat "," l.

Fixpoint JSON_stringify (v : jsval) : stringified :=
  match v with
  | JUndefined => SUndefined
  | JNull => SText "null"
  | JBool b => SText (if b then "true" else "false")
  | JNum m e => SText (number_to_string m e)
  | JBigInt _ => SThrow
  | JStr s => SText (quote s)
  | JArr items =>
      let fix elems (l : list jsval) : option (list string) :=
        match l with
        | [] => Some []
        | x :: r =>
            match JSON_stringify x, elems r with
            | SText t, Some ts => Some (t :: ts)
            | SUndefined, Some ts => Some ("null" :: ts)
            | _, _ => None
            end
        end in
      match elems items with
      | Some ts => SText ("[" +:+ commas ts +:+ "]")
      | None => SThrow
      end
  | JObj props =>
      let fix members (l : list (string * jsval)) : option (list string) :=
        match l with
        | [] => Some []
        | (k, x) :: r =>
            match JSON_stringify x, members r with
            | SText t, Some ts => Some ((quote k +:+ ":" +:+ t) :: ts)
            | SUndefined, Some ts => Some ts
            | _, _ => None
            end
        end in
      match members props with
      | Some ts => SText ("{" +:+ commas ts +:+ "}")
      | None => SThrow
      end
  end.

(** ** JSON.parse *)

Definition is_json_ws (c : ascii) : bool :=
  match code c with 32 | 9 | 10 | 13 => true | _ => false end.

Fixpoint skip_json_ws (s : string) : string :=
  match s with
  | String c r => if is_json_ws c then skip_json_ws r else s
  | EmptyString => s
  end.

Definition hex4 (a b c d : ascii) : option Z :=
  match hex2 a b, hex2 c d with
  | Some x, Some y => Some (256 * x + y)
  | _, _ => None
  end.

Definition is_high_surrogate (u : Z) : bool := (55296 <=? u) && (u <=? 56319).
Definition is_low_surrogate (u : Z) : bool := (56320 <=? u) && (u <=? 57343).

Definition flush (hi : option Z) : string :=
  match hi with Some h => utf8_encode h | None => EmptyString end.

Definition prepend (pre : string) (r : option (string * string))
  : option (string * string) :=
  match r with Some (t, rest) => Some (pre +:+ t, rest) | None => None end.

(** The characters of a string literal after its opening quote; [hi] is a
    pending high surrogate from a [\uXXXX] escape. *)
Fixpoint parse_string_go (hi : option Z) (s : string) : option (string * string) :=
  match s with
  | EmptyString => None
  | String c r =>
      match code c with
      | 34 => Some (flush hi, r)
      | 92 =>
          match r with
          | String x r1 =>
              match code x with
              | 117 =>
                  match r1 with
                  | String h1 (String h2 (String h3 (String h4 r2))) =>
                      match hex4 h1 h2 h3 h4 with
                      | Some u =>
                          match hi with
                          | Some h =>
                              if is_low_surrogate u then
                                prepend (utf8_encode (65536 + (h - 55296) * 1024 + (u - 56320)))
                                        (parse_string_go None r2)
                              else if is_high_surrogate u then
                                prepend (utf8_encode h) (parse_string_go (Some u) r2)
                              else prepend (utf8_encode h +:+ utf8_encode u)
                                           (parse_string_go None r2)
                          | None =>
                              if is_high_surrogate u then parse_string_go (Some u) r2
                              else prepend (utf8_encode u) (parse_string_go None r2)
                          end
                      | None => None
                      end
                  | _ => None
                  end
              | 34 | 92 | 47 => prepend (flush hi +:+ String x EmptyString) (parse_string_go None r1)
              | 98 => prepend (flush hi +:+ String (chr 8) EmptyString) (parse_string_go None r1)
              | 102 => prepend (flush hi +:+ String (chr 12) EmptyString) (parse_string_go None r1)
              | 110 => prepend (flush hi +:+ String (chr 10) EmptyString) (parse_string_go None r1)
              | 114 => prepend (flush hi +:+ String (chr 13) EmptyString) (parse_string_go None r1)
              | 116 => prepend (flush hi +:+ String (chr 9) EmptyString) (parse_string_go None r1)
              | _ => None
              end
          | EmptyString => None
          end
      | n => if n <? 32 then None
             else prepend (flush hi +:+ String c EmptyString) (parse_string_go None r)
      end
  end.

(** A number literal: an optional minus sign, an integer part without
    superfluous leading zero, an optional fraction and an optional
    exponent. *)
Definition parse_number (s : string) : option (jsval * string) :=
  let '(neg, s1) :=
    match s with
    | String c r => if code c =? 45 then (true, r) else (false, s)
    | EmptyString => (false, s)
    end in
  let '(ip, s2) := take_digits s1 in
  match ip with
  | EmptyString => None
  | String d more =>
      if (code d =? 48) && negb (match more with EmptyString => true | _ => false end)
      then None
      else
        let '(fp, s3, okf) :=
          match s2 with
          | String c r =>
              if code c =? 46 then
                let '(f, rest) := take_digits r in
                (f, rest, negb (match f with EmptyString => true | _ => false end))
              else (EmptyString, s2, true)
          | EmptyString => (EmptyString, s2, true)
          end in
        let '(ex, s4, oke) :=
          match s3 with
          | String c r =>
              if (code c =? 101) || (code c =? 69) then
                let '(eneg, r1) :=
                  match r with
                  | String g r' =>
                      if code g =? 45 then (true, r')
                      else if code g =? 43 then (false, r') else (false, r)
                  | EmptyString => (false, r)
                  end in
                let '(x, rest) := take_digits r1 in
                (if eneg then - digits_value 0 x else digits_value 0 x, rest,
                 negb (match x with EmptyString => true | _ => false end))
              else (0, s3, true)
          | EmptyString => (0, s3, true)
          end in
        if okf && oke then
          let m := digits_value 0 (ip +:+ fp) in
          let '(m', e') := normalise (if neg then - m else m)
                                     (ex - Z.of_nat (String.length fp)) in
          Some (JNum m' e', s4)
        else None
  end.

(** Array-index property names come first, in increasing order; the other
    names follow in insertion order (OrdinaryOwnPropertyKeys). *)
Definition array_index (k : string) : option Z :=
  match take_digits k with
  | (String d more, EmptyString) =>
      let n := digits_value 0 k in
      if String.eqb (digits n) k && (n <=? 4294967294) then Some n else None
  | _ => None
  end.

Fixpoint obj_replace (k : string) (v : jsval) (l : list (string * jsval))
  : option (list (string * jsval)) :=
  match l with
  | [] => None
  | (k', v') :: r =>
      if String.eqb k k' then Some ((k, v) :: r)
      else cons (k', v') <$> obj_replace k v r
  end.

Fixpoint obj_insert_index (n : Z) (k : string) (v : jsval) (l : list (string * jsval))
  : list (string * jsval) :=
  match l with
  | [] => [(k, v)]
  | (k', v') :: r =>
      match array_index k' with
      | Some n' => if n' <? n then (k', v') :: obj_insert_index n k v r
                   else (k, v) :: l
      | None => (k, v) :: l
      end
  end.

(** [obj[k] = v] on a property list. *)
Definition obj_set (k : string) (v : jsval) (l : list (string * jsval))
  : list (string * jsval) :=
  match obj_replace k v l with
  | Some l' => l'
  | None =>
      match array_index k with
      | Some n => obj_insert_index n k v l
      | None => l ++ [(k, v)]
      end
  end.

Fixpoint parse_value (fuel : nat) (s : string) : option (jsval * string) :=
  match fuel with
  | O => None
  | S f =>
      match skip_json_ws s with
      | EmptyString => None
      | String c r as s' =>
          match code c with
          | 123 =>
              match skip_json_ws r with
              | String c1 r1 =>
                  if code c1 =? 125 then Some (JObj [], r1)
                  else parse_members f [] (String c1 r1)
              | EmptyString => None
              end
          | 91 =>
              match skip_json_ws r with
              | String c1 r1 =>
                  if code c1 =? 93 then Some (JArr [], r1)
                  else parse_elems f [] (String c1 r1)
              | EmptyString => None
              end
          | 34 =>
              match parse_string_go None r with
              | Some (t, rest) => Some (JStr t, rest)
              | None => None
              end
          | 116 => (fun rest => (JBool true, rest)) <$> strip_prefix "true" s'
          | 102 => (fun rest => (JBool false, rest)) <$> strip_prefix "false" s'
          | 110 => (fun rest => (JNull, rest)) <$> strip_prefix "null" s'
          | _ => parse_number s'
          end
      end
  end
with parse_elems (fuel : nat) (acc : list jsval) (s : string)
  : option (jsval * string) :=
  match fuel with
  | O => None
  | S f =>
      match parse_value f s with
      | Some (v, rest) =>
          match skip_json_ws rest with
          | String c r =>
              if code c =? 44 then parse_elems f (acc ++ [v]) r
              else if code c =? 93 then Some (JArr (acc ++ [v]), r)
              else None
          | EmptyString => None
          end
      | None => None
      end
  end
with parse_members (fuel : nat) (acc : list (string * jsval)) (s : string)
  : option (jsval * string) :=
  match fuel with
  | O => None
  | S f =>
      match skip_json_ws s with
      | String q r =>
          if code q =? 34 then
            match parse_string_go None r with
            | Some (k, rest) =>
                match skip_json_ws rest with
                | String c r1 =>
                    if code c =? 58 then
                      match parse_value f r1 with
                      | Some (v, rest1) =>
                          match skip_json_ws rest1 with
                          | String d r2 =>
                              if code d =? 44 then parse_members f (obj_set k v acc) r2
                              else if code d =? 125 then Some (JObj (obj_set k v acc), r2)
                              else None
                          | EmptyString => None
                          end
                      | None => None
                      end
                    else None
                | EmptyString => None
                end
            | None => None
            end
          else None
      | EmptyString => None
      end
  end.

(** [JSON.parse(s)]; [None] when the built-in throws SyntaxError. *)
Definition JSON_parse (s : string) : option jsval :=
  match parse_value (S (String.length s)) s with
  | Some (v, rest) =>
      match skip_json_ws rest with
      | EmptyString => Some v
      | _ => None
      end
  | None => None
  end.

(** ** Messages, requests and the effect log *)

Inductive HttpMethod := GET | POST | PUT | PATCH | DELETE.

Definition method_name (m : HttpMethod) : string :=
  match m with
  | GET => "GET" | POST => "POST" | PUT => "PUT"
  | PATCH => "PATCH" | DELETE => "DELETE"
  end.

(** [['GET', 'POST', 'PUT', 'PATCH', 'DELETE'].includes(method)], with the
    method found. *)
Definition method_of_string (s : string) : option HttpMethod :=
  if String.eqb s "GET" then Some GET
  else if String.eqb s "POST" then Some POST
  else if String.eqb s "PUT" then Some PUT
  else if String.eqb s "PATCH" then Some PATCH
  else if String.eqb s "DELETE" then Some DELETE
  else None.

Definition method_eqb (a b : HttpMethod) : bool :=
  String.eqb (method_name a) (method_name b).

(** What the code reads of a discord.js [Message]. *)
Record Message := {
  msg_id : string;
  author_id : string;
  mentions : list string;          (* message.mentions.users *)
  content : string;
  reference : option string        (* message.reference?.messageId *)
}.

Record BotAPIRequest := {
  req_message : Message;
  req_authorId : string;
  req_method : HttpMethod;
  req_path : string;
  req_params : gmap string (option string);   (* None: undefined *)
  req_query : gmap string string;
  req_body : jsval
}.

(** Observable actions, oldest first.  [delivered] tells whether the
    transport accepted the reply (the promise of [Message.reply]
    resolved) or refused it (it rejected). *)
Inductive Event :=
| Reply (to : string) (text : string) (delivered : bool)
| ReplyFile (to : string) (name data : string) (delivered : bool)
| Warn (text : string)
| LogError (text : string)
| Invoke (route : nat) (req : BotAPIRequest).

Record ParsedURL := {
  pathname : string;
  searchParams : list (string * string)     (* url.searchParams.entries() *)
}.

(** The collaborators outside the source file. *)
Record Env := {
  (* String.prototype.toUpperCase *)
  toUpperCase : string → string;
  (* new URL(route, 'http://localhost'); None when it throws TypeError *)
  URL : string → option ParsedURL;
  (* new RegExp(source): what text.match answers for the compiled
     expression, the captured groups with None for a group that is
     undefined; None when the constructor throws SyntaxError *)
  RegExp : string → option (string → option (list (option string)));
  (* does the transport accept this reply, given all that happened before? *)
  reply_ok : list Event → string → string → bool
}.

(** State monad over the log. *)
Definition M (A : Type) : Type := list Event → A * list Event.

Definition ret {A} (a : A) : M A := fun log => (a, log).
Definition bind {A B} (m : M A) (k : A → M B) : M B :=
  fun log => let '(a, log') := m log in k a log'.

Notation "'let*' x := m 'in' k" := (bind m (fun x => k))
  (at level 10, x name, m at level 100, k at level 200).
Notation "'run' m 'then' k" := (bind m (fun _ => k))
  (at level 10, m at level 100, k at level 200).

Definition emit (e : Event) : M unit := fun log => (tt, log ++ [e]).

(** [await message.reply(text)]: the result tells whether it resolved. *)
Definition reply (env : Env) (to text : string) : M bool :=
  fun log => let ok := reply_ok env log to text in (ok, log ++ [Reply to text ok]).

Definition replyFile (env : Env) (to name data : string) : M bool :=
  fun log => let ok := reply_ok env log to data in
             (ok, log ++ [ReplyFile to name data ok]).

(** [Object.fromEntries]: a later entry overrides an earlier one with the
    same key. *)
Definition fromEntries {A} (l : list (string * A)) : gmap string A :=
  foldl (fun m kv => <[kv.1 := kv.2]> m) ∅ l.

(** ** class BotAPIResponse *)

Record BotAPIResponse := {
  originalMessage : string;      (* id of the message answered *)
  statusCode : Z;
  sentFinal : bool
}.

Definition new_BotAPIResponse (message : Message) : BotAPIResponse :=
  {| originalMessage := msg_id message; statusCode := 200; sentFinal := false |}.

Definition status (code : Z) (res : BotAPIResponse) : BotAPIResponse :=
  {| originalMessage := originalMessage res; statusCode := code;
     sentFinal := sentFinal res |}.

Definition set_sentFinal (res : BotAPIResponse) : BotAPIResponse :=
  {| originalMessage := originalMessage res; statusCode := statusCode res;
     sentFinal := true |}.

Definition final_warning : string :=
  "Warning: A final response has already been sent for this request.".

(** The text [500 {"error":"Failed to serialize response"}]. *)
Definition serialize_failure : string :=
  "500 {" +:+ quote "error" +:+ ":" +:+ quote "Failed to serialize response" +:+ "}".

(** The [catch] block of [json].  When its own reply is refused the
    promise returned by [json] rejects; nothing in the source observes
    that. *)
Definition json_failed (env : Env) (res : BotAPIResponse) : M BotAPIResponse :=
  run emit (LogError "Failed to send API response:") then
  if sentFinal res then ret res
  else
    let res := set_sentFinal res in
    run reply env (originalMessage res) serialize_failure then
    ret res.

(** [res.json(data)]. *)
Definition json (env : Env) (data : jsval) (res : BotAPIResponse) : M BotAPIResponse :=
  if sentFinal res then
    run emit (Warn final_warning) then ret res
  else
    let res := if 200 <=? statusCode res then set_sentFinal res else res in
    match JSON_stringify data with
    | SThrow => json_failed env res
    | st =>
        let jsonBody := match st with SText t => t | _ => "undefined" end in
        let responseContent := string_of_Z (statusCode res) +:+ " " +:+ jsonBody in
        let* ok := reply env (originalMessage res) responseContent in
        if ok then ret res else json_failed env res
    end.

(** ** Route handlers

    A handler is arbitrary code; all it can do to the response object is
    call [status] and [json].  Its run on a request is therefore the
    calls it makes before its promise settles, whether it settles by
    throwing (or rejecting), and the calls made afterwards by callbacks
    it left behind.  The calls are taken one after the other: each call
    of [json] has finished, its [catch] block included, when the next
    operation starts. *)

Inductive ResOp := SetStatus (code : Z) | SendJson (data : jsval).

Record HandlerRun := {
  before : list ResOp;
  throws : bool;
  after : list ResOp
}.

Definition Handler : Type := BotAPIRequest → HandlerRun.

Definition run_op (env : Env) (op : ResOp) (res : BotAPIResponse) : M BotAPIResponse :=
  match op with
  | SetStatus c => ret (status c res)
  | SendJson d => json env d res
  end.

Fixpoint run_ops (env : Env) (ops : list ResOp) (res : BotAPIResponse)
  : M BotAPIResponse :=
  match ops with
  | [] => ret res
  | op :: rest => let* res' := run_op env op res in run_ops env rest res'
  end.

(** ** class BotAPIServer: routes *)

(** The source text of the regular expression built by [register] is
    [^ item ... item /? $], where an item is a character of the template
    or the group [([^/]+)] put in the place of a parameter.  When no
    character of the template has a meaning of its own in a regular
    expression, the items are literal characters and groups, and the
    expression is [Items]: what it matches is defined below.  Any other
    source is compiled by the engine of the environment, and the
    expression is [Native] with the matcher that the engine answered. *)
Inductive RegexItem := RChar (c : ascii) | RGroup.

Inductive Regex :=
| Items (items : list RegexItem)
| Native (exec : string → option (list (option string))).

Record Route := {
  method : HttpMethod;
  path : string;
  pathRegex : Regex;
  paramKeys : list string;
  handler : Handler;
  docs : option string
}.

Inductive TemplatePiece := Lit (c : ascii) | Param (key : string).

Definition starts_with_word (s : string) : bool :=
  match s with String c _ => is_word c | EmptyString => false end.

(** The matches of [/:(\w+)/g] in the template, left to right; [key] is
    the parameter name being read, reversed. *)
Fixpoint scan_template (key : option string) (s : string) : list TemplatePiece :=
  match s with
  | EmptyString =>
      match key with Some k => [Param (String.rev k)] | None => [] end
  | String c r =>
      let plain :=
        if (code c =? 58) && starts_with_word r then scan_template (Some EmptyString) r
        else Lit c :: scan_template None r in
      match key with
      | Some k =>
          if is_word c then scan_template (Some (String c k)) r
          else Param (String.rev k) :: plain
      | None => plain
      end
  end.

(** Characters with a meaning of their own in a regular expression. *)
Definition regex_special (c : ascii) : bool :=
  match code c with
  | 92 | 94 | 36 | 46 | 124 | 63 | 42 | 43 | 40 | 41 | 91 | 93 | 123 | 125 => true
  | _ => false
  end.

Definition piece_plain (p : TemplatePiece) : bool :=
  match p with Lit c => negb (regex_special c) | Param _ => true end.

Definition piece_item (p : TemplatePiece) : RegexItem :=
  match p with Lit c => RChar c | Param _ => RGroup end.

Definition piece_keys (ps : list TemplatePiece) : list string :=
  omap (fun p => match p with Param k => Some k | Lit _ => None end) ps.

(** What [replace] returns for a piece, and the text given to
    [new RegExp]. *)
Definition piece_source (p : TemplatePiece) : string :=
  match p with Lit c => String c EmptyString | Param _ => "([^/]+)" end.

Definition regex_source (ps : list TemplatePiece) : string :=
  "^" +:+ String.concat EmptyString (map piece_source ps) +:+ "/?$".

(** The [new RegExp(...)] of [register], with the names pushed by the
    callback of [replace]; [None] when the constructor throws.  The
    source passes the literal characters of the template to the
    regular-expression compiler as they are: a template with a character
    that is special there goes to the engine of the environment. *)
Definition compile_template (env : Env) (path : string) : option (Regex * list string) :=
  let ps := scan_template None path in
  if forallb piece_plain ps then Some (Items (map piece_item ps), piece_keys ps)
  else (fun exec => (Native exec, piece_keys ps)) <$> RegExp env (regex_source ps).

Definition is_slash (c : ascii) : bool := code c =? 47.

(** The group [([^/]+)] followed by the rest of the expression [k]: the
    longest run of non-slash characters is tried first, then shorter
    ones.  [acc] is the run consumed so far, reversed. *)
Fixpoint match_group (k : string → option (list string)) (acc : string) (s : string)
  : option (list string) :=
  let stop :=
    match acc with
    | EmptyString => None
    | _ => cons (String.rev acc) <$> k s
    end in
  match s with
  | EmptyString => stop
  | String c r =>
      if is_slash c then stop
      else match match_group k (String c acc) r with
           | Some gs => Some gs
           | None => stop
           end
  end.

(** What [^ item ... item /? $] matches: the captured groups, or [None]. *)
Fixpoint regex_match (items : list RegexItem) : string → option (list string) :=
  match items with
  | [] => fun s =>
      match s with
      | EmptyString => Some []
      | String c EmptyString => if is_slash c then Some [] else None
      | _ => None
      end
  | RChar c :: rest => fun s =>
      match s with
      | String d r => if Ascii.eqb c d then regex_match rest r else None
      | EmptyString => None
      end
  | RGroup :: rest => match_group (regex_match rest) EmptyString
  end.

(** [pathname.match(pathRegex)]: the captured groups, or [None].  Every
    group of an expression made of items takes part in a match. *)
Definition regex_exec (re : Regex) (s : string) : option (list (option string)) :=
  match re with
  | Items items => map Some <$> regex_match items s
  | Native exec => exec s
  end.

Record BotAPIServer := {
  user_id : string;           (* this.client.user.id *)
  docsString : string;
  routes : list Route
}.

Definition new_BotAPIServer (client_user_id docs_string : string) : BotAPIServer :=
  {| user_id := client_user_id; docsString := trim docs_string; routes := [] |}.

(** [register]; [None] when it throws (the regular expression does not
    compile), before the route is pushed. *)
Definition register (env : Env) (m : HttpMethod) (p : string) (h : Handler)
    (d : option string) (srv : BotAPIServer) : option BotAPIServer :=
  match compile_template env p with
  | Some (re, keys) =>
      Some {| user_id := user_id srv; docsString := docsString srv;
              routes := routes srv ++
                [ {| method := m; path := p; pathRegex := re; paramKeys := keys;
                     handler := h; docs := d |} ] |}
  | None => None
  end.

Definition get (env : Env) := register env GET.
Definition post (env : Env) := register env POST.
Definition put (env : Env) := register env PUT.
Definition patch (env : Env) := register env PATCH.
Definition delete (env : Env) := register env DELETE.

(** ** class BotAPIServer: handleMessage *)

(** How a run of [handleMessage] ends: normally, or by an exception that
    nothing catches (the returned promise rejects). *)
Inductive Outcome := Done | Threw (error : string).

(** The mention expression is [<@], an optional [!], the identifier,
    [>:api], any white space, and a captured run of characters other than
    line terminators that reaches the end of the text.  This is the part
    after the optional [!]: the white space is skipped greedily, and what
    follows is the capture.  The identifier is a Discord snowflake, a
    string of digits. *)
Definition mention_tail (id r : string) : option string :=
  match strip_prefix id r ≫= strip_prefix ">:api" with
  | Some t =>
      let rest := trimStart t in
      if has_line_terminator rest then None else Some rest
  | None => None
  end.

(** [message.content.match(mentionRegex)], giving [match[1]]. *)
Definition match_mention (id text : string) : option string :=
  match strip_prefix "<@" text with
  | Some (String c r' as r) =>
      if code c =? 33 then
        match mention_tail id r' with
        | Some t => Some t
        | None => mention_tail id r
        end
      else mention_tail id r
  | Some r => mention_tail id r
  | None => None
  end.

(** The entry of [publicRoutes] for a route: an [APIRouteInfo]. *)
Definition routeInfo (r : Route) : jsval :=
  JObj [("method", JStr (method_name (method r)));
        ("path", JStr (path r));
        ("docs", match docs r with Some d => JStr d | None => JUndefined end)].

Definition text_of (st : stringified) : string :=
  match st with SText t => t | _ => "undefined" end.

(** The loop over [this.routes]: the first route, with its position,
    whose method is the requested one and whose expression matches the
    path, and the captured groups. *)
Fixpoint findRoute (m : HttpMethod) (pathname : string) (i : nat) (rs : list Route)
  : option (nat * Route * list (option string)) :=
  match rs with
  | [] => None
  | r :: rest =>
      if negb (method_eqb (method r) m) then findRoute m pathname (S i) rest
      else match regex_exec (pathRegex r) pathname with
           | Some groups => Some (i, r, groups)
           | None => findRoute m pathname (S i) rest
           end
  end.

Definition error_body (text : string) : jsval := JObj [("error", JStr text)].

(** [Object.fromEntries(paramKeys.map((key, i) => [key, routeMatch[i + 1]]))]:
    an index past the last group reads [undefined]. *)
Definition route_params (r : Route) (groups : list (option string))
  : gmap string (option string) :=
  fromEntries (imap (fun i key => (key, default None (groups !! i))) (paramKeys r)).

Definition handler_error (m : HttpMethod) (route : string) : string :=
  "[BotAPIServer] Error in handler for " +:+ method_name m +:+ " " +:+ route +:+ ":".

(** The handler is called on a fresh response object; when it throws and
    the response is not marked final, the server answers 500 itself. *)
Definition call_handler (env : Env) (message : Message) (i : nat) (r : Route)
    (route : string) (req : BotAPIRequest) : M Outcome :=
  let res := new_BotAPIResponse message in
  let h := handler r req in
  run emit (Invoke i req) then
  let* res := run_ops env (before h) res in
  let* res :=
    (if throws h then
       run emit (LogError (handler_error (req_method req) route)) then
       if sentFinal res then ret res
       else json env (error_body "Internal Server Error") (status 500 res)
     else ret res) in
  run run_ops env (after h) res then
  ret Done.

(** The body of the loop for the route that matched. *)
Definition dispatch (env : Env) (message : Message) (i : nat) (r : Route)
    (m : HttpMethod) (route : string) (url : ParsedURL) (groups : list (option string))
    (bodyString : string) : M Outcome :=
  let request (body : jsval) : BotAPIRequest :=
    {| req_message := message; req_authorId := author_id message;
       req_method := m; req_path := pathname url;
       req_params := route_params r groups;
       req_query := fromEntries (searchParams url); req_body := body |} in
  match bodyString with
  | EmptyString => call_handler env message i r route (request JNull)
  | _ =>
      match JSON_parse bodyString with
      | Some body => call_handler env message i r route (request body)
      | None =>
          run json env (error_body "Invalid JSON body")
                (status 400 (new_BotAPIResponse message)) then
          ret Done
      end
  end.

(** The guards at the head of [handleMessage] and the extraction of the
    command: [None] when the message is the server's own, does not mention
    it, or does not match the mention expression. *)
Definition addressed_command (srv : BotAPIServer) (message : Message) : option string :=
  if String.eqb (author_id message) (user_id srv) then None
  else if negb (bool_decide (user_id srv ∈ mentions message)) then None
  else trim <$> match_mention (user_id srv) (content message).

(** [parts.shift()?.toUpperCase() ?? ''] before upper-casing,
    [parts.shift() ?? '/'] and [parts.join(' ')]. *)
Definition request_parts (command : string) : string * string * string :=
  let parts := split_ws command in
  (hd EmptyString parts,
   match tl parts with p :: _ => p | [] => "/" end,
   join_sp (tl (tl parts))).

(** [handleMessage] from the line that splits the command. *)
Definition handleRequest (env : Env) (srv : BotAPIServer) (message : Message)
    (command : string) : M Outcome :=
  let '(first, rawRoute, bodyString) := request_parts command in
  let method := toUpperCase env first in
  match decodeURIComponent rawRoute with
  | None => ret (Threw "URIError")
  | Some route =>
      match method_of_string method with
      | None =>
          run json env (error_body ("Invalid method '" +:+ method +:+ "'"))
                (status 400 (new_BotAPIResponse message)) then
          ret Done
      | Some m =>
          match URL env route with
          | None => ret (Threw "TypeError")
          | Some url =>
              match findRoute m (pathname url) 0 (routes srv) with
              | Some (i, r, groups) =>
                  dispatch env message i r m route url groups bodyString
              | None =>
                  run json env
                        (error_body ("Route not found: " +:+ method_name m +:+
                                     " " +:+ pathname url))
                        (status 404 (new_BotAPIResponse message)) then
                  ret Done
              end
          end
      end
  end.

Definition handleMessage (env : Env) (srv : BotAPIServer) (message : Message)
  : M Outcome :=
  match addressed_command srv message with
  | None => ret Done
  | Some command =>
      if String.eqb command EmptyString || String.eqb command "docs" then
        let* ok := replyFile env (msg_id message) "api-docs.txt" (docsString srv) in
        ret (if ok then Done else Threw "reply")
      else if String.eqb command "routes" then
        let publicRoutes := map routeInfo (routes srv) in
        let responseJson := text_of (JSON_stringify (JArr publicRoutes)) in
        let* ok := reply env (msg_id message) ("200 " +:+ responseJson) in
        ret (if ok then Done else Threw "reply")
      else handleRequest env srv message command
  end.

(** ** class BotAPIClient *)

Record ClientResponse := { cr_status : Z; cr_body : jsval }.

Record ClientRequestOptions := {
  opt_body : jsval;               (* JUndefined when absent *)
  opt_onUpdate : bool;            (* was a callback given? *)
  opt_timeout : option Z
}.

(** An entry of [pendingRequests].  [resolve] and [reject] settle the
    promise returned by [makeRequest], named here by a number. *)
Record PendingRequest := {
  promise : nat;
  onUpdate : bool;
  timeoutId : nat
}.

(** What the callback given to [setTimeout] holds on to. *)
Record Timer := {
  timer_message : string;         (* requestMessage.id *)
  timer_promise : nat;
  timer_timeout : Z
}.

Record BotAPIClient := {
  targetBotId : string;
  defaultTimeout : Z;
  pendingRequests : gmap string PendingRequest;
  timers : gmap nat Timer;        (* the timers set and neither cleared nor fired *)
  next_id : nat                   (* supply of promise and timer identifiers *)
}.

Definition new_BotAPIClient (target : string) (timeout : option Z) : BotAPIClient :=
  {| targetBotId := target; defaultTimeout := default 15000 timeout;
     pendingRequests := ∅; timers := ∅; next_id := 0 |}.

Inductive ClientEvent :=
| Sent (text : string)                              (* transport.send *)
| Resolved (p : nat) (response : ClientResponse)    (* pending.resolve *)
| Rejected (p : nat) (reason : string)              (* pending.reject *)
| Updated (p : nat) (update : ClientResponse).      (* pending.onUpdate *)

Definition with_tables (c : BotAPIClient) (pending : gmap string PendingRequest)
    (armed : gmap nat Timer) : BotAPIClient :=
  {| targetBotId := targetBotId c; defaultTimeout := defaultTimeout c;
     pendingRequests := pending; timers := armed; next_id := next_id c |}.

(** [clearTimeout(id)]. *)
Definition clearTimeout (id : nat) (c : BotAPIClient) : BotAPIClient :=
  with_tables c (pendingRequests c) (base.delete id (timers c)).

Definition pending_delete (key : string) (c : BotAPIClient) : BotAPIClient :=
  with_tables c (base.delete key (pendingRequests c)) (timers c).

Definition malformed_response : string := "Malformed response: Invalid JSON body.".

(** [handleReply(message)].  A callback [onUpdate] that throws is caught
    by the [try] around it, and with a status below 200 the [catch] does
    nothing: the state is the same as when it returns. *)
Definition handleReply (c : BotAPIClient) (message : Message)
  : BotAPIClient * list ClientEvent :=
  if negb (String.eqb (author_id message) (targetBotId c)) then (c, [])
  else
    match reference message with
    | None | Some EmptyString => (c, [])
    | Some ref =>
        match pendingRequests c !! ref with
        | None => (c, [])
        | Some pending =>
            match cut_at_space (content message) with
            | None => (c, [])
            | Some (statusStr, bodyStr) =>
                match parseInt statusStr with
                | None => (c, [])
                | Some status =>
                    match JSON_parse bodyStr with
                    | Some body =>
                        let response := {| cr_status := status; cr_body := body |} in
                        if (100 <=? status) && (status <? 200) then
                          (clearTimeout (timeoutId pending) c,
                           if onUpdate pending then [Updated (promise pending) response]
                           else [])
                        else
                          (pending_delete ref (clearTimeout (timeoutId pending) c),
                           [Resolved (promise pending) response])
                    | None =>
                        if 200 <=? status then
                          (pending_delete ref (clearTimeout (timeoutId pending) c),
                           [Rejected (promise pending) malformed_response])
                        else (c, [])
                    end
                end
            end
        end
    end.

Definition timeout_reason (timeout : Z) : string :=
  "Request timed out after " +:+ string_of_Z timeout +:+
  "ms waiting for an initial response.".

(** The callback given to [setTimeout] runs: only a timer that is still
    set can do so. *)
Definition fire (id : nat) (c : BotAPIClient) : BotAPIClient * list ClientEvent :=
  match timers c !! id with
  | None => (c, [])
  | Some t =>
      (with_tables c (base.delete (timer_message t) (pendingRequests c))
                   (base.delete id (timers c)),
       [Rejected (timer_promise t) (timeout_reason (timer_timeout t))])
  end.

(** The text sent by [makeRequest]; [None] when [JSON.stringify] throws. *)
Definition requestString (target : string) (m : HttpMethod) (route : string)
    (body : jsval) : option string :=
  let encodedRoute := encodeURIComponent route in
  let head := "<@" +:+ target +:+ ">:api " +:+ method_name m +:+ " " +:+ encodedRoute in
  if truthy body then
    match JSON_stringify body with
    | SThrow => None
    | st => Some (head +:+ " " +:+ text_of st)
    end
  else Some head.

(** [makeRequest(method, route, options)]; [sent_id] is the identifier
    that the transport gives to the message sent. *)
Definition makeRequest (m : HttpMethod) (route : string) (options : ClientRequestOptions)
    (sent_id : string) (c : BotAPIClient) : BotAPIClient * list ClientEvent :=
  let timeout := default (defaultTimeout c) (opt_timeout options) in
  let p := next_id c in
  match requestString (targetBotId c) m route (opt_body options) with
  | None => ({| targetBotId := targetBotId c; defaultTimeout := defaultTimeout c;
               pendingRequests := pendingRequests c; timers := timers c;
               next_id := S p |},
             [Rejected p "TypeError"])
  | Some text =>
      ({| targetBotId := targetBotId c; defaultTimeout := defaultTimeout c;
          pendingRequests :=
            <[sent_id := {| promise := p; onUpdate := opt_onUpdate options;
                            timeoutId := p |}]> (pendingRequests c);
          timers := <[p := {| timer_message := sent_id; timer_promise := p;
                              timer_timeout := timeout |}]> (timers c);
          next_id := S p |},
       [Sent text])
  end.

(** What can happen to a client, one event of the loop at a time. *)
Inductive ClientInput :=
| InReply (message : Message)
| InFire (timer : nat)
| InRequest (m : HttpMethod) (route : string) (options : ClientRequestOptions)
            (sent_id : string).

Definition client_step (c : BotAPIClient) (i : ClientInput)
  : BotAPIClient * list ClientEvent :=
  match i with
  | InReply message => handleReply c message
  | InFire t => fire t c
  | InRequest m route options sent_id => makeRequest m route options sent_id c
  end.

Fixpoint client_run (c : BotAPIClient) (inputs : list ClientInput)
  : BotAPIClient * list ClientEvent :=
  match inputs with
  | [] => (c, [])
  | i :: rest =>
      let '(c1, ev1) := client_step c i in
      let '(c2, ev2) := client_run c1 rest in
      (c2, ev1 ++ ev2)
  end.

(** ** Vocabulary of the statements *)

(** Every character of [s] satisfies [p]. *)
Fixpoint all_chars (p : ascii → bool) (s : string) : bool :=
  match s with
  | EmptyString => true
  | String c r => p c && all_chars p r
  end.

(** The loops of [JSON_stringify] over the elements of an array and the
    properties of an object, as functions of their own. *)
Definition stringify_elems : list jsval → option (list string) :=
  fix elems (l : list jsval) : option (list string) :=
    match l with
    | [] => Some []
    | x :: r =>
        match JSON_stringify x, elems r with
        | SText t, Some ts => Some (t :: ts)
        | SUndefined, Some ts => Some ("null" :: ts)
        | _, _ => None
        end
    end.

Definition stringify_members : list (string * jsval) → option (list string) :=
  fix members (l : list (string * jsval)) : option (list string) :=
    match l with
    | [] => Some []
    | (k, x) :: r =>
        match JSON_stringify x, members r with
        | SText t, Some ts => Some ((quote k +:+ ":" +:+ t) :: ts)
        | SUndefined, Some ts => Some ts
        | _, _ => None
        end
    end.

(** *** The response object and the server *)

Definition is_send (op : ResOp) : bool :=
  match op with SendJson _ => true | SetStatus _ => false end.

(** Number of calls to [json] in a sequence of operations. *)
Definition sends (ops : list ResOp) : nat := length (List.filter is_send ops).

(** Values on which [JSON.stringify] does not throw. *)
Definition serializable (d : jsval) : Prop := JSON_stringify d ≠ SThrow.

(** The text transmitted by [json] for the data [d]. *)
Definition response_text (res : BotAPIResponse) (d : jsval) : string :=
  string_of_Z (statusCode res) +:+ " " +:+ text_of (JSON_stringify d).

(** A transport that accepts every reply. *)
Definition reliable (env : Env) : Prop := ∀ log to text, reply_ok env log to text = true.

(** The JSON text of [{ error: text }]. *)
Definition error_text (text : string) : string :=
  "{" +:+ quote "error" +:+ ":" +:+ quote text +:+ "}".

(** The JSON text of an [APIRouteInfo]: [docs] appears only when the
    route has some. *)
Definition route_info_text (r : Route) : string :=
  "{" +:+ quote "method" +:+ ":" +:+ quote (method_name (method r)) +:+ "," +:+
  quote "path" +:+ ":" +:+ quote (path r) +:+
  match docs r with
  | Some d => "," +:+ quote "docs" +:+ ":" +:+ quote d
  | None => EmptyString
  end +:+ "}".

(** Events that follow a reply of [json] sent with a final status: the
    failure of the transport is logged, nothing else happens. *)
Definition after_reply (ok : bool) : list Event :=
  if ok then [] else [LogError "Failed to send API response:"].

(** What the route listing shows of a route. *)
Definition public_part (r : Route) : HttpMethod * string * option string :=
  (method r, path r, docs r).

(** The status that a reader of the wire format finds in a reply: the
    integer before the first space, as [handleReply] extracts it. *)
Definition reply_status (e : Event) : option Z :=
  match e with
  | Reply _ text _ =>
      match cut_at_space text with
      | Some (statusStr, _) => parseInt statusStr
      | None => None
      end
  | _ => None
  end.

(** A final reply: one whose status is 200 or more. *)
Definition is_final_reply (e : Event) : bool :=
  match reply_status e with
  | Some s => 200 <=? s
  | None => false
  end.

Definition finals (evs : list Event) : nat := length (List.filter is_final_reply evs).

(** Number of final replies that a response object may still send. *)
Definition budget (res : BotAPIResponse) : nat := if sentFinal res then 0%nat else 1%nat.

(** The computation [m] on a response object only appends to the log,
    answers the same message, and the final replies it sends together
    with those its result may still send are at most [bound]. *)
Definition spends (m : M BotAPIResponse) (res : BotAPIResponse) (bound : nat) : Prop :=
  ∀ log, ∃ res' evs,
    m log = (res', log ++ evs)
    ∧ originalMessage res' = originalMessage res
    ∧ (finals evs + budget res' <= bound)%nat.

(** *** Route matching *)

(** The path obtained from a template by putting a value in the place of
    each named parameter, in order. *)
Fixpoint instantiate (ps : list TemplatePiece) (vals : list string) : string :=
  match ps with
  | [] => EmptyString
  | Lit c :: rest => String c (instantiate rest vals)
  | Param _ :: rest =>
      match vals with
      | v :: vs => v +:+ instantiate rest vs
      | [] => instantiate rest []
      end
  end.

(** Every named parameter runs to the end of its segment: it is followed
    by a slash or by the end of the template. *)
Fixpoint params_whole (ps : list TemplatePiece) : bool :=
  match ps with
  | [] => true
  | Param _ :: rest =>
      match rest with
      | [] => true
      | Lit c :: _ => is_slash c
      | Param _ :: _ => false
      end && params_whole rest
  | Lit _ :: rest => params_whole rest
  end.

Definition not_slash (c : ascii) : bool := negb (is_slash c).

(** A value for a parameter: not empty, without slash. *)
Definition segment_value (v : string) : bool :=
  negb (String.eqb v EmptyString) && all_chars not_slash v.

(** The servers built by the registration methods, whatever the
    templates and whatever the engine of regular expressions answers. *)
Inductive registered : BotAPIServer → Prop :=
| registered_new id d : registered (new_BotAPIServer id d)
| registered_route env srv srv' m p h d :
    registered srv → register env m p h d srv = Some srv' → registered srv'.

(** No character of the template has a meaning of its own in a regular
    expression. *)
Definition plain_template (path : string) : bool :=
  forallb piece_plain (scan_template None path).

(** A route accepts a request. *)
Definition accepts (r : Route) (m : HttpMethod) (pathname : string) : Prop :=
  method r = m ∧ is_Some (regex_exec (pathRegex r) pathname).

(** *** The client *)

(** [message] comes from the counterpart [target], answers the message
    [ref], and carries the integer [status] before its first space and
    [bodyStr] after it. *)
Definition reply_of (target ref : string) (message : Message) (status : Z)
    (bodyStr : string) : Prop :=
  author_id message = target ∧ reference message = Some ref ∧ ref ≠ EmptyString
  ∧ ∃ statusStr, cut_at_space (content message) = Some (statusStr, bodyStr)
                 ∧ parseInt statusStr = Some status.

(** ... and [ref] is the key of the live entry [pending]. *)
Definition correlated (c : BotAPIClient) (message : Message) (ref : string)
    (pending : PendingRequest) (status : Z) (bodyStr : string) : Prop :=
  reply_of (targetBotId c) ref message status bodyStr
  ∧ pendingRequests c !! ref = Some pending.

(** The invariant of the tables of a client: a timer that is set belongs
    to the live entry of the request it was set for, and distinct entries
    hold distinct promises, all already allocated. *)
Definition client_wf (c : BotAPIClient) : Prop :=
  (∀ t info, timers c !! t = Some info →
     ∃ p, pendingRequests c !! timer_message info = Some p
          ∧ timeoutId p = t ∧ promise p = timer_promise info)
  ∧ (∀ k p, pendingRequests c !! k = Some p → (promise p < next_id c)%nat)
  ∧ (∀ k1 k2 p1 p2, pendingRequests c !! k1 = Some p1 → pendingRequests c !! k2 = Some p2 →
                    promise p1 = promise p2 → k1 = k2).

(** An input that does not concern the request [ref]: a reply to another
    message (or to none), a timer, or a new request, to which the
    transport gives an identifier of its own. *)
Definition quiet (ref : string) (i : ClientInput) : Prop :=
  match i with
  | InReply message => reference message ≠ Some ref
  | InFire _ => True
  | InRequest _ _ _ sent_id => sent_id ≠ ref
  end.

(** The event settles the promise [p]. *)
Definition settles (p : nat) (e : ClientEvent) : bool :=
  match e with
  | Resolved q _ | Rejected q _ => Nat.eqb p q
  | Sent _ | Updated _ _ => false
  end.

(** The request [ref] waits with its timer cleared: its entry is live,
    no timer that is set can delete it or reject its promise, and no other
    entry holds its promise. *)
Definition awaiting_final (c : BotAPIClient) (ref : string) (pending : PendingRequest)
  : Prop :=
  pendingRequests c !! ref = Some pending
  ∧ (promise pending < next_id c)%nat
  ∧ (∀ t info, timers c !! t = Some info →
       timer_message info ≠ ref ∧ timer_promise info ≠ promise pending)
  ∧ (∀ k p, pendingRequests c !! k = Some p → promise p = promise pending → k = ref).

(** The clients that the methods of the class produce, when the
    transport never gives a request the identifier of a message whose
    request is still pending. *)
Inductive client_reachable : BotAPIClient → Prop :=
| reachable_new target timeout : client_reachable (new_BotAPIClient target timeout)
| reachable_step c i :
    client_reachable c →
    (∀ m route options sent_id, i = InRequest m route options sent_id →
                                pendingRequests c !! sent_id = None) →
    client_reachable (client_step c i).1.

(** *** The wire codec *)

(** A byte that starts no white-space character. *)
Definition plain (c : ascii) : bool := negb (ws_lead c).

(** The only white space in [s] is the space character. *)
Fixpoint tame (s : string) : bool :=
  match s with
  | EmptyString => true
  | String c r =>
      (match ws_len s with O => true | _ => code c =? 32 end) && tame r
  end.

(** [wire_safe s]: [s] is not empty, and its only white space is single
    space characters, each between two characters that are not white
    space.  [prev] tells whether the previous character was such a
    character. *)
Fixpoint wire_safe_go (prev : bool) (s : string) : bool :=
  match s with
  | EmptyString => prev
  | String c r =>
      match ws_len s with
      | O => wire_safe_go true r
      | _ => (code c =? 32) && prev && wire_safe_go false r
      end
  end.

Definition wire_safe (s : string) : bool := wire_safe_go false s.

(** The last character of [s] is not a space. *)
Fixpoint ends_nonspace (s : string) : bool :=
  match s with
  | EmptyString => false
  | String c EmptyString => negb (code c =? 32)
  | String _ r => ends_nonspace r
  end.

(** The element of the first pass of [decodeURIComponent] that the
    encoding of the byte [c] decodes to. *)
Definition encoded_item (c : ascii) : uri_item :=
  if uri_unreserved c then Raw c else Esc (code c).

Fixpoint encoded_items (s : string) : list uri_item :=
  match s with
  | EmptyString => []
  | String c r => encoded_item c :: encoded_items r
  end.

(** The command carried by a request: what follows the addressing prefix
    in the text built by [makeRequest]. *)
Definition command_of (m : HttpMethod) (route : string) (bodyText : string) : string :=
  method_name m +:+ " " +:+ encodeURIComponent route +:+
  match bodyText with
  | EmptyString => EmptyString
  | _ => " " +:+ bodyText
  end.

(** The request object that the server builds from what the client
    passed to [makeRequest]. *)
Definition expected_request (message : Message) (m : HttpMethod) (url : ParsedURL)
    (r : Route) (groups : list (option string)) (body : jsval) : BotAPIRequest :=
  {| req_message := message; req_authorId := author_id message; req_method := m;
     req_path := pathname url; req_params := route_params r groups;
     req_query := fromEntries (searchParams url);
     req_body := match body with JUndefined => JNull | _ => body end |}.

(** ** Examples

    An environment with upper-casing of ASCII letters, a URL parser for
    routes made of an absolute path and an optional query, which splits
    them without any normalisation, and a transport that accepts every
    reply; a server with the two routes of the documentation of the
    source and a few more; a client of that server. *)

Definition ascii_upper_char (c : ascii) : ascii :=
  if is_lower c then chr (code c - 32) else c.

Fixpoint ascii_upper (s : string) : string :=
  match s with
  | EmptyString => EmptyString
  | String c r => String (ascii_upper_char c) (ascii_upper r)
  end.

(** Cut [s] at the first occurrence of the character [sep]. *)
Fixpoint cut_at (sep : Z) (s : string) : string * option string :=
  match s with
  | EmptyString => (EmptyString, None)
  | String c r =>
      if code c =? sep then (EmptyString, Some r)
      else let '(a, b) := cut_at sep r in (String c a, b)
  end.

Fixpoint split_pairs (fuel : nat) (q : string) : list (string * string) :=
  match fuel with
  | O => []
  | S f =>
      let '(item, more) := cut_at 38 q in
      let '(k, v) := cut_at 61 item in
      let here := match item with
                  | EmptyString => []
                  | _ => [(k, default EmptyString v)]
                  end in
      match more with
      | Some rest => here ++ split_pairs f rest
      | None => here
      end
  end.

Definition simple_URL (route : string) : option ParsedURL :=
  let '(p, q) := cut_at 63 (cut_at 35 route).1 in
  Some {| pathname := match p with
                      | String c _ => if is_slash c then p else String "/" p
                      | EmptyString => "/"
                      end;
          searchParams := match q with
                          | Some qs => split_pairs (S (String.length qs)) qs
                          | None => []
                          end |}.

(** An engine of regular expressions that knows one source, that of the
    template [/users/:id?], and refuses every other one.  The expression
    [^/users/([^/]+)?/?$] matches [/users/] followed by a non-empty run
    without slash, which the group captures, or by nothing, which leaves
    the group undefined, and then by at most one slash. *)
Definition optional_id (s : string) : option (list (option string)) :=
  match strip_prefix "/users/" s with
  | Some rest =>
      match regex_match [RGroup] rest with
      | Some groups => Some (map Some groups)
      | None => (fun _ => [None]) <$> regex_match [] rest
      end
  | None => None
  end.

Definition example_RegExp (source : string)
  : option (string → option (list (option string))) :=
  if String.eqb source "^/users/([^/]+)?/?$" then Some optional_id else None.

Definition example_env : Env :=
  {| toUpperCase := ascii_upper; URL := simple_URL; RegExp := example_RegExp;
     reply_ok := fun _ _ _ => true |}.

(** The same environment with a transport that refuses every reply. *)
Definition refusing_env : Env :=
  {| toUpperCase := ascii_upper; URL := simple_URL; RegExp := example_RegExp;
     reply_ok := fun _ _ _ => false |}.

Definition example_message (text : string) : Message :=
  {| msg_id := "m1"; author_id := "7"; mentions := ["42"]; content := text;
     reference := None |}.

Definition balance_handler : Handler := fun _ =>
  {| before := [SetStatus 200; SendJson (JObj [("amount", jint 50000000)])];
     throws := false; after := [] |}.

Definition pay_handler : Handler := fun req =>
  {| before :=
       match req_query req !! "amount" with
       | Some _ => [SetStatus 200; SendJson (JObj [("message", JStr "omg it worked (maybe)")])]
       | None => [SetStatus 400; SendJson (error_body "You need an amount!!!")]
       end;
     throws := false; after := [] |}.

Definition slow_handler : Handler := fun _ =>
  {| before := [SetStatus 100; SendJson (JStr "working"); SendJson (JStr "still working");
                SetStatus 200; SendJson (JStr "done")];
     throws := false; after := [] |}.

Definition failing_handler : Handler := fun _ =>
  {| before := [SendJson (JBigInt 10)]; throws := true; after := [] |}.

Definition crashing_handler : Handler := fun _ =>
  {| before := [SetStatus 100; SendJson (JStr "working")]; throws := true;
     after := [SetStatus 200; SendJson (JStr "late")] |}.

Fixpoint register_all (steps : list (BotAPIServer → option BotAPIServer))
    (srv : BotAPIServer) : option BotAPIServer :=
  match steps with
  | [] => Some srv
  | step :: rest => step srv ≫= register_all rest
  end.

Definition empty_server : BotAPIServer := new_BotAPIServer "42" "Amazing Bot Docs".

Definition example_routes : list (BotAPIServer → option BotAPIServer) :=
  [get example_env "/balance/:userId" balance_handler (Some "Get the balance of a user");
   post example_env "/pay/:userId" pay_handler None;
   get example_env "/slow" slow_handler None;
   get example_env "/fail" failing_handler None;
   get example_env "/crash" crashing_handler None].

Definition example_server : BotAPIServer :=
  default empty_server (register_all example_routes empty_server).

(** A server whose only template has two parameters in one segment. *)
Definition range_server : BotAPIServer :=
  default empty_server (get example_env "/:a-:b" balance_handler None empty_server).

(** A server whose only template has an optional parameter. *)
Definition users_server : BotAPIServer :=
  default empty_server (get example_env "/users/:id?" balance_handler None empty_server).

Definition no_options : ClientRequestOptions :=
  {| opt_body := JUndefined; opt_onUpdate := false; opt_timeout := None |}.

Definition watching : ClientRequestOptions :=
  {| opt_body := JUndefined; opt_onUpdate := true; opt_timeout := Some 5000 |}.

Definition reply_message (id ref text : string) : Message :=
  {| msg_id := id; author_id := "42"; mentions := []; content := text;
     reference := Some ref |}.

(** A client of the server 42 that has sent one request, carried by the
    message [r1]. *)
Definition example_client : BotAPIClient :=
  (makeRequest GET "/slow" watching "r1" (new_BotAPIClient "42" None)).1.

(** ** class BotAPIClient: docs and routes

    The two methods send a command and wait for one reply with
    [transport.awaitMessages].  What they read of a message of the
    channel is the message and the URLs of its attachments. *)

Record ChannelMessage := {
  cm_message : Message;
  cm_attachments : list string
}.

(** What a rejected promise carries: an [Error] with its message, or a
    value that is not an [Error] (as when [awaitMessages] runs out of
    time). *)
Inductive Thrown :=
| ErrorMessage (message : string)
| NotAnError.

Inductive Settled (A : Type) :=
| Fulfilled (a : A)
| RejectedWith (e : Thrown).

Arguments Fulfilled {A} a.
Arguments RejectedWith {A} e.

(** The filter given to [awaitMessages]. *)
Definition reply_filter (c : BotAPIClient) (request_id : string) (m : ChannelMessage)
  : bool :=
  String.eqb (author_id (cm_message m)) (targetBotId c)
  && match reference (cm_message m) with
     | Some r => String.eqb r request_id
     | None => false
     end.

(** [awaitMessages({ filter, max: 1, time, errors: ['time'] })]: the first
    message that passes the filter among those that reach the channel
    before the time is up, oldest first; [None] when there is none and the
    promise rejects. *)
Definition awaitMessages (filter : ChannelMessage → bool) (arrivals : list ChannelMessage)
  : option ChannelMessage :=
  List.find filter arrivals.

(** [s.includes(needle)]. *)
Fixpoint includes (needle s : string) : bool :=
  match strip_prefix needle s with
  | Some _ => true
  | None =>
      match s with
      | String _ r => includes needle r
      | EmptyString => false
      end
  end.

Definition docs_request (c : BotAPIClient) : string := "<@" +:+ targetBotId c +:+ ">:api".

Definition docs_failure : string :=
  "Failed to fetch docs: Request timed out or invalid response.".

(** The [try] block of [docs]; [fetch_text url] stands for
    [(await fetch(url)).text()]. *)
Definition docs_try (c : BotAPIClient) (fetch_text : string → Settled string)
    (request_id : string) (arrivals : list ChannelMessage) : Settled string :=
  match awaitMessages (reply_filter c request_id) arrivals with
  | None => RejectedWith NotAnError
  | Some reply =>
      match cm_attachments reply with
      | url :: _ => fetch_text url
      | [] => RejectedWith (ErrorMessage "No attachment found in docs response.")
      end
  end.

(** [docs()]: the text sent, and how the promise settles once the
    transport has given the identifier [request_id] to the message sent. *)
Definition client_docs (c : BotAPIClient) (fetch_text : string → Settled string)
    (request_id : string) (arrivals : list ChannelMessage) : string * Settled string :=
  (docs_request c,
   match docs_try c fetch_text request_id arrivals with
   | Fulfilled text => Fulfilled text
   | RejectedWith _ => RejectedWith (ErrorMessage docs_failure)
   end).

Definition routes_request (c : BotAPIClient) : string :=
  "<@" +:+ targetBotId c +:+ ">:api routes".

Definition routes_failure : string :=
  "Failed to fetch routes: Request timed out or received no reply.".

(** The outer [try] block of [routes]. *)
Definition routes_try (c : BotAPIClient) (request_id : string)
    (arrivals : list ChannelMessage) : Settled jsval :=
  match awaitMessages (reply_filter c request_id) arrivals with
  | None => RejectedWith NotAnError
  | Some reply =>
      match cut_at_space (content (cm_message reply)) with
      | None => RejectedWith (ErrorMessage "Malformed routes response: No space separator.")
      | Some (_, jsonStr) =>
          match JSON_parse jsonStr with
          | Some v => Fulfilled v
          | None => RejectedWith (ErrorMessage "Malformed routes response: Invalid JSON.")
          end
      end
  end.

(** [routes()]: the [catch] block passes on the errors whose message
    includes [Malformed] and replaces the others. *)
Definition client_routes (c : BotAPIClient) (request_id : string)
    (arrivals : list ChannelMessage) : string * Settled jsval :=
  (routes_request c,
   match routes_try c request_id arrivals with
   | Fulfilled v => Fulfilled v
   | RejectedWith (ErrorMessage message) =>
       if includes "Malformed" message then RejectedWith (ErrorMessage message)
       else RejectedWith (ErrorMessage routes_failure)
   | RejectedWith NotAnError => RejectedWith (ErrorMessage routes_failure)
   end).

(** *** What the client reads of a route listing *)

(** The [APIRouteInfo] that [JSON.parse] builds from the entry of a
    route: the property [docs] exists only when the route has some. *)
Definition received_route_info (r : Route) : jsval :=
  JObj ([("method", JStr (method_name (method r))); ("path", JStr (path r))]
        ++ match docs r with
           | Some d => [("docs", JStr d)]
           | None => []
           end).

(** *** Addressing and bodies *)

(** A run of [n] space characters. *)
Fixpoint spaces (n : nat) : string :=
  match n with
  | O => EmptyString
  | S k => String " " (spaces k)
  end.

(** [s] holds no white-space character. *)
Fixpoint spaceless (s : string) : bool :=
  match s with
  | EmptyString => true
  | String _ r => match ws_len s with O => spaceless r | _ => false end
  end.

(** No string and no property name of [v] holds a white-space
    character. *)
Fixpoint compact (v : jsval) : bool :=
  match v with
  | JStr s => spaceless s
  | JArr items => forallb compact items
  | JObj props => forallb (fun kv => spaceless (fst kv) && compact (snd kv)) props
  | _ => true
  end.

(** A byte of a character that is not ASCII, and the bytes of this kind
    at the head of a text, two at most: what decides, after a first byte,
    whether a white-space character starts there. *)
Definition is_high (c : ascii) : bool := 128 <=? code c.

Definition high1 (s : string) : string :=
  match s with
  | String e _ => if is_high e then String e EmptyString else EmptyString
  | EmptyString => EmptyString
  end.

Definition high2 (s : string) : string :=
  match s with
  | String d r => if is_high d then String d (high1 r) else EmptyString
  | EmptyString => EmptyString
  end.

(** The text is empty or starts with an ASCII character. *)
Definition starts_low (s : string) : bool :=
  match s with
  | String c _ => negb (is_high c)
  | EmptyString => true
  end.

(** ** Vocabulary of the further properties *)

(** *** Templates and replies *)

(** The text of a template read back from its pieces: a named parameter
    is a colon followed by its name. *)
Fixpoint render (ps : list TemplatePiece) : string :=
  match ps with
  | [] => EmptyString
  | Lit c :: rest => String c (render rest)
  | Param k :: rest => String ":" (k +:+ render rest)
  end.


(** The last character of [s] is a slash. *)
Fixpoint ends_slash (s : string) : bool :=
  match s with
  | EmptyString => false
  | String c EmptyString => is_slash c
  | String _ r => ends_slash r
  end.

(** The event, if it is a reply, answers the message [to]. *)
Definition answers (to : string) (e : Event) : Prop :=
  match e with
  | Reply t _ _ | ReplyFile t _ _ _ => t = to
  | _ => True
  end.

(** An event that a response object can cause: a reply to the message
    [to], a warning or an error on the console. *)
Definition response_event (to : string) (e : Event) : Prop :=
  match e with
  | Reply t _ _ => t = to
  | Warn _ | LogError _ => True
  | ReplyFile _ _ _ _ | Invoke _ _ => False
  end.

Definition is_invoke (e : Event) : bool :=
  match e with Invoke _ _ => true | _ => false end.

(** Number of handler invocations. *)
Definition invocations (evs : list Event) : nat := length (List.filter is_invoke evs).

(** The computation [m] on a response object only appends to the log,
    what it appends are events of the response object, and its result
    answers the same message. *)
Definition addresses (m : M BotAPIResponse) (res : BotAPIResponse) : Prop :=
  ∀ log, ∃ res' evs,
    m log = (res', log ++ evs)
    ∧ originalMessage res' = originalMessage res
    ∧ Forall (response_event (originalMessage res)) evs.

(** *** Runs of a client *)

(** Along the run, the transport never gives a new request the
    identifier of a message whose request is still pending. *)
Fixpoint fresh_ids (c : BotAPIClient) (inputs : list ClientInput) : Prop :=
  match inputs with
  | [] => True
  | i :: rest =>
      match i with
      | InRequest _ _ _ sent_id => pendingRequests c !! sent_id = None
      | _ => True
      end
      ∧ fresh_ids (client_step c i).1 rest
  end.

(** Number of events that settle the promise [p]. *)
Definition settlements (p : nat) (evs : list ClientEvent) : nat :=
  length (List.filter (settles p) evs).

(** The promise [p] was allocated and no entry holds it any more. *)
Definition retired (p : nat) (c : BotAPIClient) : Prop :=
  (p < next_id c)%nat ∧ ∀ k e, pendingRequests c !! k = Some e → promise e ≠ p.

(** The promise that an event is about. *)
Definition event_promise (e : ClientEvent) : option nat :=
  match e with
  | Sent _ => None
  | Resolved p _ | Rejected p _ | Updated p _ => Some p
  end.

(** *** Values that cross the wire unchanged *)

(** An integer that a double holds exactly, in the normal form of the
    model of numbers. *)
Definition safe_integer (m e : Z) : bool :=
  (0 <=? e) && (if m =? 0 then e =? 0 else negb (m mod 10 =? 0))
  && (Z.abs m * 10 ^ e <? 2 ^ 53).

(** The names of the own properties of an object come in the order of
    OrdinaryOwnPropertyKeys: array indices first, in increasing order,
    then the other names, each name once.  [seen] are the names before
    [ks]. *)
Fixpoint keys_ordered (seen ks : list string) : bool :=
  match ks with
  | [] => true
  | k :: rest =>
      negb (existsb (String.eqb k) seen)
      && match array_index k with
         | Some n =>
             forallb (fun k' => match array_index k' with
                                | Some n' => n' <? n
                                | None => false
                                end) seen
         | None => true
         end
      && keys_ordered (seen ++ [k]) rest
  end.

(** Values made of [null], booleans, safe integers, strings, arrays and
    objects. *)
Fixpoint portable (v : jsval) : bool :=
  match v with
  | JUndefined | JBigInt _ => false
  | JNull | JBool _ | JStr _ => true
  | JNum m e => safe_integer m e
  | JArr items => forallb portable items
  | JObj props =>
      forallb (fun kv => portable (snd kv)) props && keys_ordered [] (map fst props)
  end.

(** What can follow a value in a JSON text: nothing, a comma, or a
    closing bracket or brace. *)
Definition delimited (rest : string) : bool :=
  match rest with
  | EmptyString => true
  | String c _ => (code c =? 44) || (code c =? 93) || (code c =? 125)
  end.

(** The characters that start the text of a value. *)
Definition value_start (c : ascii) : bool :=
  is_digit c ||
  match code c with
  | 45 | 34 | 91 | 123 | 116 | 102 | 110 => true
  | _ => false
  end.

(** [JSON.stringify] gives [v] a text, and [JSON.parse] reads [v] back
    from it, whatever follows the text and with any fuel above its
    length. *)
Definition reads (v : jsval) : Prop :=
  ∃ t, JSON_stringify v = SText t
       ∧ (∃ c r, t = String c r ∧ value_start c = true)
       ∧ ∀ f rest, delimited rest = true → (String.length t < f)%nat →
           parse_value f (t +:+ rest) = Some (v, rest).

(** * Properties *)

(** ** Strings *)

Lemma app_cons c s t : String c s +:+ t = String c (s +:+ t).
Proof. reflexivity. Qed.

Lemma app_empty_l s : EmptyString +:+ s = s.
Proof. reflexivity. Qed.

Lemma app_empty_r s : s +:+ EmptyString = s.
Proof. induction s; [reflexivity|]. rewrite app_cons. congruence. Qed.

Lemma app_assoc_s a b c : (a +:+ b) +:+ c = a +:+ b +:+ c.
Proof. induction a; [reflexivity|]. rewrite !app_cons. congruence. Qed.

Create Rewrite HintDb str.
#[local] Hint Rewrite app_cons app_empty_l app_empty_r app_assoc_s : str.

Ltac str_norm := autorewrite with str.

(** ** Decimal numerals *)

Lemma code_chr z : 0 <= z < 256 → code (chr z) = z.
Proof.
  intros H. unfold code, chr. rewrite N_ascii_embedding; lia.
Qed.

Lemma chr_code c : chr (code c) = c.
Proof. unfold code, chr. rewrite N2Z.id. apply ascii_N_embedding. Qed.

Lemma digits_value_snoc d : ∀ a c,
  digits_value a (d +:+ String c EmptyString) = 10 * digits_value a d + (code c - 48).
Proof.
  induction d as [|x d IH]; intros a c; [reflexivity|].
  rewrite app_cons. cbn [digits_value]. apply IH.
Qed.

Lemma all_chars_app p a b : all_chars p (a +:+ b) = all_chars p a && all_chars p b.
Proof.
  induction a as [|c a IH]; [reflexivity|].
  rewrite app_cons. simpl. rewrite IH. apply andb_assoc.
Qed.

Lemma is_digit_digit_char k : 0 <= k < 10 → is_digit (digit_char k) = true.
Proof.
  intros H. unfold is_digit, between, digit_char. rewrite code_chr by lia.
  apply andb_true_iff. split; apply Z.leb_le; lia.
Qed.

Lemma digits_go_step f n acc :
  digits_go (S f) n acc =
    if n <? 10 then String (digit_char (n mod 10)) acc
    else digits_go f (n / 10) (String (digit_char (n mod 10)) acc).
Proof. reflexivity. Qed.

Lemma digits_go_spec f : ∀ n acc,
  0 <= n < 10 ^ Z.of_nat (S f) →
  ∃ d, digits_go (S f) n acc = d +:+ acc ∧ d ≠ EmptyString
       ∧ all_chars is_digit d = true ∧ digits_value 0 d = n.
Proof.
  induction f as [|f IH]; intros n acc Hn; rewrite digits_go_step.
  - assert (Hlt : (n <? 10) = true) by (apply Z.ltb_lt; simpl in Hn; lia).
    rewrite Hlt. apply Z.ltb_lt in Hlt.
    exists (String (digit_char (n mod 10)) EmptyString). repeat split; try discriminate.
    + cbn [all_chars]. rewrite is_digit_digit_char; [reflexivity|].
      apply Z.mod_pos_bound; lia.
    + cbn [digits_value]. unfold digit_char. rewrite code_chr.
      * rewrite Z.mod_small; lia.
      * pose proof (Z.mod_pos_bound n 10). lia.
  - destruct (n <? 10) eqn:E.
    + apply Z.ltb_lt in E.
      exists (String (digit_char (n mod 10)) EmptyString). repeat split; try discriminate.
      * cbn [all_chars]. rewrite is_digit_digit_char; [reflexivity|].
        apply Z.mod_pos_bound; lia.
      * cbn [digits_value]. unfold digit_char. rewrite code_chr.
        -- rewrite Z.mod_small; lia.
        -- pose proof (Z.mod_pos_bound n 10). lia.
    + apply Z.ltb_ge in E.
      destruct (IH (n / 10) (String (digit_char (n mod 10)) acc)) as (d & Hd & Hne & Hall & Hv).
      { split; [apply Z.div_pos; lia|].
        apply Z.div_lt_upper_bound; [lia|].
        rewrite (Nat2Z.inj_succ (S f)), Z.pow_succ_r in Hn by lia. lia. }
      exists (d +:+ String (digit_char (n mod 10)) EmptyString).
      pose proof (Z.mod_pos_bound n 10 ltac:(lia)) as Hm.
      repeat split.
      * rewrite Hd. rewrite app_assoc_s. reflexivity.
      * destruct d; [congruence|discriminate].
      * rewrite all_chars_app, Hall. cbn [all_chars].
        rewrite is_digit_digit_char by lia. reflexivity.
      * rewrite digits_value_snoc, Hv. unfold digit_char.
        rewrite code_chr by lia.
        pose proof (Z.div_mod n 10 ltac:(lia)). lia.
Qed.

Lemma digits_spec n :
  0 <= n →
  digits n ≠ EmptyString ∧ all_chars is_digit (digits n) = true
  ∧ digits_value 0 (digits n) = n.
Proof.
  intros Hn. unfold digits.
  destruct (digits_go_spec (Z.to_nat (Z.log2 n)) n EmptyString) as (d & Hd & H1 & H2 & H3).
  - split; [lia|].
    rewrite Nat2Z.inj_succ, Z2Nat.id by apply Z.log2_nonneg.
    destruct (Z.eq_dec n 0) as [->|Hz]; [reflexivity|].
    pose proof (Z.log2_spec n ltac:(lia)) as [_ Hlt].
    pose proof (Z.log2_nonneg n) as Hl.
    pose proof (Z.pow_le_mono_l 2 10 (Z.succ (Z.log2 n)) ltac:(lia)).
    lia.
  - rewrite Hd, app_empty_r. auto.
Qed.

Lemma take_digits_all d :
  all_chars is_digit d = true → take_digits d = (d, EmptyString).
Proof.
  induction d as [|c d IH]; intros H; [reflexivity|].
  simpl in *. apply andb_true_iff in H as [Hc Hd].
  rewrite Hc, (IH Hd). reflexivity.
Qed.

Lemma is_digit_not_ws c : is_digit c = true → is_ascii_ws c = false ∧ ws_lead c = false.
Proof.
  unfold is_digit, is_ascii_ws, ws_lead, is_ascii_ws, between.
  intros H. apply andb_true_iff in H as [H1 H2].
  apply Z.leb_le in H1, H2.
  assert (Hc : code c = 48 ∨ code c = 49 ∨ code c = 50 ∨ code c = 51 ∨ code c = 52 ∨
               code c = 53 ∨ code c = 54 ∨ code c = 55 ∨ code c = 56 ∨ code c = 57) by lia.
  destruct Hc as [->|[->|[->|[->|[->|[->|[->|[->|[->| ->]]]]]]]]]; auto.
Qed.

Lemma ws_len_not_lead c r : ws_lead c = false → ws_len (String c r) = 0%nat.
Proof.
  unfold ws_lead, ws_len. intros H. apply orb_false_iff in H as [H1 H2].
  rewrite H1.
  destruct (code c) as [|p|p]; try reflexivity.
  do 8 (destruct p as [p|p|]; try reflexivity; try discriminate).
Qed.

Lemma parseInt_string_of_Z z : parseInt (string_of_Z z) = Some z.
Proof.
  unfold string_of_Z. destruct (z <? 0) eqn:E.
  - apply Z.ltb_lt in E.
    destruct (digits_spec (- z) ltac:(lia)) as (Hne & Hall & Hv).
    unfold parseInt, trimStart. cbn [trimStart_go].
    rewrite ws_len_not_lead by reflexivity.
    change (code "-" =? 45) with true. cbn iota.
    rewrite take_digits_all by assumption.
    destruct (digits (- z)); [congruence|]. rewrite Hv. f_equal. lia.
  - apply Z.ltb_ge in E.
    destruct (digits_spec z E) as (Hne & Hall & Hv).
    unfold parseInt, trimStart.
    destruct (digits z) as [|c d] eqn:Ed; [congruence|].
    cbn [trimStart_go].
    cbn [all_chars] in Hall. apply andb_true_iff in Hall as [Hc Hd].
    destruct (is_digit_not_ws c Hc) as [_ Hl].
    rewrite ws_len_not_lead by assumption.
    assert (H45 : (code c =? 45) = false).
    { unfold is_digit, between in Hc. apply andb_true_iff in Hc as [H1 _].
      apply Z.leb_le in H1. apply Z.eqb_neq. lia. }
    assert (H43 : (code c =? 43) = false).
    { unfold is_digit, between in Hc. apply andb_true_iff in Hc as [H1 _].
      apply Z.leb_le in H1. apply Z.eqb_neq. lia. }
    rewrite H45, H43.
    rewrite take_digits_all by (cbn [all_chars]; rewrite Hc, Hd; reflexivity).
    rewrite Hv. reflexivity.
Qed.

Lemma cut_at_space_app a b :
  all_chars (fun c => negb (code c =? 32)) a = true →
  cut_at_space (a +:+ String " " b) = Some (a, b).
Proof.
  induction a as [|c a IH]; intros H; [reflexivity|].
  cbn [all_chars] in H. apply andb_true_iff in H as [Hc Ha].
  rewrite app_cons. cbn [cut_at_space].
  apply negb_true_iff in Hc. rewrite Hc, (IH Ha). reflexivity.
Qed.

Lemma all_chars_impl (p q : ascii → bool) s :
  (∀ c, p c = true → q c = true) → all_chars p s = true → all_chars q s = true.
Proof.
  intros Hpq. induction s as [|c s IH]; [reflexivity|].
  cbn [all_chars]. intros H. apply andb_true_iff in H as [Hc Hs].
  rewrite (Hpq c Hc), (IH Hs). reflexivity.
Qed.

Lemma string_of_Z_no_space z :
  all_chars (fun c => negb (code c =? 32)) (string_of_Z z) = true.
Proof.
  assert (Hd : ∀ n, 0 <= n → all_chars (fun c => negb (code c =? 32)) (digits n) = true).
  { intros n Hn. destruct (digits_spec n Hn) as (_ & Hall & _).
    revert Hall. apply all_chars_impl. intros c Hc.
    unfold is_digit, between in Hc. apply andb_true_iff in Hc as [H1 _].
    apply Z.leb_le in H1. apply negb_true_iff, Z.eqb_neq. lia. }
  unfold string_of_Z. destruct (z <? 0) eqn:E.
  - apply Z.ltb_lt in E. cbn [all_chars]. rewrite Hd by lia. reflexivity.
  - apply Z.ltb_ge in E. apply Hd, E.
Qed.

(** A reader of the wire format recovers the status that [json] wrote. *)
Lemma reply_status_text to z body ok :
  reply_status (Reply to (string_of_Z z +:+ " " +:+ body) ok) = Some z.
Proof.
  unfold reply_status.
  change (string_of_Z z +:+ " " +:+ body) with (string_of_Z z +:+ String " " body).
  rewrite cut_at_space_app by apply string_of_Z_no_space.
  apply parseInt_string_of_Z.
Qed.

(** ** The response object *)

Section Response.

Context (env : Env).

Lemma json_after_final d res log :
  sentFinal res = true → json env d res log = (res, log ++ [Warn final_warning]).
Proof. intros H. unfold json. rewrite H. reflexivity. Qed.

Lemma run_ops_after_final ops : ∀ res log,
  sentFinal res = true →
  ∃ res', run_ops env ops res log = (res', log ++ repeat (Warn final_warning) (sends ops))
          ∧ sentFinal res' = true ∧ originalMessage res' = originalMessage res.
Proof.
  induction ops as [|op ops IH]; intros res log Hf; simpl.
  - exists res. unfold ret, sends. simpl. rewrite app_nil_r. auto.
  - destruct op as [c|d]; unfold bind; simpl.
    + destruct (IH (status c res) log Hf) as (res' & Hr & Hs & Ho).
      exists res'. unfold ret. rewrite Hr. auto.
    + rewrite json_after_final by assumption.
      destruct (IH res (log ++ [Warn final_warning]) Hf) as (res' & Hr & Hs & Ho).
      exists res'. rewrite Hr. unfold sends. simpl.
      rewrite <- app_assoc. auto.
Qed.

Lemma json_failed_final res log : sentFinal (json_failed env res log).1 = true.
Proof.
  unfold json_failed, bind, emit, reply, ret. simpl.
  destruct (sentFinal res) eqn:E; simpl; auto.
Qed.

Lemma json_final_status d res log :
  200 <= statusCode res → sentFinal (json env d res log).1 = true.
Proof.
  intros Hs. unfold json.
  destruct (sentFinal res) eqn:Hf; [simpl; exact Hf|].
  apply Z.leb_le in Hs. rewrite Hs.
  destruct (JSON_stringify d); try apply json_failed_final;
    unfold bind, reply; simpl;
    match goal with |- context [reply_ok ?e ?l ?a ?b] => destruct (reply_ok e l a b) end;
    simpl; auto; apply json_failed_final.
Qed.

Lemma json_intermediate d res log :
  sentFinal res = false → statusCode res < 200 → serializable d →
  reply_ok env log (originalMessage res) (response_text res d) = true →
  json env d res log = (res, log ++ [Reply (originalMessage res) (response_text res d) true]).
Proof.
  intros Hf Hs Hd Hok. unfold json. rewrite Hf.
  apply Z.leb_gt in Hs. rewrite Hs.
  unfold serializable in Hd. unfold response_text, text_of in Hok.
  destruct (JSON_stringify d) eqn:E; try congruence;
    unfold bind, reply, response_text, text_of; simpl; rewrite E, Hok; reflexivity.
Qed.

Lemma run_intermediate ds : ∀ res log,
  sentFinal res = false → statusCode res < 200 → Forall serializable ds → reliable env →
  run_ops env (map SendJson ds) res log =
    (res, log ++ map (fun d => Reply (originalMessage res) (response_text res d) true) ds).
Proof.
  induction ds as [|d ds IH]; intros res log Hf Hs Hall Hrel; simpl.
  - unfold ret. rewrite app_nil_r. reflexivity.
  - inversion Hall; subst. unfold bind.
    rewrite json_intermediate by auto.
    rewrite IH by auto. rewrite <- app_assoc. reflexivity.
Qed.

End Response.

(** C5, as the code has it.  On a response object not yet marked final:
    after a call of [json] made with a status of 200 or more, every later
    call of [json] transmits nothing and only logs the warning; and with
    a status below 200, any number of calls with serializable data over a
    transport that accepts them are all transmitted and leave the object
    unmarked. *)
Theorem response_final_write (env : Env) (res : BotAPIResponse) (log : list Event) :
  sentFinal res = false →
  (200 <= statusCode res →
   ∀ d ops,
     sentFinal (json env d res log).1 = true ∧
     ∃ res2,
       run_ops env ops (json env d res log).1 (json env d res log).2 =
         (res2, (json env d res log).2 ++ repeat (Warn final_warning) (sends ops))
       ∧ sentFinal res2 = true)
  ∧
  (statusCode res < 200 →
   ∀ ds, Forall serializable ds → reliable env →
     run_ops env (map SendJson ds) res log =
       (res, log ++ map (fun d => Reply (originalMessage res) (response_text res d) true) ds)).
Proof.
  intros Hf. split.
  - intros Hs d ops.
    pose proof (json_final_status env d res log Hs) as H1.
    split; [exact H1|].
    destruct (run_ops_after_final env ops _ (json env d res log).2 H1) as (r2 & Hr & Hs2 & _).
    exists r2. auto.
  - intros Hs ds Hall Hrel. apply run_intermediate; auto.
Qed.

Lemma response_final_write_witness :
  (let res := new_BotAPIResponse (example_message "x") in
   sentFinal (json example_env (jint 1) res []).1 = true)
  ∧
  (let res := status 100 (new_BotAPIResponse (example_message "x")) in
   run_ops example_env (map SendJson [jint 1; JBool true]) res [] =
     (res, [Reply "m1" "100 1" true; Reply "m1" "100 true" true])).
Proof.
  split.
  - intros res.
    destruct (response_final_write example_env res [] eq_refl) as [H _].
    apply (H ltac:(simpl; lia) (jint 1) []).
  - intros res.
    destruct (response_final_write example_env res [] eq_refl) as [_ H].
    apply (H ltac:(simpl; lia) [jint 1; JBool true]).
    + repeat constructor; unfold serializable; vm_compute; discriminate.
    + intros ? ? ?. reflexivity.
Defined.

(** C5 as stated fails: a call of [json] with a status below 200 marks the
    response final when the data cannot be serialized. *)
Lemma intermediate_json_may_set_final :
  ¬ (∀ (env : Env) (d : jsval) (res : BotAPIResponse) (log : list Event),
       sentFinal res = false → statusCode res < 200 →
       sentFinal (json env d res log).1 = false).
Proof.
  intros H.
  specialize (H example_env (JBigInt 1)
                (status 100 (new_BotAPIResponse (example_message "x"))) []
                eq_refl ltac:(simpl; lia)).
  vm_compute in H. discriminate.
Qed.

(** The same happens when the data is fine and the transport refuses the
    reply. *)
Example refused_update_sets_final :
  json refusing_env (JStr "working")
       (status 100 (new_BotAPIResponse (example_message "x"))) []
  = (set_sentFinal (status 100 (new_BotAPIResponse (example_message "x"))),
     [Reply "m1" (response_text (status 100 (new_BotAPIResponse (example_message "x")))
                                (JStr "working")) false;
      LogError "Failed to send API response:";
      Reply "m1" serialize_failure false]).
Proof. reflexivity. Qed.

(** ** The server *)

Section Server.

Context (env : Env).

Lemma stringify_error_body text :
  JSON_stringify (error_body text) = SText (error_text text).
Proof. reflexivity. Qed.

(** A call of [json] with a final status on an unmarked response: one
    reply, and the log entry of the [catch] block when it is refused. *)
Lemma json_final_reply d res log :
  sentFinal res = false → 200 <= statusCode res → serializable d →
  json env d res log =
    (set_sentFinal res,
     log ++ Reply (originalMessage res) (response_text res d)
                  (reply_ok env log (originalMessage res) (response_text res d))
         :: after_reply (reply_ok env log (originalMessage res) (response_text res d))).
Proof.
  intros Hf Hs Hd. unfold json. rewrite Hf.
  apply Z.leb_le in Hs. rewrite Hs.
  unfold serializable in Hd. unfold response_text, text_of.
  destruct (JSON_stringify d) eqn:E; try congruence;
    unfold bind, reply; simpl;
    match goal with |- context [reply_ok ?e ?l ?a ?b] => destruct (reply_ok e l a b) end;
    simpl; unfold ret, json_failed, bind, emit, ret; simpl;
    rewrite <- ?app_assoc; reflexivity.
Qed.

Lemma error_reply (code : Z) text message log :
  200 <= code →
  json env (error_body text) (status code (new_BotAPIResponse message)) log =
    (set_sentFinal (status code (new_BotAPIResponse message)),
     log ++ Reply (msg_id message) (string_of_Z code +:+ " " +:+ error_text text)
                  (reply_ok env log (msg_id message)
                            (string_of_Z code +:+ " " +:+ error_text text))
         :: after_reply (reply_ok env log (msg_id message)
                                  (string_of_Z code +:+ " " +:+ error_text text))).
Proof.
  intros Hc. rewrite json_final_reply; auto.
  unfold serializable. rewrite stringify_error_body. discriminate.
Qed.

Lemma handleMessage_request srv message command log :
  addressed_command srv message = Some command →
  command ≠ EmptyString → command ≠ "docs" → command ≠ "routes" →
  handleMessage env srv message log = handleRequest env srv message command log.
Proof.
  intros Ha H1 H2 H3. unfold handleMessage. rewrite Ha.
  apply String.eqb_neq in H1, H2, H3. rewrite H1, H2, H3. reflexivity.
Qed.

(** When the route token decodes, an unknown method is answered with
    status 400 and the method's name, whatever the routes are. *)
Lemma invalid_method_reply srv message command first rawRoute bodyString route log :
  request_parts command = (first, rawRoute, bodyString) →
  decodeURIComponent rawRoute = Some route →
  method_of_string (toUpperCase env first) = None →
  ∃ ok,
    handleRequest env srv message command log =
      (Done,
       log ++ Reply (msg_id message)
                    ("400 " +:+ error_text ("Invalid method '" +:+ toUpperCase env first +:+ "'"))
                    ok :: after_reply ok).
Proof.
  intros Hp Hd Hm. unfold handleRequest. rewrite Hp, Hd, Hm.
  unfold bind. rewrite error_reply by lia.
  eexists. reflexivity.
Qed.

(** ... and the route table plays no part in the answer. *)
Lemma invalid_method_ignores_routes srv srv' message command first rawRoute bodyString
    route log :
  request_parts command = (first, rawRoute, bodyString) →
  decodeURIComponent rawRoute = Some route →
  method_of_string (toUpperCase env first) = None →
  handleRequest env srv message command log = handleRequest env srv' message command log.
Proof.
  intros Hp Hd Hm. unfold handleRequest. rewrite Hp, Hd, Hm. reflexivity.
Qed.

End Server.

(** C4.  A request that matches a registered route and carries a body
    string that is not JSON is answered with the text
    [400 {"error":"Invalid JSON body"}], and the handler is not called. *)
Theorem invalid_json_body (env : Env) (srv : BotAPIServer) (message : Message)
    (command first rawRoute bodyString route : string) (m : HttpMethod)
    (url : ParsedURL) (i : nat) (r : Route) (groups : list (option string)) (log : list Event) :
  addressed_command srv message = Some command →
  command ≠ EmptyString → command ≠ "docs" → command ≠ "routes" →
  request_parts command = (first, rawRoute, bodyString) →
  decodeURIComponent rawRoute = Some route →
  method_of_string (toUpperCase env first) = Some m →
  URL env route = Some url →
  findRoute m (pathname url) 0 (routes srv) = Some (i, r, groups) →
  bodyString ≠ EmptyString →
  JSON_parse bodyString = None →
  ∃ ok,
    handleMessage env srv message log =
      (Done,
       log ++ Reply (msg_id message) ("400 " +:+ error_text "Invalid JSON body") ok
           :: after_reply ok)
    ∧ ∀ j req, Invoke j req ∉ Reply (msg_id message)
                                 ("400 " +:+ error_text "Invalid JSON body") ok
                               :: after_reply ok.
Proof.
  intros Ha H1 H2 H3 Hp Hd Hm Hu Hf Hb Hj.
  rewrite (handleMessage_request env srv message command) by assumption.
  unfold handleRequest. rewrite Hp, Hd, Hm, Hu, Hf.
  unfold dispatch. destruct bodyString as [|c b]; [congruence|].
  rewrite Hj. unfold bind. rewrite error_reply by lia.
  eexists. split; [reflexivity|].
  intros j req Hin. apply elem_of_cons in Hin as [Hin|Hin]; [discriminate|].
  unfold after_reply in Hin.
  destruct (reply_ok _ _ _ _); [by apply elem_of_nil in Hin|].
  apply elem_of_cons in Hin as [Hin|Hin]; [discriminate|by apply elem_of_nil in Hin].
Qed.

Lemma invalid_json_body_witness :
  ∃ ok,
    handleMessage example_env example_server
      (example_message "<@42>:api POST /pay/7 not-json") [] =
      (Done, [Reply "m1" ("400 " +:+ error_text "Invalid JSON body") ok] ++ after_reply ok).
Proof.
  destruct (invalid_json_body example_env example_server
              (example_message "<@42>:api POST /pay/7 not-json")
              "POST /pay/7 not-json" "POST" "/pay/7" "not-json" "/pay/7" POST
              {| pathname := "/pay/7"; searchParams := [] |} 1
              {| method := POST; path := "/pay/:userId";
                 pathRegex := Items [RChar "/"; RChar "p"; RChar "a"; RChar "y"; RChar "/"; RGroup];
                 paramKeys := ["userId"]; handler := pay_handler; docs := None |}
              [Some "7"] [])
    as (ok & H & _);
    try (vm_compute; congruence); try reflexivity.
  exists ok. exact H.
Defined.

(** C3 at a command whose method is unknown and whose route token is not
    a well-formed percent-encoding: [decodeURIComponent] throws before the
    method is looked at, and the server sends no reply at all. *)
Theorem invalid_method_malformed_route :
  (request_parts "FOO %").1 = ("FOO", "%")
  ∧ method_of_string (toUpperCase example_env "FOO") = None
  ∧ handleMessage example_env example_server (example_message "<@42>:api FOO %") []
    = (Threw "URIError", []).
Proof. vm_compute. auto. Qed.

(** ** JSON texts *)

Lemma stringify_array l :
  JSON_stringify (JArr l) =
    match stringify_elems l with
    | Some ts => SText ("[" +:+ commas ts +:+ "]")
    | None => SThrow
    end.
Proof. reflexivity. Qed.

Lemma stringify_object l :
  JSON_stringify (JObj l) =
    match stringify_members l with
    | Some ts => SText ("{" +:+ commas ts +:+ "}")
    | None => SThrow
    end.
Proof. reflexivity. Qed.

Lemma stringify_elems_texts (f : jsval → string) l :
  Forall (fun v => JSON_stringify v = SText (f v)) l →
  stringify_elems l = Some (map f l).
Proof.
  induction 1 as [|v l Hv _ IH]; [reflexivity|].
  simpl. simpl in IH. rewrite Hv, IH. reflexivity.
Qed.

Lemma stringify_routeInfo r : JSON_stringify (routeInfo r) = SText (route_info_text r).
Proof.
  unfold routeInfo, route_info_text. rewrite stringify_object.
  destruct (docs r); simpl; unfold commas; simpl; str_norm; reflexivity.
Qed.

Lemma stringify_publicRoutes rs :
  JSON_stringify (JArr (map routeInfo rs)) =
    SText ("[" +:+ commas (map route_info_text rs) +:+ "]").
Proof.
  rewrite stringify_array.
  rewrite (stringify_elems_texts (fun v => text_of (JSON_stringify v))).
  - rewrite map_map. do 4 f_equal.
    apply map_ext. intros r. rewrite stringify_routeInfo. reflexivity.
  - apply Forall_forall. intros v Hv.
    apply list_elem_of_In, in_map_iff in Hv as (r & <- & _).
    rewrite stringify_routeInfo. reflexivity.
Qed.

(** C9.  A [routes] command is answered by one reply, of status 200,
    whose body is the JSON array of the [{method, path, docs?}] objects of
    the registered routes, in registration order; the reply depends on
    nothing else of the routes, handlers included. *)
Theorem routes_listing (env : Env) (srv : BotAPIServer) (message : Message)
    (log : list Event) :
  addressed_command srv message = Some "routes" →
  (∃ ok : bool,
     handleMessage env srv message log =
       (if ok then Done else Threw "reply",
        log ++ [Reply (msg_id message)
                      ("200 [" +:+ commas (map route_info_text (routes srv)) +:+ "]") ok]))
  ∧
  (∀ srv', addressed_command srv' message = Some "routes" →
           map public_part (routes srv') = map public_part (routes srv) →
           handleMessage env srv' message log = handleMessage env srv message log).
Proof.
  intros Ha.
  assert (Hrun : ∀ s, addressed_command s message = Some "routes" →
            handleMessage env s message log =
              (if reply_ok env log (msg_id message)
                    ("200 [" +:+ commas (map route_info_text (routes s)) +:+ "]")
               then Done else Threw "reply",
               log ++ [Reply (msg_id message)
                         ("200 [" +:+ commas (map route_info_text (routes s)) +:+ "]")
                         (reply_ok env log (msg_id message)
                            ("200 [" +:+ commas (map route_info_text (routes s)) +:+ "]"))])).
  { intros s Hs. unfold handleMessage.
    rewrite Hs, stringify_publicRoutes. reflexivity. }
  split.
  - eexists. apply Hrun, Ha.
  - intros srv' Ha' Hpub. rewrite (Hrun srv' Ha'), (Hrun srv Ha).
    assert (Htxt : map route_info_text (routes srv') = map route_info_text (routes srv)).
    { transitivity (map (fun p : HttpMethod * string * option string =>
                           "{" +:+ quote "method" +:+ ":" +:+ quote (method_name p.1.1) +:+ "," +:+
                           quote "path" +:+ ":" +:+ quote p.1.2 +:+
                           match p.2 with
                           | Some d => "," +:+ quote "docs" +:+ ":" +:+ quote d
                           | None => EmptyString
                           end +:+ "}")
                        (map public_part (routes srv'))).
      - rewrite map_map. reflexivity.
      - rewrite Hpub, map_map. reflexivity. }
    rewrite Htxt. reflexivity.
Qed.

Lemma routes_listing_witness :
  ∃ ok : bool,
    handleMessage example_env example_server (example_message "<@42>:api routes") [] =
      (if ok then Done else Threw "reply",
       [Reply "m1" ("200 [" +:+ commas (map route_info_text (routes example_server)) +:+ "]") ok]).
Proof.
  destruct (routes_listing example_env example_server
              (example_message "<@42>:api routes") [] eq_refl) as [H _].
  exact H.
Defined.

(** ** At most one final reply per response object *)

Section FinalReplies.

Context (env : Env).

Lemma finals_app a b : finals (a ++ b) = (finals a + finals b)%nat.
Proof. unfold finals. rewrite List.filter_app, length_app. reflexivity. Qed.

Lemma finals_cons e evs :
  finals (e :: evs) = ((if is_final_reply e then 1 else 0) + finals evs)%nat.
Proof. unfold finals. simpl. destruct (is_final_reply e); reflexivity. Qed.

Lemma json_failed_spends res : spends (json_failed env res) res (budget res).
Proof.
  intros log. unfold json_failed, bind, emit, reply, ret, budget.
  destruct (sentFinal res) eqn:E; simpl.
  - exists res, [LogError "Failed to send API response:"]. rewrite E. auto.
  - eexists (set_sentFinal res), [LogError "Failed to send API response:"; Reply _ _ _].
    rewrite <- app_assoc. simpl. repeat split. reflexivity.
Qed.

(** The [try] block of [json] once the text is built. *)
Lemma send_spends res t :
  spends (let* ok := reply env (originalMessage res)
                       (string_of_Z (statusCode res) +:+ " " +:+ t) in
          if ok then ret res else json_failed env res)
         res ((if 200 <=? statusCode res then 1 else 0) + budget res).
Proof.
  intros log. unfold bind, reply.
  assert (Hfin : ∀ ok, finals [Reply (originalMessage res)
                                 (string_of_Z (statusCode res) +:+ " " +:+ t) ok]
                       = if 200 <=? statusCode res then 1%nat else 0%nat).
  { intros ok. rewrite finals_cons. unfold is_final_reply.
    rewrite reply_status_text. destruct (200 <=? statusCode res); reflexivity. }
  destruct (reply_ok env log _ _) eqn:Hok.
  - eexists res, [Reply _ _ true]. unfold ret. repeat split.
    rewrite Hfin. lia.
  - destruct (json_failed_spends res
                (log ++ [Reply (originalMessage res)
                           (string_of_Z (statusCode res) +:+ " " +:+ t) false]))
      as (res' & evs & H1 & H2 & H3).
    exists res', (Reply (originalMessage res)
                    (string_of_Z (statusCode res) +:+ " " +:+ t) false :: evs).
    rewrite H1, <- app_assoc. repeat split; [exact H2|].
    change (Reply (originalMessage res) (string_of_Z (statusCode res) +:+ " " +:+ t) false
              :: evs)
      with ([Reply (originalMessage res) (string_of_Z (statusCode res) +:+ " " +:+ t) false]
              ++ evs).
    rewrite finals_app, Hfin. lia.
Qed.

(** Each call of [json] spends the budget of the object: it sends a final
    reply only when none was sent before, and then marks the object. *)
Lemma json_spends d res : spends (json env d res) res (budget res).
Proof.
  intros log. unfold json. destruct (sentFinal res) eqn:Hf.
  - exists res, [Warn final_warning]. unfold bind, emit, ret, budget.
    rewrite Hf. auto.
  - assert (Hb : budget res = 1%nat) by (unfold budget; rewrite Hf; reflexivity).
    rewrite Hb.
    destruct (200 <=? statusCode res) eqn:Hs.
    + assert (Hsend : ∀ t, ∃ res' evs,
                (let* ok := reply env (originalMessage (set_sentFinal res))
                              (string_of_Z (statusCode (set_sentFinal res)) +:+ " " +:+ t) in
                 if ok then ret (set_sentFinal res)
                 else json_failed env (set_sentFinal res)) log = (res', log ++ evs)
                ∧ originalMessage res' = originalMessage res
                ∧ (finals evs + budget res' <= 1)%nat).
      { intros t. destruct (send_spends (set_sentFinal res) t log) as (r & evs & H1 & H2 & H3).
        change (statusCode (set_sentFinal res)) with (statusCode res) in H3.
        rewrite Hs in H3.
        exists r, evs. repeat split; auto. }
      destruct (JSON_stringify d); try apply Hsend.
      destruct (json_failed_spends (set_sentFinal res) log) as (r & evs & H1 & H2 & H3).
      exists r, evs. repeat split; auto;
        unfold budget in H3 at 2; simpl in H3; lia.
    + assert (Hsend : ∀ t, ∃ res' evs,
                (let* ok := reply env (originalMessage res)
                              (string_of_Z (statusCode res) +:+ " " +:+ t) in
                 if ok then ret res else json_failed env res) log = (res', log ++ evs)
                ∧ originalMessage res' = originalMessage res
                ∧ (finals evs + budget res' <= 1)%nat).
      { intros t. destruct (send_spends res t log) as (r & evs & H1 & H2 & H3).
        rewrite Hs, Hb in H3.
        exists r, evs. repeat split; auto. }
      destruct (JSON_stringify d); try apply Hsend.
      destruct (json_failed_spends res log) as (r & evs & H1 & H2 & H3).
      rewrite Hb in H3.
      exists r, evs. repeat split; auto.
Qed.

Lemma run_ops_spends ops : ∀ res, spends (run_ops env ops res) res (budget res).
Proof.
  induction ops as [|op ops IH]; intros res log.
  - exists res, []. simpl. unfold ret. rewrite app_nil_r. auto.
  - cbn [run_ops]. unfold bind. destruct op as [c|d]; cbn [run_op].
    + unfold ret. destruct (IH (status c res) log) as (r & evs & H1 & H2 & H3).
      exists r, evs. auto.
    + destruct (json_spends d res log) as (res1 & ev1 & H1 & H2 & H3).
      rewrite H1.
      destruct (IH res1 (log ++ ev1)) as (res2 & ev2 & G1 & G2 & G3).
      exists res2, (ev1 ++ ev2). rewrite G1, <- app_assoc.
      repeat split; [congruence|]. rewrite finals_app. lia.
Qed.

(** Whatever the handler does, and whether it throws or not, a request
    gets at most one final reply. *)
Lemma one_final_reply message i r route req log :
  ∃ evs, call_handler env message i r route req log = (Done, log ++ evs)
         ∧ (finals evs <= 1)%nat.
Proof.
  unfold call_handler.
  destruct (run_ops_spends (before (handler r req)) (new_BotAPIResponse message)
              (log ++ [Invoke i req])) as (res1 & ev1 & E1 & _ & B1).
  unfold budget in B1 at 2. simpl in B1.
  destruct (throws (handler r req)); [destruct (sentFinal res1) eqn:Hf|].
  - (* the handler throws, the object is marked *)
    destruct (run_ops_spends (after (handler r req)) res1
                (((log ++ [Invoke i req]) ++ ev1) ++
                 [LogError (handler_error (req_method req) route)]))
      as (res3 & ev3 & E3 & _ & B3).
    exists (Invoke i req :: ev1 ++ LogError (handler_error (req_method req) route) :: ev3).
    unfold bind, emit, ret. rewrite E1, Hf. unfold ret. rewrite E3.
    split; [f_equal; rewrite <- !app_assoc; reflexivity|].
    rewrite finals_cons, finals_app, finals_cons.
    cbn [is_final_reply reply_status]. lia.
  - (* the handler throws, the object is not marked *)
    destruct (json_spends (error_body "Internal Server Error") (status 500 res1)
                (((log ++ [Invoke i req]) ++ ev1) ++
                 [LogError (handler_error (req_method req) route)]))
      as (res2 & ev2 & E2 & _ & B2).
    destruct (run_ops_spends (after (handler r req)) res2
                ((((log ++ [Invoke i req]) ++ ev1) ++
                  [LogError (handler_error (req_method req) route)]) ++ ev2))
      as (res3 & ev3 & E3 & _ & B3).
    exists (Invoke i req :: ev1 ++ LogError (handler_error (req_method req) route)
                     :: ev2 ++ ev3).
    unfold bind, emit, ret. rewrite E1, Hf, E2, E3.
    split; [f_equal; rewrite <- !app_assoc; reflexivity|].
    rewrite finals_cons, finals_app, finals_cons, finals_app.
    cbn [is_final_reply reply_status].
    unfold budget in B2 at 2. simpl in B2. rewrite Hf in B2.
    unfold budget in B1. rewrite Hf in B1. lia.
  - (* the handler returns *)
    destruct (run_ops_spends (after (handler r req)) res1
                ((log ++ [Invoke i req]) ++ ev1))
      as (res3 & ev3 & E3 & _ & B3).
    exists (Invoke i req :: ev1 ++ ev3).
    unfold bind, emit, ret. rewrite E1. unfold ret. rewrite E3.
    split; [f_equal; rewrite <- !app_assoc; reflexivity|].
    rewrite finals_cons, finals_app.
    cbn [is_final_reply reply_status]. lia.
Qed.

(** A handler that throws on a response object not marked final: the
    server answers 500 once; on a marked object it only logs. *)
Lemma handler_throws message i r route req log :
  throws (handler r req) = true →
  call_handler env message i r route req log =
    let '(res1, log1) := run_ops env (before (handler r req)) (new_BotAPIResponse message)
                           (log ++ [Invoke i req]) in
    let log2 := log1 ++ [LogError (handler_error (req_method req) route)] in
    if sentFinal res1 then
      (Done, (run_ops env (after (handler r req)) res1 log2).2)
    else
      let text := "500 " +:+ error_text "Internal Server Error" in
      let ok := reply_ok env log2 (msg_id message) text in
      (Done, (run_ops env (after (handler r req)) (set_sentFinal (status 500 res1))
                (log2 ++ Reply (msg_id message) text ok :: after_reply ok)).2).
Proof.
  intros Ht. unfold call_handler, bind, emit. rewrite Ht.
  destruct (run_ops_spends (before (handler r req)) (new_BotAPIResponse message)
              (log ++ [Invoke i req])) as (res1 & ev1 & -> & O1 & _).
  simpl in O1.
  destruct (sentFinal res1) eqn:Hf.
  - unfold ret. destruct (run_ops env (after (handler r req)) res1 _). reflexivity.
  - rewrite json_final_reply; [|exact Hf|simpl; lia|].
    + change (originalMessage (status 500 res1)) with (originalMessage res1).
      rewrite O1.
      change (response_text (status 500 res1) (error_body "Internal Server Error"))
        with ("500 " +:+ error_text "Internal Server Error").
      destruct (run_ops env (after (handler r req)) _ _). reflexivity.
    + unfold serializable. rewrite stringify_error_body. discriminate.
Qed.

End FinalReplies.

(** A handler that sends an update, throws, and later calls [json] again:
    the server answers 500 once, and the late call only logs the warning. *)
Example throw_after_update :
  ∃ req,
    handleMessage example_env example_server (example_message "<@42>:api GET /crash") []
    = (Done, [Invoke 4 req;
              Reply "m1" ("100 " +:+ quote "working") true;
              LogError "[BotAPIServer] Error in handler for GET /crash:";
              Reply "m1" ("500 " +:+ error_text "Internal Server Error") true;
              Warn final_warning]).
Proof. eexists. vm_compute. reflexivity. Qed.

(** C6 at a handler that calls [json] with a value that cannot be
    serialized (status 200) and then throws: [json] marks the response
    final before it fails, neither [json] nor the server sends anything,
    and the request gets no reply at all. *)
Theorem failed_final_then_throw_no_reply :
  ∃ req,
    handleMessage example_env example_server (example_message "<@42>:api GET /fail") []
    = (Done, [Invoke 3 req;
              LogError "Failed to send API response:";
              LogError "[BotAPIServer] Error in handler for GET /fail:"])
    ∧ throws (failing_handler req) = true.
Proof. eexists. vm_compute. split; reflexivity. Qed.

(** ** Route matching *)

Lemma rev_app_app a : ∀ b c, String.rev_app a b +:+ c = String.rev_app a (b +:+ c).
Proof. induction a as [|x a IH]; intros b c; [reflexivity|]. simpl. rewrite IH. reflexivity. Qed.

Lemma rev_cons_app c acc v :
  String.rev (String c acc) +:+ v = String.rev acc +:+ String c v.
Proof. unfold String.rev. simpl. rewrite !rev_app_app. reflexivity. Qed.

Lemma match_group_step k acc s :
  match_group k acc s =
    let stop := match acc with
                | EmptyString => None
                | _ => cons (String.rev acc) <$> k s
                end in
    match s with
    | EmptyString => stop
    | String c r =>
        if is_slash c then stop
        else match match_group k (String c acc) r with
             | Some gs => Some gs
             | None => stop
             end
    end.
Proof. destruct s; reflexivity. Qed.

(** The group takes exactly a value that is followed by a slash or by the
    end of the path. *)
Lemma match_group_exact k rest gs :
  (rest = EmptyString ∨ ∃ c r, rest = String c r ∧ is_slash c = true) →
  k rest = Some gs →
  ∀ v acc, all_chars not_slash v = true → (v ≠ EmptyString ∨ acc ≠ EmptyString) →
    match_group k acc (v +:+ rest) = Some ((String.rev acc +:+ v) :: gs).
Proof.
  intros Hrest Hk. induction v as [|c v IH]; intros acc Hv Hne.
  - rewrite app_empty_l, app_empty_r, match_group_step.
    assert (Hacc : acc ≠ EmptyString) by (destruct Hne; congruence).
    assert (Hstop : match acc with
                    | EmptyString => None
                    | _ => cons (String.rev acc) <$> k rest
                    end = Some (String.rev acc :: gs)).
    { destruct acc; [congruence|]. rewrite Hk. reflexivity. }
    cbv zeta. rewrite Hstop.
    destruct Hrest as [->|(c & r & -> & Hc)]; [reflexivity|]. rewrite Hc. reflexivity.
  - cbn [all_chars] in Hv. apply andb_true_iff in Hv as [Hc Hv].
    rewrite app_cons, match_group_step. cbv zeta.
    unfold not_slash in Hc. apply negb_true_iff in Hc. rewrite Hc.
    rewrite (IH (String c acc) Hv) by (right; discriminate).
    rewrite rev_cons_app. reflexivity.
Qed.

Lemma regex_match_instantiate ps : ∀ vals tail,
  params_whole ps = true →
  length vals = length (piece_keys ps) →
  Forall (fun v => segment_value v = true) vals →
  tail = EmptyString ∨ tail = "/" →
  regex_match (map piece_item ps) (instantiate ps vals +:+ tail) = Some vals.
Proof.
  induction ps as [|p ps IH]; intros vals tail Hw Hlen Hvals Htail.
  - destruct vals; [|discriminate]. 
    destruct Htail as [-> | ->]; reflexivity.
  - destruct p as [c|key].
    + cbn [params_whole] in Hw. cbn [instantiate map piece_item regex_match].
      rewrite app_cons, Ascii.eqb_refl. apply IH; auto.
    + cbn [params_whole] in Hw. apply andb_true_iff in Hw as [Hnext Hw].
      destruct vals as [|v vs]; [discriminate|].
      inversion Hvals as [|? ? Hv Hvs]; subst.
      cbn [instantiate map piece_item regex_match].
      rewrite app_assoc_s.
      unfold segment_value in Hv. apply andb_true_iff in Hv as [Hv1 Hv2].
      apply negb_true_iff, String.eqb_neq in Hv1.
      rewrite (match_group_exact _ (instantiate ps vs +:+ tail) vs).
      * reflexivity.
      * destruct ps as [|[c|k'] ps'].
        -- cbn [instantiate]. rewrite app_empty_l.
           destruct Htail as [-> | ->]; [left; reflexivity|right].
           exists "/"%char, EmptyString. split; reflexivity.
        -- right. cbn [instantiate]. rewrite app_cons. eauto.
        -- discriminate.
      * apply IH; auto. 
      * exact Hv2.
      * left. exact Hv1.
Qed.

Lemma method_eqb_eq a b : method_eqb a b = true ↔ a = b.
Proof. split; [destruct a, b; (reflexivity || discriminate)|intros ->; destruct b; reflexivity]. Qed.

Lemma findRoute_skip m pathname (pre : list Route) : ∀ i rest,
  (∀ r', r' ∈ pre → method r' = m → regex_exec (pathRegex r') pathname = None) →
  findRoute m pathname i (pre ++ rest) = findRoute m pathname (i + length pre) rest.
Proof.
  induction pre as [|r0 pre IH]; intros i rest Hpre.
  - simpl. rewrite Nat.add_0_r. reflexivity.
  - cbn [app findRoute length].
    replace (i + S (length pre))%nat with (S i + length pre)%nat by lia.
    destruct (method_eqb (method r0) m) eqn:Em; cbn [negb].
    + apply method_eqb_eq in Em.
      rewrite (Hpre r0 ltac:(left) Em).
      apply IH. intros r' Hin. apply Hpre. right. exact Hin.
    + apply IH. intros r' Hin. apply Hpre. right. exact Hin.
Qed.

Lemma findRoute_here m pathname i r rest groups :
  method r = m → regex_exec (pathRegex r) pathname = Some groups →
  findRoute m pathname i (r :: rest) = Some (i, r, groups).
Proof.
  intros Hm Hg. cbn [findRoute].
  apply method_eqb_eq in Hm. rewrite Hm, Hg. reflexivity.
Qed.

(** The scan answers with the first route that accepts the request. *)
Lemma findRoute_first m pathname rs : ∀ i k rk,
  rs !! k = Some rk → accepts rk m pathname →
  ∃ j rj groups,
    findRoute m pathname i rs = Some ((i + j)%nat, rj, groups)
    ∧ (j <= k)%nat ∧ rs !! j = Some rj ∧ accepts rj m pathname
    ∧ regex_exec (pathRegex rj) pathname = Some groups
    ∧ ∀ l rl, (l < j)%nat → rs !! l = Some rl → ¬ accepts rl m pathname.
Proof.
  induction rs as [|r0 rs IH]; intros i k rk Hk Hacc; [discriminate|].
  cbn [findRoute].
  assert (Hlater : ¬ accepts r0 m pathname →
            ∃ j rj groups,
              findRoute m pathname (S i) rs = Some ((i + j)%nat, rj, groups)
              ∧ (j <= k)%nat ∧ (r0 :: rs) !! j = Some rj ∧ accepts rj m pathname
              ∧ regex_exec (pathRegex rj) pathname = Some groups
              ∧ ∀ l rl, (l < j)%nat → (r0 :: rs) !! l = Some rl → ¬ accepts rl m pathname).
  { intros Hno. destruct k as [|k].
    { injection Hk as <-. contradiction. }
    destruct (IH (S i) k rk Hk Hacc) as (j & rj & g & H1 & H2 & H3 & H4 & H5 & H6).
    exists (S j), rj, g. replace (i + S j)%nat with (S i + j)%nat by lia.
    split; [exact H1|]. split; [lia|]. split; [exact H3|].
    split; [exact H4|]. split; [exact H5|].
    intros l rl Hl Hrl. destruct l as [|l].
    - injection Hrl as <-. exact Hno.
    - apply (H6 l); [lia|exact Hrl]. }
  destruct (method_eqb (method r0) m) eqn:Em; cbn [negb].
  - apply method_eqb_eq in Em.
    destruct (regex_exec (pathRegex r0) pathname) as [g|] eqn:Eg.
    + exists 0%nat, r0, g. rewrite Nat.add_0_r.
      split; [reflexivity|]. split; [lia|]. split; [reflexivity|].
      split; [split; [exact Em|rewrite Eg; eauto]|]. split; [exact Eg|].
      intros l rl Hl. lia.
    + apply Hlater. intros [_ [g' Hg']]. congruence.
  - apply Hlater. intros [Hm _]. apply method_eqb_eq in Hm. congruence.
Qed.

Lemma registered_compiled srv :
  registered srv →
  Forall (fun r => ∃ env, compile_template env (path r) = Some (pathRegex r, paramKeys r))
         (routes srv).
Proof.
  induction 1 as [id d|env srv srv' m p h d _ IH Hreg]; [constructor|].
  unfold register in Hreg.
  destruct (compile_template env p) as [[re keys]|] eqn:E; [|discriminate].
  injection Hreg as <-. cbn [routes].
  apply Forall_app. split; [exact IH|]. repeat constructor. exists env. exact E.
Qed.

Lemma fromEntries_snoc {A} (l : list (string * A)) k v :
  fromEntries (l ++ [(k, v)]) = <[k := v]> (fromEntries l).
Proof. unfold fromEntries. rewrite foldl_app. reflexivity. Qed.

(** [Object.fromEntries] binds a key to the value of its last entry. *)
Lemma fromEntries_last {A} (l : list (string * A)) : ∀ j k v,
  l !! j = Some (k, v) →
  (∀ j' v', (j < j')%nat → l !! j' ≠ Some (k, v')) →
  fromEntries l !! k = Some v.
Proof.
  induction l as [|[k0 v0] l IH] using rev_ind; intros j k v Hj Hlast; [discriminate|].
  rewrite fromEntries_snoc.
  destruct (decide (j = length l)) as [->|Hne].
  - rewrite lookup_app_r, Nat.sub_diag in Hj by lia. injection Hj as -> ->.
    apply lookup_insert_eq.
  - assert (Hlt : (j < length l)%nat).
    { apply lookup_lt_Some in Hj. rewrite length_app in Hj. simpl in Hj. lia. }
    rewrite lookup_app_l in Hj by exact Hlt.
    assert (Hk : k ≠ k0).
    { intros ->. apply (Hlast (length l) v0 Hlt).
      rewrite lookup_app_r, Nat.sub_diag by lia. reflexivity. }
    rewrite lookup_insert_ne by auto.
    apply (IH j); [exact Hj|].
    intros j' v' Hj' Hl. apply (Hlast j' v' Hj').
    rewrite lookup_app_l; [exact Hl|]. by apply lookup_lt_Some in Hl.
Qed.

(** What [register] stored for a route: the names read from the template,
    and, for a template without special characters, the expression made
    of its pieces. *)
Lemma compiled_pieces r :
  (∃ env, compile_template env (path r) = Some (pathRegex r, paramKeys r)) →
  paramKeys r = piece_keys (scan_template None (path r))
  ∧ (plain_template (path r) = true →
     pathRegex r = Items (map piece_item (scan_template None (path r))))
  ∧ (plain_template (path r) = false →
     ∃ env exec, RegExp env (regex_source (scan_template None (path r))) = Some exec
                 ∧ pathRegex r = Native exec).
Proof.
  intros [env H]. unfold compile_template in H. unfold plain_template.
  destruct (forallb piece_plain (scan_template None (path r))).
  - injection H as <- <-. split; [reflexivity|]. split; [reflexivity|discriminate].
  - destruct (RegExp env _) as [exec|] eqn:E; [|discriminate]. injection H as <- <-.
    split; [reflexivity|]. split; [discriminate|]. intros _. exists env, exec. auto.
Qed.

Lemma registered_route_pieces srv r :
  registered srv → r ∈ routes srv →
  paramKeys r = piece_keys (scan_template None (path r))
  ∧ (plain_template (path r) = true →
     pathRegex r = Items (map piece_item (scan_template None (path r))))
  ∧ (plain_template (path r) = false →
     ∃ env exec, RegExp env (regex_source (scan_template None (path r))) = Some exec
                 ∧ pathRegex r = Native exec).
Proof.
  intros Hreg Hr. apply compiled_pieces.
  pose proof (registered_compiled srv Hreg) as Hc.
  rewrite List.Forall_forall in Hc. apply Hc. by apply list_elem_of_In.
Qed.

Lemma register_all_registered steps : ∀ srv srv',
  Forall (fun step => ∃ env m p h d, step = register env m p h d) steps →
  registered srv → register_all steps srv = Some srv' → registered srv'.
Proof.
  induction steps as [|step steps IH]; intros srv srv' Hsteps Hreg Hall.
  - injection Hall as <-. exact Hreg.
  - apply Forall_cons in Hsteps as [(env & m & p & h & d & ->) Hsteps].
    cbn [register_all] in Hall.
    destruct (register env m p h d srv) as [srv1|] eqn:E; [|discriminate].
    apply (IH srv1 srv' Hsteps); [|exact Hall].
    eapply registered_route; eauto.
Qed.

Lemma example_server_registered : registered example_server.
Proof.
  unfold example_server.
  destruct (register_all example_routes empty_server) as [srv|] eqn:E;
    [|apply registered_new].
  apply (register_all_registered example_routes empty_server srv);
    [|apply registered_new|exact E].
  repeat constructor; unfold get, post; eauto 6.
Qed.

Lemma range_server_registered : registered range_server.
Proof.
  unfold range_server.
  destruct (get example_env "/:a-:b" balance_handler None empty_server) as [srv|] eqn:E;
    [|apply registered_new].
  eapply registered_route; [apply registered_new|exact E].
Qed.

Lemma users_server_registered : registered users_server.
Proof.
  unfold users_server.
  destruct (get example_env "/users/:id?" balance_handler None empty_server)
    as [srv|] eqn:E; [|apply registered_new].
  eapply registered_route; [apply registered_new|exact E].
Qed.

Lemma route_params_lookup r groups j k :
  paramKeys r !! j = Some k →
  (∀ j', (j < j')%nat → paramKeys r !! j' ≠ Some k) →
  route_params r groups !! k = Some (default None (groups !! j)).
Proof.
  intros Hk Hlast. unfold route_params. apply (fromEntries_last _ j).
  - rewrite list_lookup_imap, Hk. reflexivity.
  - intros j' v' Hj' Hl. rewrite list_lookup_imap in Hl.
    destruct (paramKeys r !! j') as [k'|] eqn:E; [|discriminate].
    injection Hl as -> _. by apply (Hlast j' Hj').
Qed.

(** C2, as the code has it.  On a server built by registration, take a
    route whose template has no character that is special in a regular
    expression and whose named parameters each run to the end of their
    segment, and a path obtained from the template by putting non-empty
    slash-free values in the place of the parameters, with or without a
    trailing slash.  If no route registered earlier accepts the path, the
    scan returns this route, at its position, with the values as
    captures, so that the parameter map binds each name to the value of
    its last occurrence in the template; and in general the scan returns
    the first route, in registration order, that accepts the request. *)
Theorem first_matching_route (srv : BotAPIServer) (pre post : list Route) (r : Route)
    (vals : list string) (tail : string) :
  registered srv →
  routes srv = pre ++ r :: post →
  plain_template (path r) = true →
  params_whole (scan_template None (path r)) = true →
  length vals = length (paramKeys r) →
  Forall (fun v => segment_value v = true) vals →
  tail = EmptyString ∨ tail = "/" →
  (∀ r', r' ∈ pre →
         ¬ accepts r' (method r) (instantiate (scan_template None (path r)) vals +:+ tail)) →
  findRoute (method r) (instantiate (scan_template None (path r)) vals +:+ tail) 0
            (routes srv) = Some (length pre, r, map Some vals)
  ∧ (∀ j k v, paramKeys r !! j = Some k → vals !! j = Some v →
              (∀ j', (j < j')%nat → paramKeys r !! j' ≠ Some k) →
              route_params r (map Some vals) !! k = Some (Some v))
  ∧ (∀ m pathname k rk,
       routes srv !! k = Some rk → accepts rk m pathname →
       ∃ j rj groups,
         findRoute m pathname 0 (routes srv) = Some (j, rj, groups)
         ∧ (j <= k)%nat ∧ routes srv !! j = Some rj ∧ accepts rj m pathname
         ∧ ∀ l rl, (l < j)%nat → routes srv !! l = Some rl → ¬ accepts rl m pathname).
Proof.
  intros Hreg Hroutes Hplain Hwhole Hlen Hvals Htail Hpre.
  assert (Hin : r ∈ routes srv).
  { rewrite Hroutes. apply elem_of_app. right. left. }
  destruct (registered_route_pieces srv r Hreg Hin) as (Hkeys & Hre & _).
  specialize (Hre Hplain).
  split; [|split].
  - rewrite Hroutes, findRoute_skip.
    + apply findRoute_here; [reflexivity|].
      rewrite Hre. cbn [regex_exec].
      rewrite regex_match_instantiate; auto. congruence.
    + intros r' Hr' Hm.
      destruct (regex_exec (pathRegex r')
                  (instantiate (scan_template None (path r)) vals +:+ tail)) eqn:E;
        [|reflexivity].
      exfalso. apply (Hpre r' Hr'). split; [exact Hm|]. rewrite E. eauto.
  - intros j k v Hk Hv Hlast.
    rewrite (route_params_lookup r (map Some vals) j k Hk Hlast).
    rewrite list_lookup_fmap, Hv. reflexivity.
  - intros m pathname k rk Hk Hacc.
    destruct (findRoute_first m pathname (routes srv) 0 k rk Hk Hacc)
      as (j & rj & g & H1 & H2 & H3 & H4 & _ & H6).
    exists j, rj, g. auto.
Qed.

Lemma first_matching_route_witness :
  ∃ r, routes example_server !! 0%nat = Some r
       ∧ findRoute GET "/balance/742396813826457750/" 0 (routes example_server)
         = Some (0%nat, r, [Some "742396813826457750"])
       ∧ route_params r [Some "742396813826457750"] !! "userId"
         = Some (Some "742396813826457750").
Proof.
  destruct (routes example_server) as [|r post] eqn:E; [discriminate|].
  assert (Hpath : path r = "/balance/:userId") by (injection E as <- _; reflexivity).
  assert (Hkeys : paramKeys r = ["userId"]) by (injection E as <- _; reflexivity).
  assert (Hm : method r = GET) by (injection E as <- _; reflexivity).
  destruct (first_matching_route example_server [] post r ["742396813826457750"] "/"
              example_server_registered E) as (H1 & H2 & _).
  - rewrite Hpath. reflexivity.
  - rewrite Hpath. reflexivity.
  - rewrite Hkeys. reflexivity.
  - repeat constructor.
  - right. reflexivity.
  - intros r' Hin. by apply elem_of_nil in Hin.
  - exists r. split; [reflexivity|]. split.
    + rewrite Hm, Hpath, E in H1. exact H1.
    + apply (H2 0%nat).
      * rewrite Hkeys. reflexivity.
      * reflexivity.
      * rewrite Hkeys. intros [|j'] Hj'; [lia|discriminate].
Defined.

(** A name repeated in a template is bound to the value of its last
    occurrence. *)
Example repeated_name_last_value :
  ∃ srv r,
    get example_env "/:a/:a" balance_handler None empty_server = Some srv
    ∧ findRoute GET "/1/2" 0 (routes srv) = Some (0%nat, r, [Some "1"; Some "2"])
    ∧ route_params r [Some "1"; Some "2"] !! "a" = Some (Some "2").
Proof. eexists. eexists. split; [reflexivity|]. split; reflexivity. Qed.

(** A template with a character that is special in a regular expression
    is registered all the same.  With the optional parameter of
    [/users/:id?], the path [/users/] is accepted and leaves the parameter
    undefined. *)
Example optional_parameter_undefined :
  ∃ r, routes users_server = [r]
       ∧ plain_template (path r) = false
       ∧ findRoute GET "/users/" 0 (routes users_server) = Some (0%nat, r, [None])
       ∧ route_params r [None] !! "id" = Some None
       ∧ findRoute GET "/users/7" 0 (routes users_server) = Some (0%nat, r, [Some "7"]).
Proof. eexists. repeat split. Qed.

(** Such a character is not matched as itself: the path obtained from
    [/users/:id?] by putting [7] in the place of the parameter is
    [/users/7?], and the group captures [7?]. *)
Example special_character_not_literal :
  ∃ r, routes users_server = [r]
       ∧ instantiate (scan_template None (path r)) ["7"] = "/users/7?"
       ∧ findRoute GET "/users/7?" 0 (routes users_server) = Some (0%nat, r, [Some "7?"]).
Proof. eexists. repeat split. Qed.

(** C2 as stated fails for a template with two parameters in one segment:
    the path [/x-y-z] is the template [/:a-:b] with [x] and [y-z] in the
    place of the parameters, and the scan captures [x-y] and [z]. *)
Lemma two_parameters_in_a_segment :
  ¬ (∀ (srv : BotAPIServer) (pre post : list Route) (r : Route) (vals : list string),
       registered srv →
       routes srv = pre ++ r :: post →
       length vals = length (paramKeys r) →
       Forall (fun v => segment_value v = true) vals →
       (∀ r', r' ∈ pre →
              ¬ accepts r' (method r) (instantiate (scan_template None (path r)) vals)) →
       findRoute (method r) (instantiate (scan_template None (path r)) vals) 0
                 (routes srv) = Some (length pre, r, map Some vals)).
Proof.
  intros H.
  destruct (routes range_server) as [|r post] eqn:E; [discriminate|].
  assert (Hr : r = {| method := GET; path := "/:a-:b";
                      pathRegex := Items [RChar "/"; RGroup; RChar "-"; RGroup];
                      paramKeys := ["a"; "b"]; handler := balance_handler;
                      docs := None |}) by (injection E as <- _; reflexivity).
  specialize (H range_server [] post r ["x"; "y-z"] range_server_registered E).
  rewrite E, Hr in H. 
  assert (Hgo : findRoute GET "/x-y-z" 0
                  ({| method := GET; path := "/:a-:b";
                      pathRegex := Items [RChar "/"; RGroup; RChar "-"; RGroup];
                      paramKeys := ["a"; "b"]; handler := balance_handler;
                      docs := None |} :: post)
                = Some (0%nat,
                        {| method := GET; path := "/:a-:b";
                           pathRegex := Items [RChar "/"; RGroup; RChar "-"; RGroup];
                           paramKeys := ["a"; "b"]; handler := balance_handler;
                           docs := None |}, [Some "x-y"; Some "z"])) by reflexivity.
  assert (Hclaim : findRoute GET "/x-y-z" 0
                  ({| method := GET; path := "/:a-:b";
                      pathRegex := Items [RChar "/"; RGroup; RChar "-"; RGroup];
                      paramKeys := ["a"; "b"]; handler := balance_handler;
                      docs := None |} :: post)
                = Some (0%nat,
                        {| method := GET; path := "/:a-:b";
                           pathRegex := Items [RChar "/"; RGroup; RChar "-"; RGroup];
                           paramKeys := ["a"; "b"]; handler := balance_handler;
                           docs := None |}, [Some "x"; Some "y-z"])).
  { apply H.
    - reflexivity.
    - repeat constructor.
    - intros r' Hin. by apply elem_of_nil in Hin. }
  rewrite Hgo in Hclaim. discriminate.
Qed.

(** ** The client *)

Lemma handleReply_correlated c message ref pending status bodyStr :
  correlated c message ref pending status bodyStr →
  handleReply c message =
    match JSON_parse bodyStr with
    | Some body =>
        if (100 <=? status) && (status <? 200) then
          (clearTimeout (timeoutId pending) c,
           if onUpdate pending
           then [Updated (promise pending) {| cr_status := status; cr_body := body |}]
           else [])
        else
          (pending_delete ref (clearTimeout (timeoutId pending) c),
           [Resolved (promise pending) {| cr_status := status; cr_body := body |}])
    | None =>
        if 200 <=? status then
          (pending_delete ref (clearTimeout (timeoutId pending) c),
           [Rejected (promise pending) malformed_response])
        else (c, [])
    end.
Proof.
  intros [(Ha & Hr & Hne & statusStr & Hcut & Hint) Hp].
  unfold handleReply. rewrite Ha, String.eqb_refl, Hr. cbn [negb].
  destruct ref as [|x ref]; [congruence|].
  rewrite Hp, Hcut, Hint. reflexivity.
Qed.

(** C10.  A correlated reply whose body is JSON and whose status is below
    100 is a final response: the timer is cleared, the promise resolves
    with the status and the body, and the entry is removed. *)
Theorem status_below_100_is_final (c : BotAPIClient) (message : Message) (ref : string)
    (pending : PendingRequest) (status : Z) (bodyStr : string) (body : jsval) :
  correlated c message ref pending status bodyStr →
  JSON_parse bodyStr = Some body →
  status < 100 →
  handleReply c message =
    (pending_delete ref (clearTimeout (timeoutId pending) c),
     [Resolved (promise pending) {| cr_status := status; cr_body := body |}])
  ∧ timers (handleReply c message).1 !! timeoutId pending = None
  ∧ pendingRequests (handleReply c message).1 !! ref = None.
Proof.
  intros Hc Hb Hs.
  rewrite (handleReply_correlated c message ref pending status bodyStr Hc), Hb.
  assert (E : (100 <=? status) = false) by (apply Z.leb_gt; lia).
  rewrite E. cbn [andb fst].
  split; [reflexivity|]. split.
  - apply lookup_delete_eq.
  - apply lookup_delete_eq.
Qed.

Lemma example_client_r1 :
  pendingRequests example_client !! "r1"
  = Some {| promise := 0; onUpdate := true; timeoutId := 0 |}.
Proof. reflexivity. Qed.

Lemma status_below_100_is_final_witness :
  handleReply example_client (reply_message "a1" "r1" "-5 [50]") =
    (pending_delete "r1" (clearTimeout 0 example_client),
     [Resolved 0 {| cr_status := -5; cr_body := JArr [JNum 5 1] |}]).
Proof.
  apply (status_below_100_is_final example_client (reply_message "a1" "r1" "-5 [50]") "r1"
           {| promise := 0; onUpdate := true; timeoutId := 0 |} (-5) "[50]"
           (JArr [JNum 5 1])).
  - split; [|exact example_client_r1].
    repeat split; try discriminate. exists "-5". split; reflexivity.
  - reflexivity.
  - lia.
Defined.

(** C8.  A correlated reply whose body is not JSON: with a status of 200
    or more the timer is cleared, the promise is rejected as a malformed
    response and the entry is removed; with a status below 200 the reply
    is dropped, no callback runs and the client is unchanged. *)
Theorem malformed_body_asymmetry (c : BotAPIClient) (message : Message) (ref : string)
    (pending : PendingRequest) (status : Z) (bodyStr : string) :
  correlated c message ref pending status bodyStr →
  JSON_parse bodyStr = None →
  (200 <= status →
     handleReply c message =
       (pending_delete ref (clearTimeout (timeoutId pending) c),
        [Rejected (promise pending) malformed_response])
     ∧ timers (handleReply c message).1 !! timeoutId pending = None
     ∧ pendingRequests (handleReply c message).1 !! ref = None)
  ∧ (status < 200 → handleReply c message = (c, [])).
Proof.
  intros Hc Hb.
  rewrite (handleReply_correlated c message ref pending status bodyStr Hc), Hb.
  split; intros Hs.
  - assert (E : (200 <=? status) = true) by (apply Z.leb_le; lia).
    rewrite E. cbn [fst].
    split; [reflexivity|]. split; apply lookup_delete_eq.
  - assert (E : (200 <=? status) = false) by (apply Z.leb_gt; lia).
    rewrite E. reflexivity.
Qed.

Lemma malformed_body_asymmetry_witness :
  handleReply example_client (reply_message "a1" "r1" "500 oops") =
    (pending_delete "r1" (clearTimeout 0 example_client),
     [Rejected 0 malformed_response])
  ∧ handleReply example_client (reply_message "a1" "r1" "102 oops") = (example_client, []).
Proof.
  split.
  - apply (malformed_body_asymmetry example_client (reply_message "a1" "r1" "500 oops") "r1"
             {| promise := 0; onUpdate := true; timeoutId := 0 |} 500 "oops").
    + split; [|exact example_client_r1].
      repeat split; try discriminate. exists "500". split; reflexivity.
    + reflexivity.
    + lia.
  - apply (malformed_body_asymmetry example_client (reply_message "a1" "r1" "102 oops") "r1"
             {| promise := 0; onUpdate := true; timeoutId := 0 |} 102 "oops").
    + split; [|exact example_client_r1].
      repeat split; try discriminate. exists "102". split; reflexivity.
    + reflexivity.
    + lia.
Defined.

(** *** The state machine of a pending call *)

Lemma keep_alive_awaiting c ref pending :
  client_wf c → pendingRequests c !! ref = Some pending →
  awaiting_final (clearTimeout (timeoutId pending) c) ref pending.
Proof.
  intros (I1 & I2 & I3) Hp. unfold awaiting_final, clearTimeout. cbn.
  split; [exact Hp|]. split; [exact (I2 ref pending Hp)|]. split.
  - intros t info Ht.
    apply lookup_delete_Some in Ht as [Hne Ht].
    destruct (I1 t info Ht) as (p & Hlook & Hid & Hprom).
    split.
    + intros Heq. rewrite Heq, Hp in Hlook. injection Hlook as <-. congruence.
    + intros Heq. rewrite <- Hprom in Heq.
      pose proof (I3 _ _ _ _ Hlook Hp Heq) as Hk.
      rewrite Hk, Hp in Hlook. injection Hlook as <-. congruence.
  - intros k p Hk Heq. exact (I3 _ _ _ _ Hk Hp Heq).
Qed.

Lemma awaiting_clearTimeout c ref pending t :
  awaiting_final c ref pending → awaiting_final (clearTimeout t c) ref pending.
Proof.
  intros (A1 & A2 & A3 & A4). unfold awaiting_final, clearTimeout. cbn.
  repeat split; auto; apply lookup_delete_Some in H as [_ H]; apply (A3 _ _ H).
Qed.

Lemma awaiting_pending_delete c ref pending k :
  k ≠ ref → awaiting_final c ref pending → awaiting_final (pending_delete k c) ref pending.
Proof.
  intros Hk (A1 & A2 & A3 & A4). unfold awaiting_final, pending_delete. cbn.
  split; [rewrite lookup_delete_ne by exact Hk; exact A1|].
  split; [exact A2|]. split; [exact A3|].
  intros k' p Hk' Heq. apply lookup_delete_Some in Hk' as [_ Hk']. eauto.
Qed.

Lemma handleReply_quiet c ref pending message :
  awaiting_final c ref pending → reference message ≠ Some ref →
  awaiting_final (handleReply c message).1 ref pending
  ∧ Forall (fun e => settles (promise pending) e = false) (handleReply c message).2.
Proof.
  intros Haw Hq. pose proof Haw as (A1 & A2 & A3 & A4).
  unfold handleReply.
  destruct (negb (String.eqb (author_id message) (targetBotId c))); [split; [exact Haw|constructor]|].
  destruct (reference message) as [[|x k]|] eqn:Hr; try (split; [exact Haw|constructor]).
  destruct (pendingRequests c !! String x k) as [p|] eqn:Hp; [|split; [exact Haw|constructor]].
  assert (Hk : String x k ≠ ref) by congruence.
  assert (Hprom : Nat.eqb (promise pending) (promise p) = false).
  { apply Nat.eqb_neq. intros Heq. apply Hk. apply (A4 _ p Hp). congruence. }
  destruct (cut_at_space (content message)) as [[statusStr bodyStr]|];
    [|split; [exact Haw|constructor]].
  destruct (parseInt statusStr) as [status|]; [|split; [exact Haw|constructor]].
  destruct (JSON_parse bodyStr) as [body|].
  - destruct ((100 <=? status) && (status <? 200)); cbn [fst snd].
    + split; [apply awaiting_clearTimeout, Haw|].
      destruct (onUpdate p); repeat constructor.
    + split; [apply awaiting_pending_delete, awaiting_clearTimeout, Haw; exact Hk|].
      repeat constructor. exact Hprom.
  - destruct (200 <=? status); cbn [fst snd].
    + split; [apply awaiting_pending_delete, awaiting_clearTimeout, Haw; exact Hk|].
      repeat constructor. exact Hprom.
    + split; [exact Haw|constructor].
Qed.

Lemma fire_quiet c ref pending t :
  awaiting_final c ref pending →
  awaiting_final (fire t c).1 ref pending
  ∧ Forall (fun e => settles (promise pending) e = false) (fire t c).2.
Proof.
  intros Haw. pose proof Haw as (A1 & A2 & A3 & A4).
  unfold fire. destruct (timers c !! t) as [info|] eqn:Ht; [|split; [exact Haw|constructor]].
  destruct (A3 t info Ht) as [Hm Hprom]. cbn [fst snd]. split.
  - change (with_tables c (base.delete (timer_message info) (pendingRequests c))
              (base.delete t (timers c)))
      with (pending_delete (timer_message info) (clearTimeout t c)).
    apply awaiting_pending_delete, awaiting_clearTimeout, Haw. exact Hm.
  - repeat constructor. cbn [settles]. apply Nat.eqb_neq. congruence.
Qed.

Lemma makeRequest_quiet c ref pending m route options sent_id :
  awaiting_final c ref pending → sent_id ≠ ref →
  awaiting_final (makeRequest m route options sent_id c).1 ref pending
  ∧ Forall (fun e => settles (promise pending) e = false)
           (makeRequest m route options sent_id c).2.
Proof.
  intros (A1 & A2 & A3 & A4) Hid. unfold makeRequest.
  destruct (requestString (targetBotId c) m route (opt_body options)); cbn [fst snd].
  - split; [|repeat constructor].
    unfold awaiting_final. cbn.
    split; [rewrite lookup_insert_ne by exact Hid; exact A1|].
    split; [lia|]. split.
    + intros t info Ht. apply lookup_insert_Some in Ht as [[<- <-]|[_ Ht]]; cbn.
      * split; [exact Hid|lia].
      * apply (A3 _ _ Ht).
    + intros k p Hk Heq. apply lookup_insert_Some in Hk as [[<- <-]|[_ Hk]].
      * cbn in Heq. lia.
      * eauto.
  - split.
    + unfold awaiting_final. cbn. repeat split; auto; try lia; apply (A3 _ _ H).
    + repeat constructor. cbn [settles]. apply Nat.eqb_neq. lia.
Qed.

Lemma client_step_quiet c ref pending i :
  awaiting_final c ref pending → quiet ref i →
  awaiting_final (client_step c i).1 ref pending
  ∧ Forall (fun e => settles (promise pending) e = false) (client_step c i).2.
Proof.
  intros Haw Hq. destruct i as [message|t|m route options sent_id]; cbn [client_step].
  - apply handleReply_quiet; assumption.
  - apply fire_quiet; assumption.
  - apply makeRequest_quiet; assumption.
Qed.

Lemma targetBotId_step c i : targetBotId (client_step c i).1 = targetBotId c.
Proof.
  destruct i as [message|t|m route options sent_id]; cbn [client_step].
  - unfold handleReply.
    repeat match goal with
           | |- context [match ?x with _ => _ end] => destruct x
           end; reflexivity.
  - unfold fire. destruct (timers c !! t); reflexivity.
  - unfold makeRequest. destruct (requestString _ _ _ _); reflexivity.
Qed.

Lemma client_run_quiet inputs : ∀ c ref pending,
  awaiting_final c ref pending → Forall (quiet ref) inputs →
  awaiting_final (client_run c inputs).1 ref pending
  ∧ Forall (fun e => settles (promise pending) e = false) (client_run c inputs).2
  ∧ targetBotId (client_run c inputs).1 = targetBotId c.
Proof.
  induction inputs as [|i inputs IH]; intros c ref pending Haw Hq.
  - cbn. auto.
  - apply Forall_cons in Hq as [Hi Hq]. cbn [client_run].
    destruct (client_step_quiet c ref pending i Haw Hi) as [Haw1 Hev1].
    pose proof (targetBotId_step c i) as Ht1.
    destruct (client_step c i) as [c1 ev1]. cbn [fst snd] in *.
    destruct (IH c1 ref pending Haw1 Hq) as (Haw2 & Hev2 & Ht2).
    destruct (client_run c1 inputs) as [c2 ev2]. cbn [fst snd] in *.
    split; [exact Haw2|]. split; [|congruence].
    apply Forall_app. auto.
Qed.

(** The invariant holds of a new client and is kept by every step, as
    long as the transport gives each request an identifier that is not the
    key of a live entry. *)
Lemma client_wf_new target timeout : client_wf (new_BotAPIClient target timeout).
Proof.
  unfold client_wf, new_BotAPIClient. cbn.
  repeat split; intros; rewrite lookup_empty in *; discriminate.
Qed.

Lemma client_wf_delete c k t :
  client_wf c →
  (∀ p, pendingRequests c !! k = Some p → timeoutId p = t) →
  client_wf (with_tables c (base.delete k (pendingRequests c)) (base.delete t (timers c))).
Proof.
  intros (I1 & I2 & I3) Hown. unfold client_wf. cbn. split; [|split].
  - intros t' info Ht'. apply lookup_delete_Some in Ht' as [Hne Ht'].
    destruct (I1 t' info Ht') as (p & Hp & Hid & Hprom).
    exists p. split; [|auto].
    rewrite lookup_delete_ne; [exact Hp|].
    intros Heq. rewrite <- Heq in Hp. apply Hown in Hp. congruence.
  - intros k' p Hk'. apply lookup_delete_Some in Hk' as [_ Hk']. eauto.
  - intros k1 k2 p1 p2 H1 H2. apply lookup_delete_Some in H1 as [_ H1].
    apply lookup_delete_Some in H2 as [_ H2]. eauto.
Qed.

Lemma client_wf_clearTimeout c t : client_wf c → client_wf (clearTimeout t c).
Proof.
  intros (I1 & I2 & I3). unfold client_wf, clearTimeout. cbn. split; [|split]; auto.
  intros t' info Ht'. apply lookup_delete_Some in Ht' as [_ Ht']. eauto.
Qed.

Lemma pending_delete_clearTimeout c k t :
  pending_delete k (clearTimeout t c)
  = with_tables c (base.delete k (pendingRequests c)) (base.delete t (timers c)).
Proof. reflexivity. Qed.

Lemma client_wf_step c i :
  client_wf c →
  (∀ m route options sent_id, i = InRequest m route options sent_id →
                              pendingRequests c !! sent_id = None) →
  client_wf (client_step c i).1.
Proof.
  intros Hwf Hfresh. destruct i as [message|t|m route options sent_id]; cbn [client_step].
  - unfold handleReply.
    destruct (negb (String.eqb (author_id message) (targetBotId c))); [exact Hwf|].
    destruct (reference message) as [[|x k]|]; try exact Hwf.
    destruct (pendingRequests c !! String x k) as [p|] eqn:Hp; [|exact Hwf].
    destruct (cut_at_space (content message)) as [[statusStr bodyStr]|]; [|exact Hwf].
    destruct (parseInt statusStr) as [status|]; [|exact Hwf].
    destruct (JSON_parse bodyStr) as [body|].
    + destruct ((100 <=? status) && (status <? 200)); cbn [fst].
      * apply client_wf_clearTimeout, Hwf.
      * rewrite pending_delete_clearTimeout.
        apply client_wf_delete; [exact Hwf|]. intros p' Hp'. congruence.
    + destruct (200 <=? status); cbn [fst]; [|exact Hwf].
      rewrite pending_delete_clearTimeout.
      apply client_wf_delete; [exact Hwf|]. intros p' Hp'. congruence.
  - unfold fire. destruct (timers c !! t) as [info|] eqn:Ht; [|exact Hwf]. cbn [fst].
    apply client_wf_delete; [exact Hwf|].
    destruct Hwf as (I1 & _). destruct (I1 t info Ht) as (p & Hp & Hid & _).
    intros p' Hp'. congruence.
  - specialize (Hfresh m route options sent_id eq_refl).
    destruct Hwf as (I1 & I2 & I3). unfold makeRequest.
    destruct (requestString (targetBotId c) m route (opt_body options)); cbn [fst].
    + unfold client_wf. cbn. split; [|split].
      * intros t info Ht. apply lookup_insert_Some in Ht as [[<- <-]|[Hne Ht]]; cbn.
        -- eexists. rewrite lookup_insert_eq. split; [reflexivity|]. auto.
        -- destruct (I1 t info Ht) as (p & Hp & Hid & Hprom).
           exists p. split; [|auto]. rewrite lookup_insert_ne; [exact Hp|].
           intros Heq. rewrite <- Heq in Hp. congruence.
      * intros k p Hk. apply lookup_insert_Some in Hk as [[<- <-]|[_ Hk]]; cbn; [lia|].
        specialize (I2 k p Hk). lia.
      * intros k1 k2 p1 p2 H1 H2 Heq.
        apply lookup_insert_Some in H1 as [[<- <-]|[N1 H1]];
          apply lookup_insert_Some in H2 as [[<- <-]|[N2 H2]]; cbn in Heq.
        -- reflexivity.
        -- specialize (I2 k2 p2 H2). lia.
        -- specialize (I2 k1 p1 H1). lia.
        -- eauto.
    + unfold client_wf. cbn. split; [exact I1|]. split; [|exact I3].
      intros k p Hk. specialize (I2 k p Hk). lia.
Qed.

Lemma client_reachable_wf c : client_reachable c → client_wf c.
Proof.
  induction 1 as [target timeout|c i _ IH Hfresh].
  - apply client_wf_new.
  - apply client_wf_step; assumption.
Qed.

(** C7.  For a pending call of a client whose tables satisfy the
    invariant, a correlated reply with a JSON body and a status from 100
    to 199 clears the timer, runs [onUpdate] when there is one, and keeps
    the entry.  From then on, through any sequence of other events (timers
    that run, replies to other messages, new requests), nothing settles
    the promise of the call, no timer that is set can reject it, and the
    entry stays; a final reply with a JSON body that arrives after all of
    them resolves the call with its status and body. *)
Theorem keep_alive_disarms (c : BotAPIClient) (message final : Message) (ref : string)
    (pending : PendingRequest) (status status' : Z) (bodyStr bodyStr' : string)
    (body body' : jsval) (inputs : list ClientInput) :
  client_wf c →
  correlated c message ref pending status bodyStr →
  JSON_parse bodyStr = Some body →
  100 <= status < 200 →
  Forall (quiet ref) inputs →
  reply_of (targetBotId c) ref final status' bodyStr' →
  JSON_parse bodyStr' = Some body' →
  200 <= status' →
  handleReply c message =
    (clearTimeout (timeoutId pending) c,
     if onUpdate pending
     then [Updated (promise pending) {| cr_status := status; cr_body := body |}]
     else [])
  ∧ timers (handleReply c message).1 !! timeoutId pending = None
  ∧ pendingRequests (handleReply c message).1 !! ref = Some pending
  ∧ Forall (fun e => settles (promise pending) e = false)
           (client_run (handleReply c message).1 inputs).2
  ∧ (∀ t info,
       timers (client_run (handleReply c message).1 inputs).1 !! t = Some info →
       timer_message info ≠ ref ∧ timer_promise info ≠ promise pending)
  ∧ pendingRequests (client_run (handleReply c message).1 inputs).1 !! ref = Some pending
  ∧ handleReply (client_run (handleReply c message).1 inputs).1 final =
      (pending_delete ref
         (clearTimeout (timeoutId pending) (client_run (handleReply c message).1 inputs).1),
       [Resolved (promise pending) {| cr_status := status'; cr_body := body' |}]).
Proof.
  intros Hwf Hc Hb Hs Hq Hfin Hb' Hs'.
  assert (Hstep : handleReply c message =
            (clearTimeout (timeoutId pending) c,
             if onUpdate pending
             then [Updated (promise pending) {| cr_status := status; cr_body := body |}]
             else [])).
  { rewrite (handleReply_correlated c message ref pending status bodyStr Hc), Hb.
    assert (E : (100 <=? status) && (status <? 200) = true).
    { apply andb_true_iff. split; [apply Z.leb_le|apply Z.ltb_lt]; lia. }
    rewrite E. reflexivity. }
  rewrite Hstep. cbn [fst].
  destruct Hc as [_ Hp].
  pose proof (keep_alive_awaiting c ref pending Hwf Hp) as Haw.
  destruct (client_run_quiet inputs _ ref pending Haw Hq) as (Haw2 & Hev & Htarget).
  pose proof Haw2 as (A1 & A2 & A3 & A4).
  split; [reflexivity|]. split; [apply lookup_delete_eq|]. split; [exact Hp|].
  split; [exact Hev|]. split; [exact A3|]. split; [exact A1|].
  rewrite (handleReply_correlated _ final ref pending status' bodyStr').
  - rewrite Hb'.
    assert (E : (100 <=? status') && (status' <? 200) = false).
    { apply andb_false_iff. right. apply Z.ltb_ge. lia. }
    rewrite E. reflexivity.
  - split; [|exact A1]. rewrite Htarget. exact Hfin.
Qed.

Lemma example_client_wf : client_wf example_client.
Proof.
  apply (client_wf_step (new_BotAPIClient "42" None) (InRequest GET "/slow" watching "r1")).
  - apply client_wf_new.
  - intros m route options sent_id _. apply lookup_empty.
Qed.

Lemma keep_alive_disarms_witness :
  let c1 := (handleReply example_client (reply_message "a1" "r1" "100 [1]")).1 in
  let later := [InFire 0; InRequest GET "/balance/7" no_options "r2"; InFire 1] in
  Forall (fun e => settles 0 e = false) (client_run c1 later).2
  ∧ handleReply (client_run c1 later).1 (reply_message "a2" "r1" "200 [2]") =
      (pending_delete "r1" (clearTimeout 0 (client_run c1 later).1),
       [Resolved 0 {| cr_status := 200; cr_body := JArr [JNum 2 0] |}]).
Proof.
  intros c1 later.
  destruct (keep_alive_disarms example_client
              (reply_message "a1" "r1" "100 [1]") (reply_message "a2" "r1" "200 [2]") "r1"
              {| promise := 0; onUpdate := true; timeoutId := 0 |} 100 200 "[1]" "[2]"
              (JArr [JNum 1 0]) (JArr [JNum 2 0]) later)
    as (_ & _ & _ & H4 & _ & _ & H7).
  - exact example_client_wf.
  - split; [|exact example_client_r1].
    repeat split; try discriminate. exists "100". split; reflexivity.
  - reflexivity.
  - lia.
  - repeat constructor; discriminate.
  - repeat split; try discriminate. exists "200". split; reflexivity.
  - reflexivity.
  - lia.
  - split; [exact H4|exact H7].
Defined.

(** ** The wire codec *)

(** *** Percent-encoding *)

Ltac all_bytes c := destruct c as [[] [] [] [] [] [] [] []].

Lemma hex2_percent c :
  hex2 (hex_upper (code c / 16)) (hex_upper (code c mod 16)) = Some (code c).
Proof. all_bytes c; vm_compute; reflexivity. Qed.

Lemma unreserved_ascii c : uri_unreserved c = true → (code c <? 128) = true.
Proof. all_bytes c; vm_compute; congruence. Qed.

Lemma unreserved_not_percent c : uri_unreserved c = true → (code c =? 37) = false.
Proof. all_bytes c; vm_compute; congruence. Qed.

Lemma unreserved_plain c : uri_unreserved c = true → plain c = true.
Proof. all_bytes c; vm_compute; congruence. Qed.

Lemma percent_byte_plain c : all_chars plain (percent_byte c) = true.
Proof. all_bytes c; vm_compute; reflexivity. Qed.

Lemma uri_unescape_encode s : uri_unescape (encodeURIComponent s) = Some (encoded_items s).
Proof.
  induction s as [|c s IH]; [reflexivity|].
  cbn [encodeURIComponent encoded_items]. unfold encoded_item.
  destruct (uri_unreserved c) eqn:Eu.
  - cbn [uri_unescape]. rewrite (unreserved_not_percent c Eu), IH. reflexivity.
  - unfold percent_byte. rewrite !app_cons, app_empty_l.
    cbn [uri_unescape]. change (code "%" =? 37) with true. cbn iota.
    rewrite hex2_percent, IH. reflexivity.
Qed.

Lemma encoded_item_high c : (code c <? 128) = false → encoded_item c = Esc (code c).
Proof.
  intros H. unfold encoded_item.
  destruct (uri_unreserved c) eqn:Eu; [|reflexivity].
  apply unreserved_ascii in Eu. congruence.
Qed.

Lemma is_cont_high c : is_cont (code c) = true → (code c <? 128) = false.
Proof.
  unfold is_cont. intros H. apply andb_true_iff in H as [H _].
  apply Z.leb_le in H. apply Z.ltb_ge. lia.
Qed.

Lemma utf8_seq2_cont a b : utf8_seq2 a b = true → is_cont b = true.
Proof. unfold utf8_seq2. intros H. apply andb_true_iff in H as [_ H]. exact H. Qed.

Lemma utf8_seq3_cont a b c : utf8_seq3 a b c = true → is_cont b = true ∧ is_cont c = true.
Proof.
  unfold utf8_seq3. intros H.
  repeat (apply andb_true_iff in H as [H ?]). auto.
Qed.

Lemma utf8_seq4_cont a b c d :
  utf8_seq4 a b c d = true → is_cont b = true ∧ is_cont c = true ∧ is_cont d = true.
Proof.
  unfold utf8_seq4. intros H.
  repeat (apply andb_true_iff in H as [H ?]). auto.
Qed.

Lemma uri_assemble_encoded fuel : ∀ s,
  utf8_valid_go fuel s = true → uri_assemble (encoded_items s) = Some s.
Proof.
  induction fuel as [|fuel IH]; intros s Hv; [discriminate|].
  destruct s as [|a r]; [reflexivity|].
  cbn [utf8_valid_go] in Hv. cbn [encoded_items].
  destruct (code a <? 128) eqn:Ea.
  - unfold encoded_item. destruct (uri_unreserved a); cbn [uri_assemble].
    + rewrite (IH r Hv). reflexivity.
    + rewrite Ea, (IH r Hv), chr_code. reflexivity.
  - rewrite (encoded_item_high a Ea). cbn [uri_assemble]. rewrite Ea.
    destruct r as [|b r1]; [discriminate|]. cbn [encoded_items].
    destruct (utf8_seq2 (code a) (code b)) eqn:E2.
    + rewrite (encoded_item_high b (is_cont_high b (utf8_seq2_cont _ _ E2))).
      rewrite E2, (IH r1 Hv), !chr_code. reflexivity.
    + destruct r1 as [|c r2]; [discriminate|]. cbn [encoded_items].
      destruct (utf8_seq3 (code a) (code b) (code c)) eqn:E3.
      * destruct (utf8_seq3_cont _ _ _ E3) as [Hb Hc].
        rewrite (encoded_item_high b (is_cont_high b Hb)).
        rewrite (encoded_item_high c (is_cont_high c Hc)).
        rewrite E2, E3, (IH r2 Hv), !chr_code. reflexivity.
      * destruct r2 as [|d r3]; [discriminate|]. cbn [encoded_items].
        apply andb_true_iff in Hv as [E4 Hv].
        destruct (utf8_seq4_cont _ _ _ _ E4) as (Hb & Hc & Hd).
        rewrite (encoded_item_high b (is_cont_high b Hb)).
        rewrite (encoded_item_high c (is_cont_high c Hc)).
        rewrite (encoded_item_high d (is_cont_high d Hd)).
        rewrite E2, E3, E4, (IH r3 Hv), !chr_code. reflexivity.
Qed.

(** Decoding undoes encoding on every well-formed string. *)
Lemma decode_encode s :
  utf8_valid s = true → decodeURIComponent (encodeURIComponent s) = Some s.
Proof.
  intros Hv. unfold decodeURIComponent. rewrite uri_unescape_encode.
  cbn [mbind option_bind]. apply (uri_assemble_encoded _ s Hv).
Qed.

Lemma encode_plain s : all_chars plain (encodeURIComponent s) = true.
Proof.
  induction s as [|c s IH]; [reflexivity|].
  cbn [encodeURIComponent]. destruct (uri_unreserved c) eqn:Eu.
  - cbn [all_chars]. rewrite (unreserved_plain c Eu), IH. reflexivity.
  - rewrite all_chars_app, percent_byte_plain, IH. reflexivity.
Qed.

Lemma encode_nonempty s : s ≠ EmptyString → encodeURIComponent s ≠ EmptyString.
Proof.
  destruct s as [|c s]; [congruence|]. intros _.
  cbn [encodeURIComponent]. destruct (uri_unreserved c); discriminate.
Qed.

(** *** Splitting a command *)

Lemma plain_ws_len c r : plain c = true → ws_len (String c r) = 0%nat.
Proof. intros H. apply ws_len_not_lead. unfold plain in H. by apply negb_true_iff. Qed.

Lemma plain_not_space c : plain c = true → (code c =? 32) = false.
Proof. all_bytes c; vm_compute; congruence. Qed.

Lemma space_ws_len r : ws_len (String " " r) = 1%nat.
Proof. reflexivity. Qed.

Lemma ws_len_space c r : (code c =? 32) = true → ws_len (String c r) = 1%nat.
Proof.
  intros H. apply Z.eqb_eq in H. unfold ws_len, is_ascii_ws, between.
  rewrite H. reflexivity.
Qed.

Lemma lt_len_ws s : ws_len s = 0%nat → lt_len s = 0%nat.
Proof.
  destruct s as [|c r]; [reflexivity|]. unfold ws_len, lt_len.
  destruct (is_ascii_ws c) eqn:Ea; [discriminate|].
  assert (Hn : (code c =? 10) || (code c =? 13) = false).
  { unfold is_ascii_ws, between in Ea.
    apply orb_false_iff in Ea as [Ea _].
    apply orb_false_iff. split; apply Z.eqb_neq; intros Heq; rewrite Heq in Ea; discriminate. }
  rewrite Hn.
  destruct (code c) as [|p|p]; try reflexivity.
  do 8 (destruct p as [p|p|]; try reflexivity).
  destruct r as [|d [|e r]]; try reflexivity.
  destruct (code d =? 128); cbn [andb]; [|reflexivity].
  destruct (between 168 169 e); [|reflexivity].
  rewrite orb_true_r. cbn. discriminate.
Qed.

Lemma lt_len_space c r : (code c =? 32) = true → lt_len (String c r) = 0%nat.
Proof. intros H. apply Z.eqb_eq in H. unfold lt_len. rewrite H. reflexivity. Qed.

Lemma tame_no_line_terminator s : tame s = true → has_line_terminator s = false.
Proof.
  induction s as [|c r IH]; [reflexivity|]. cbn [tame has_line_terminator].
  intros H. apply andb_true_iff in H as [Hc Hr].
  destruct (ws_len (String c r)) eqn:Ew.
  - rewrite (lt_len_ws _ Ew). auto.
  - rewrite (lt_len_space c r Hc). auto.
Qed.

Lemma tame_plain_app a b : all_chars plain a = true → tame b = true → tame (a +:+ b) = true.
Proof.
  induction a as [|c a IH]; intros Ha Hb; [exact Hb|].
  cbn [all_chars] in Ha. apply andb_true_iff in Ha as [Hc Ha].
  rewrite app_cons. cbn [tame]. rewrite (plain_ws_len c _ Hc), (IH Ha Hb). reflexivity.
Qed.

Lemma tame_space r : tame r = true → tame (String " " r) = true.
Proof. intros H. cbn [tame]. rewrite space_ws_len, H. reflexivity. Qed.

Lemma wire_safe_tame s : ∀ prev, wire_safe_go prev s = true → tame s = true.
Proof.
  induction s as [|c r IH]; intros prev H; [reflexivity|].
  cbn [wire_safe_go] in H. cbn [tame].
  destruct (ws_len (String c r)).
  - rewrite (IH _ H). reflexivity.
  - apply andb_true_iff in H as [H Hr]. apply andb_true_iff in H as [Hc _].
    rewrite Hc, (IH _ Hr). reflexivity.
Qed.

Lemma wire_safe_ends s : ∀ prev,
  s ≠ EmptyString → wire_safe_go prev s = true → ends_nonspace s = true.
Proof.
  induction s as [|c r IH]; intros prev Hne H; [congruence|].
  cbn [wire_safe_go] in H.
  destruct r as [|d r'].
  - destruct (ws_len (String c EmptyString)) eqn:Ew.
    + cbn [ends_nonspace]. apply negb_true_iff.
      destruct (code c =? 32) eqn:E; [|reflexivity].
      rewrite (ws_len_space c _ E) in Ew. discriminate.
    + apply andb_true_iff in H as [_ H]. discriminate.
  - change (ends_nonspace (String c (String d r'))) with (ends_nonspace (String d r')).
    destruct (ws_len (String c (String d r'))).
    + apply (IH true); [discriminate|exact H].
    + apply andb_true_iff in H as [_ H]. apply (IH false); [discriminate|exact H].
Qed.

Lemma wire_safe_nonempty s : wire_safe s = true → s ≠ EmptyString.
Proof. intros H ->. discriminate. Qed.

Lemma ends_nonspace_app a b : b ≠ EmptyString → ends_nonspace (a +:+ b) = ends_nonspace b.
Proof.
  intros Hb. induction a as [|c a IH]; [reflexivity|].
  rewrite app_cons. destruct (a +:+ b) eqn:E.
  - destruct a; [rewrite app_empty_l in E; congruence|discriminate].
  - exact IH.
Qed.

Lemma plain_ends_nonspace s :
  s ≠ EmptyString → all_chars plain s = true → ends_nonspace s = true.
Proof.
  induction s as [|c r IH]; intros Hne H; [congruence|].
  cbn [all_chars] in H. apply andb_true_iff in H as [Hc Hr].
  destruct r as [|d r'].
  - cbn [ends_nonspace]. rewrite (plain_not_space c Hc). reflexivity.
  - apply IH; [discriminate|exact Hr].
Qed.

(** Trimming a string that neither starts nor ends with white space. *)
Lemma trimStart_tame s :
  tame s = true → ends_nonspace s = true → trimStart s ≠ EmptyString.
Proof.
  unfold trimStart. induction s as [|c r IH]; intros Ht He; [discriminate|].
  cbn [tame] in Ht. apply andb_true_iff in Ht as [Hc Hr].
  cbn [trimStart_go].
  destruct (ws_len (String c r)) eqn:Ew; [discriminate|].
  rewrite (ws_len_space c r Hc) in Ew. injection Ew as <-.
  destruct r as [|d r'].
  - cbn [ends_nonspace] in He. rewrite Hc in He. discriminate.
  - apply IH; [exact Hr|exact He].
Qed.

Lemma trimEnd_tame s : tame s = true → ends_nonspace s = true → trimEnd s = s.
Proof.
  induction s as [|c r IH]; intros Ht He; [discriminate|].
  cbn [trimEnd]. unfold all_ws.
  destruct (trimStart (String c r)) eqn:E.
  - exfalso. exact (trimStart_tame _ Ht He E).
  - destruct r as [|d r']; [reflexivity|].
    cbn [tame] in Ht. apply andb_true_iff in Ht as [_ Hr].
    rewrite (IH Hr He). reflexivity.
Qed.

Lemma trimStart_plain c r : plain c = true → trimStart (String c r) = String c r.
Proof. intros H. unfold trimStart. cbn [trimStart_go]. rewrite (plain_ws_len c r H). reflexivity. Qed.

Lemma strip_prefix_app p s : strip_prefix p (p +:+ s) = Some s.
Proof.
  induction p as [|c p IH]; [destruct s; reflexivity|].
  rewrite app_cons. cbn [strip_prefix]. rewrite Ascii.eqb_refl. exact IH.
Qed.

(** A token without white space, then a space: [split] cuts there. *)
Lemma split_token t : ∀ acc inws rest,
  all_chars plain t = true → t ≠ EmptyString →
  split_ws_go acc inws 0 (t +:+ String " " rest)
  = String.rev (String.rev_app t acc) :: split_ws_go EmptyString true 0 rest.
Proof.
  induction t as [|c t IH]; intros acc inws rest Hp Hne; [congruence|].
  cbn [all_chars] in Hp. apply andb_true_iff in Hp as [Hc Hp].
  rewrite app_cons. cbn [split_ws_go]. rewrite (plain_ws_len c _ Hc).
  destruct t as [|d t'].
  - rewrite app_empty_l. cbn [split_ws_go]. rewrite space_ws_len. reflexivity.
  - rewrite (IH (String c acc) false rest Hp ltac:(discriminate)). reflexivity.
Qed.

Lemma split_last t : ∀ acc inws,
  all_chars plain t = true →
  split_ws_go acc inws 0 t = [String.rev (String.rev_app t acc)].
Proof.
  induction t as [|c t IH]; intros acc inws Hp; [reflexivity|].
  cbn [all_chars] in Hp. apply andb_true_iff in Hp as [Hc Hp].
  cbn [split_ws_go]. rewrite (plain_ws_len c _ Hc).
  rewrite (IH (String c acc) false Hp). reflexivity.
Qed.

Lemma rev_rev_app t : ∀ acc, String.rev (String.rev_app t acc) = String.rev acc +:+ t.
Proof.
  induction t as [|c t IH]; intros acc.
  - cbn. rewrite app_empty_r. reflexivity.
  - cbn [String.rev_app]. rewrite IH. apply rev_cons_app.
Qed.

Lemma join_sp_cons x l : l ≠ [] → join_sp (x :: l) = x +:+ " " +:+ join_sp l.
Proof. destruct l; [congruence|reflexivity]. Qed.

Lemma split_ws_go_nonempty s : ∀ acc inws skip, split_ws_go acc inws skip s ≠ [].
Proof.
  induction s as [|c r IH]; intros acc inws skip; [discriminate|].
  cbn [split_ws_go]. destruct skip; [|apply IH].
  destruct (ws_len (String c r)); [apply IH|].
  destruct inws; [apply IH|discriminate].
Qed.

(** Splitting a wire-safe text and joining the pieces with single spaces
    gives the text back. *)
Lemma join_split_wire_safe s : ∀ prev acc,
  wire_safe_go prev s = true →
  (prev = false → acc = EmptyString) →
  join_sp (split_ws_go acc (negb prev) 0 s) = String.rev acc +:+ s.
Proof.
  induction s as [|c r IH]; intros prev acc H Hacc.
  - cbn. rewrite app_empty_r. reflexivity.
  - cbn [wire_safe_go] in H. cbn [split_ws_go].
    destruct (ws_len (String c r)) eqn:Ew.
    + pose proof (IH true (String c acc) H ltac:(discriminate)) as IH1.
      cbn [negb] in IH1. rewrite IH1. apply rev_cons_app.
    + apply andb_true_iff in H as [H Hr]. apply andb_true_iff in H as [Hc Hprev].
      subst prev. cbn [negb].
      rewrite (ws_len_space c r Hc) in Ew. injection Ew as <-.
      rewrite join_sp_cons by apply split_ws_go_nonempty.
      pose proof (IH false EmptyString Hr ltac:(reflexivity)) as IH1.
      cbn [negb] in IH1. rewrite IH1.
      apply Z.eqb_eq in Hc.
      assert (c = " "%char) as ->.
      { rewrite <- (chr_code c), Hc. reflexivity. }
      reflexivity.
Qed.

(** *** From the client to the handler *)

Lemma method_name_plain m : all_chars plain (method_name m) = true.
Proof. destruct m; reflexivity. Qed.

Lemma method_name_nonempty m : method_name m ≠ EmptyString.
Proof. destruct m; discriminate. Qed.

Lemma method_of_string_name m : method_of_string (method_name m) = Some m.
Proof. destruct m; reflexivity. Qed.

Lemma tame_plain s : all_chars plain s = true → tame s = true.
Proof.
  intros H. rewrite <- (app_empty_r s). apply tame_plain_app; [exact H|reflexivity].
Qed.

Lemma command_of_tame m route bodyText :
  route ≠ EmptyString →
  (bodyText ≠ EmptyString → wire_safe bodyText = true) →
  tame (command_of m route bodyText) = true
  ∧ ends_nonspace (command_of m route bodyText) = true.
Proof.
  intros Hr Hb. unfold command_of.
  pose proof (encode_plain route) as He.
  pose proof (encode_nonempty route Hr) as Hne.
  destruct bodyText as [|c b].
  - rewrite app_empty_r. split.
    + apply tame_plain_app; [apply method_name_plain|].
      apply tame_space, tame_plain, He.
    + rewrite ends_nonspace_app by discriminate.
      change (" " +:+ encodeURIComponent route) with (String " " (encodeURIComponent route)).
      destruct (encodeURIComponent route) eqn:E; [congruence|].
      change (ends_nonspace (String " " (String a s))) with (ends_nonspace (String a s)).
      apply plain_ends_nonspace; [discriminate|exact He].
  - specialize (Hb ltac:(discriminate)). split.
    + apply tame_plain_app; [apply method_name_plain|].
      apply tame_space. apply tame_plain_app; [exact He|].
      apply tame_space. apply (wire_safe_tame _ false Hb).
    + rewrite ends_nonspace_app by discriminate.
      change (" " +:+ encodeURIComponent route +:+ " " +:+ String c b)
        with (String " " (encodeURIComponent route +:+ String " " (String c b))).
      destruct (encodeURIComponent route +:+ String " " (String c b)) eqn:E.
      { destruct (encodeURIComponent route); discriminate. }
      change (ends_nonspace (String " " (String a s))) with (ends_nonspace (String a s)).
      rewrite <- E.
      rewrite ends_nonspace_app by discriminate.
      change (ends_nonspace (String " " (String c b))) with (ends_nonspace (String c b)).
      apply (wire_safe_ends _ false); [discriminate|exact Hb].
Qed.

Lemma request_parts_command m route bodyText :
  route ≠ EmptyString →
  (bodyText ≠ EmptyString → wire_safe bodyText = true) →
  request_parts (command_of m route bodyText)
  = (method_name m, encodeURIComponent route, bodyText).
Proof.
  intros Hr Hb. unfold request_parts, command_of, split_ws.
  change (method_name m +:+ " " +:+ encodeURIComponent route +:+
          match bodyText with EmptyString => EmptyString | _ => " " +:+ bodyText end)
    with (method_name m +:+ String " " (encodeURIComponent route +:+
          match bodyText with EmptyString => EmptyString | _ => " " +:+ bodyText end)).
  rewrite split_token by (apply method_name_plain || apply method_name_nonempty).
  rewrite rev_rev_app. cbn [hd tl]. 
  destruct bodyText as [|c b].
  - rewrite app_empty_r, split_last by apply encode_plain.
    rewrite rev_rev_app. reflexivity.
  - change (encodeURIComponent route +:+ " " +:+ String c b)
      with (encodeURIComponent route +:+ String " " (String c b)).
    rewrite split_token by (apply encode_plain || apply encode_nonempty, Hr).
    rewrite rev_rev_app. cbn [hd tl].
    pose proof (join_split_wire_safe (String c b) false EmptyString
                  (Hb ltac:(discriminate)) ltac:(reflexivity)) as Hj.
    cbn [negb] in Hj. rewrite Hj. reflexivity.
Qed.

Lemma command_of_not_reserved m route bodyText :
  command_of m route bodyText ≠ EmptyString
  ∧ command_of m route bodyText ≠ "docs"
  ∧ command_of m route bodyText ≠ "routes".
Proof. unfold command_of. destruct m; repeat split; discriminate. Qed.

Lemma digit_not_bang c : is_digit c = true → (code c =? 33) = false.
Proof. all_bytes c; vm_compute; congruence. Qed.

Lemma match_mention_command id command :
  all_chars is_digit id = true →
  tame command = true →
  (∃ c r, command = String c r ∧ plain c = true) →
  match_mention id ("<@" +:+ id +:+ ">:api " +:+ command) = Some command.
Proof.
  intros Hid Ht (c & r & -> & Hc).
  assert (Htail : mention_tail id (id +:+ ">:api " +:+ String c r) = Some (String c r)).
  { unfold mention_tail. rewrite strip_prefix_app. cbn [mbind option_bind].
    change (">:api " +:+ String c r) with (">:api" +:+ String " " (String c r)).
    rewrite strip_prefix_app.
    assert (Hts : trimStart (String " " (String c r)) = String c r).
    { unfold trimStart. cbn [trimStart_go]. rewrite space_ws_len.
      cbn [trimStart_go]. rewrite (plain_ws_len c r Hc). reflexivity. }
    rewrite Hts, (tame_no_line_terminator _ Ht). reflexivity. }
  unfold match_mention.
  change ("<@" +:+ id +:+ ">:api " +:+ String c r)
    with (String "<" (String "@" (id +:+ ">:api " +:+ String c r))).
  cbn [strip_prefix Ascii.eqb Bool.eqb]. cbn iota.
  destruct id as [|d id'].
  - exact Htail.
  - rewrite app_cons. rewrite app_cons in Htail.
    cbn [all_chars] in Hid. apply andb_true_iff in Hid as [Hd _].
    rewrite (digit_not_bang d Hd). exact Htail.
Qed.

Lemma addressed_command_of srv message m route bodyText :
  content message = "<@" +:+ user_id srv +:+ ">:api " +:+ command_of m route bodyText →
  author_id message ≠ user_id srv →
  user_id srv ∈ mentions message →
  all_chars is_digit (user_id srv) = true →
  route ≠ EmptyString →
  (bodyText ≠ EmptyString → wire_safe bodyText = true) →
  addressed_command srv message = Some (command_of m route bodyText).
Proof.
  intros Hc Ha Hm Hid Hr Hb.
  destruct (command_of_tame m route bodyText Hr Hb) as [Ht He].
  unfold addressed_command.
  apply String.eqb_neq in Ha. rewrite Ha.
  rewrite (bool_decide_eq_true_2 _ Hm). cbn [negb].
  assert (Hfirst : ∃ c r, command_of m route bodyText = String c r ∧ plain c = true).
  { unfold command_of. destruct m; eexists _, _; (split; [reflexivity|reflexivity]). }
  rewrite Hc, (match_mention_command _ _ Hid Ht Hfirst). cbn [fmap option_fmap option_map].
  f_equal. unfold trim.
  destruct Hfirst as (c & r & Hcr & Hpl). rewrite Hcr in *.
  rewrite (trimStart_plain c r Hpl). apply trimEnd_tame; assumption.
Qed.

(** X25.  A request built by [makeRequest] for a method, a non-empty
    well-formed route and a body that is absent, null or a truthy value
    whose JSON text is wire-safe (its only white space is single space
    characters, each between two characters that are not white space) and
    parses back to it, delivered to the server it addresses, reaches the
    handler of the route that matches with the same method, with the path
    and the query map that [URL] yields on the original route, and with
    the same body (null for an absent body). *)
Theorem request_round_trip (env : Env) (srv : BotAPIServer) (message : Message)
    (m : HttpMethod) (route : string) (body : jsval) (text : string)
    (url : ParsedURL) (i : nat) (r : Route) (groups : list (option string)) (log : list Event) :
  requestString (user_id srv) m route body = Some text →
  content message = text →
  author_id message ≠ user_id srv →
  user_id srv ∈ mentions message →
  all_chars is_digit (user_id srv) = true →
  route ≠ EmptyString →
  utf8_valid route = true →
  (truthy body = true ∨ body = JUndefined ∨ body = JNull) →
  (truthy body = true →
     ∃ t, JSON_stringify body = SText t ∧ wire_safe t = true ∧ JSON_parse t = Some body) →
  toUpperCase env (method_name m) = method_name m →
  URL env route = Some url →
  findRoute m (pathname url) 0 (routes srv) = Some (i, r, groups) →
  handleMessage env srv message log =
    call_handler env message i r route (expected_request message m url r groups body) log.
Proof.
  intros Hreq Hcontent Hauthor Hment Hid Hroute Hutf Hkind Hbody Hupper Hurl Hfind.
  assert (Hshape : ∃ bodyText,
             text = "<@" +:+ user_id srv +:+ ">:api " +:+ command_of m route bodyText
             ∧ (bodyText ≠ EmptyString → wire_safe bodyText = true)
             ∧ (truthy body = false → bodyText = EmptyString)
             ∧ (truthy body = true →
                  bodyText ≠ EmptyString ∧ JSON_parse bodyText = Some body)).
  { unfold requestString in Hreq. destruct (truthy body) eqn:Et.
    - destruct (Hbody eq_refl) as (t & Hs & Hw & Hp). rewrite Hs in Hreq.
      injection Hreq as <-. exists t.
      pose proof (wire_safe_nonempty t Hw) as Hne.
      split; [|split; [auto|split; [discriminate|auto]]].
      unfold command_of, text_of. destruct t; [congruence|].
      str_norm. reflexivity.
    - injection Hreq as <-. exists EmptyString.
      split; [|split; [congruence|split; [auto|discriminate]]].
      unfold command_of. str_norm. reflexivity. }
  destruct Hshape as (bodyText & -> & Hsafe & Hfalsy & Htruthy).
  pose proof (addressed_command_of srv message m route bodyText
                Hcontent Hauthor Hment Hid Hroute Hsafe) as Haddr.
  destruct (command_of_not_reserved m route bodyText) as (N1 & N2 & N3).
  rewrite (handleMessage_request env srv message _ log Haddr N1 N2 N3).
  unfold handleRequest.
  rewrite (request_parts_command m route bodyText Hroute Hsafe).
  rewrite Hupper, (decode_encode route Hutf), method_of_string_name, Hurl, Hfind.
  unfold dispatch, expected_request.
  destruct Hkind as [Et|[-> | ->]].
  - destruct (Htruthy Et) as [Hne Hparse].
    destruct bodyText; [congruence|]. rewrite Hparse.
    destruct body; try discriminate; reflexivity.
  - rewrite (Hfalsy eq_refl). reflexivity.
  - rewrite (Hfalsy eq_refl). reflexivity.
Qed.

Lemma request_round_trip_witness :
  ∃ text req rest,
    requestString "42" POST "/pay/7?amount=3" (JObj [("note", JStr "two words")]) = Some text
    ∧ handleMessage example_env example_server (example_message text) []
      = (Done, Invoke 1 req :: rest)
    ∧ req_method req = POST ∧ req_path req = "/pay/7"
    ∧ req_query req !! "amount" = Some "3"
    ∧ req_body req = JObj [("note", JStr "two words")].
Proof.
  destruct (requestString "42" POST "/pay/7?amount=3" (JObj [("note", JStr "two words")]))
    as [text|] eqn:Etext; [|discriminate].
  destruct (routes example_server) as [|r0 [|r post]] eqn:Er; try discriminate.
  assert (Hh : handler r = pay_handler) by (injection Er as _ <- _; reflexivity).
  assert (Hrun : handleMessage example_env example_server (example_message text) [] =
                 call_handler example_env (example_message text) 1 r "/pay/7?amount=3"
                   (expected_request (example_message text) POST
                      {| pathname := "/pay/7"; searchParams := [("amount", "3")] |}
                      r [Some "7"] (JObj [("note", JStr "two words")])) []).
  { apply (request_round_trip example_env example_server (example_message text)
             POST "/pay/7?amount=3" (JObj [("note", JStr "two words")]) text).
    - exact Etext.
    - reflexivity.
    - discriminate.
    - set_solver.
    - reflexivity.
    - discriminate.
    - reflexivity.
    - left. reflexivity.
    - intros _. eexists. split; [reflexivity|]. split; vm_compute; reflexivity.
    - reflexivity.
    - reflexivity.
    - rewrite Er. injection Er as <- <- _. reflexivity. }
  exists text. eexists. eexists. split; [reflexivity|].
  rewrite Hrun. unfold call_handler. rewrite Hh.
  split; [reflexivity|]. repeat split.
Defined.

(** C1 at a string body with two consecutive spaces.  The server splits
    the command at every run of white space and joins the pieces of the
    body with single spaces: the handler receives the string with one
    space, not the body that the client passed to [makeRequest]. *)
Theorem double_space_body_not_reproduced :
  ∃ text req rest,
    requestString "42" POST "/pay/7" (JStr "a  b") = Some text
    ∧ handleMessage example_env example_server (example_message text) []
      = (Done, Invoke 1 req :: rest)
    ∧ req_body req = JStr "a b"
    ∧ req_body req ≠ JStr "a  b".
Proof.
  eexists. eexists. eexists.
  split; [reflexivity|]. split; [vm_compute; reflexivity|].
  split; [reflexivity|discriminate].
Qed.

(** Two other ways in which a request is not reproduced: the client does
    not send a falsy body, and with an empty route the body takes the
    place of the route. *)
Example falsy_body_not_sent :
  requestString "42" POST "/pay/7" (jint 0) = requestString "42" POST "/pay/7" JUndefined.
Proof. reflexivity. Qed.

Example empty_route_shifts_tokens :
  ∃ text,
    requestString "42" POST EmptyString (JStr "/pay/7") = Some text
    ∧ addressed_command example_server (example_message text)
      = Some (command_of POST EmptyString (quote "/pay/7"))
    ∧ (request_parts (command_of POST EmptyString (quote "/pay/7"))).1
      = ("POST", quote "/pay/7").
Proof. eexists. split; [reflexivity|]. split; vm_compute; reflexivity. Qed.

(** *** String bodies

    [JSON.parse] undoes [JSON.stringify] on every string: for a string
    body, the assumption of the round trip on the JSON built-ins always
    holds. *)

Lemma parse_quote_char c tail :
  parse_string_go None (quote_char c +:+ tail)
  = prepend (String c EmptyString) (parse_string_go None tail).
Proof. all_bytes c; reflexivity. Qed.

Lemma parse_quote_chars s : ∀ rest,
  parse_string_go None (quote_chars s +:+ String dquote rest) = Some (s, rest).
Proof.
  induction s as [|c s IH]; intros rest; [reflexivity|].
  cbn [quote_chars]. rewrite app_assoc_s, parse_quote_char, IH. reflexivity.
Qed.

Lemma parse_value_string f r :
  parse_value (S f) (String dquote r)
  = match parse_string_go None r with
    | Some (t, rest) => Some (JStr t, rest)
    | None => None
    end.
Proof. reflexivity. Qed.

Lemma JSON_parse_quote s : JSON_parse (quote s) = Some (JStr s).
Proof.
  unfold JSON_parse, quote.
  rewrite parse_value_string, parse_quote_chars. reflexivity.
Qed.

(** * Further properties *)

(** ** The server: which messages are answered, and how often *)

(** X1.  A message that the server wrote itself, a message that does not
    mention the server, and a message whose text does not match the
    addressing expression are ignored: [handleMessage] returns normally
    and the log is unchanged (no reply, no console output, no handler
    call). *)
Theorem unaddressed_message_ignored (env : Env) (srv : BotAPIServer) (message : Message)
    (log : list Event) :
  author_id message = user_id srv
  ∨ user_id srv ∉ mentions message
  ∨ match_mention (user_id srv) (content message) = None →
  handleMessage env srv message log = (Done, log).
Proof.
  intros H. unfold handleMessage, addressed_command.
  destruct (String.eqb (author_id message) (user_id srv)) eqn:Ea; [reflexivity|].
  destruct H as [H|[H|H]].
  - apply String.eqb_neq in Ea. contradiction.
  - rewrite bool_decide_eq_false_2 by exact H. reflexivity.
  - rewrite H. destruct (bool_decide _); reflexivity.
Qed.

Lemma unaddressed_message_ignored_witness :
  handleMessage example_env example_server
    {| msg_id := "m2"; author_id := "42"; mentions := ["42"];
       content := "<@42>:api routes"; reference := None |} [] = (Done, []).
Proof. apply unaddressed_message_ignored. left. reflexivity. Defined.

Lemma findRoute_none m pathname rs : ∀ i,
  (∀ r, r ∈ rs → ¬ accepts r m pathname) → findRoute m pathname i rs = None.
Proof.
  induction rs as [|r rs IH]; intros i H; [reflexivity|].
  cbn [findRoute].
  destruct (method_eqb (method r) m) eqn:Em; cbn [negb].
  - destruct (regex_exec (pathRegex r) pathname) eqn:Er.
    + exfalso. apply (H r); [left|]. split; [by apply method_eqb_eq|]. rewrite Er. eauto.
    + apply IH. intros r' Hr'. apply H. by right.
  - apply IH. intros r' Hr'. apply H. by right.
Qed.

Lemma findRoute_sound m pathname rs : ∀ i j r groups,
  findRoute m pathname i rs = Some (j, r, groups) →
  (i <= j)%nat ∧ rs !! (j - i)%nat = Some r ∧ method r = m
  ∧ regex_exec (pathRegex r) pathname = Some groups.
Proof.
  induction rs as [|r0 rs IH]; intros i j r groups H; [discriminate|].
  cbn [findRoute] in H.
  destruct (method_eqb (method r0) m) eqn:Em; cbn [negb] in H.
  - destruct (regex_exec (pathRegex r0) pathname) eqn:Er.
    + inversion H; subst. rewrite Nat.sub_diag. repeat split; auto.
      by apply method_eqb_eq.
    + apply IH in H as (H1 & H2 & H3 & H4).
      replace (j - i)%nat with (S (j - S i)) by lia. repeat split; auto. lia.
  - apply IH in H as (H1 & H2 & H3 & H4).
    replace (j - i)%nat with (S (j - S i)) by lia. repeat split; auto. lia.
Qed.

(** X2.  A request with a valid method whose route token decodes and
    whose path no registered route accepts with that method is answered
    by one reply of status 404 whose body is the object with the single
    property [error] holding [Route not found:], the method and the
    pathname of the parsed URL; when the transport refuses the reply the
    refusal is logged.  Nothing else happens: the body string is not
    parsed, whatever it is, and no handler runs. *)
Theorem route_not_found (env : Env) (srv : BotAPIServer) (message : Message)
    (command first rawRoute bodyString route : string) (m : HttpMethod)
    (url : ParsedURL) (log : list Event) :
  addressed_command srv message = Some command →
  command ≠ EmptyString → command ≠ "docs" → command ≠ "routes" →
  request_parts command = (first, rawRoute, bodyString) →
  decodeURIComponent rawRoute = Some route →
  method_of_string (toUpperCase env first) = Some m →
  URL env route = Some url →
  (∀ r, r ∈ routes srv → ¬ accepts r m (pathname url)) →
  ∃ ok,
    handleMessage env srv message log =
      (Done,
       log ++ Reply (msg_id message)
                    ("404 " +:+ error_text ("Route not found: " +:+ method_name m +:+ " "
                                            +:+ pathname url)) ok
           :: after_reply ok).
Proof.
  intros Ha H1 H2 H3 Hp Hd Hm Hu Hn.
  rewrite (handleMessage_request env srv message command) by assumption.
  unfold handleRequest. rewrite Hp, Hd, Hm, Hu, (findRoute_none _ _ _ 0%nat Hn).
  unfold bind. rewrite error_reply by lia.
  eexists. reflexivity.
Qed.

Lemma route_not_found_witness :
  ∃ ok,
    handleMessage example_env example_server
      (example_message "<@42>:api DELETE /pay/7 not-json") [] =
      (Done, Reply "m1" ("404 " +:+ error_text "Route not found: DELETE /pay/7") ok
               :: after_reply ok).
Proof.
  destruct (route_not_found example_env example_server
              (example_message "<@42>:api DELETE /pay/7 not-json")
              "DELETE /pay/7 not-json" "DELETE" "/pay/7" "not-json" "/pay/7" DELETE
              {| pathname := "/pay/7"; searchParams := [] |} [])
    as (ok & H); try (vm_compute; congruence); try reflexivity.
  - intros r Hr [Hm _].
    repeat (apply elem_of_cons in Hr as [->|Hr]; [discriminate Hm|]).
    by apply elem_of_nil in Hr.
  - exists ok. exact H.
Defined.

Section Replies.

Context (env : Env).

Lemma json_failed_addresses res : addresses (json_failed env res) res.
Proof.
  intros log. unfold json_failed, bind, emit, reply, ret.
  destruct (sentFinal res); simpl.
  - exists res, [LogError "Failed to send API response:"]. repeat split.
    repeat constructor.
  - eexists (set_sentFinal res), [LogError "Failed to send API response:"; Reply _ _ _].
    rewrite <- app_assoc. simpl. repeat split. repeat constructor.
Qed.

Lemma json_addresses d res : addresses (json env d res) res.
Proof.
  intros log. unfold json. destruct (sentFinal res) eqn:Hf.
  - exists res, [Warn final_warning]. unfold bind, emit, ret. repeat split.
    repeat constructor.
  - set (res1 := if 200 <=? statusCode res then set_sentFinal res else res).
    assert (Ho : originalMessage res1 = originalMessage res)
      by (unfold res1; destruct (200 <=? statusCode res); reflexivity).
    assert (Hsend : ∀ t, ∃ res' evs,
              (let* ok := reply env (originalMessage res1) t in
               if ok then ret res1 else json_failed env res1) log = (res', log ++ evs)
              ∧ originalMessage res' = originalMessage res
              ∧ Forall (response_event (originalMessage res)) evs).
    { intros t. unfold bind, reply.
      destruct (reply_ok env log _ _).
      - eexists res1, [Reply _ _ true]. unfold ret. repeat split; [exact Ho|].
        repeat constructor. exact Ho.
      - destruct (json_failed_addresses res1 (log ++ [Reply (originalMessage res1) t false]))
          as (res' & evs & H1 & H2 & H3).
        exists res', (Reply (originalMessage res1) t false :: evs).
        rewrite H1, <- app_assoc. repeat split; [congruence|].
        constructor; [exact Ho|]. rewrite <- Ho. exact H3. }
    destruct (JSON_stringify d); try apply Hsend.
    destruct (json_failed_addresses res1 log) as (res' & evs & H1 & H2 & H3).
    exists res', evs. repeat split; [exact H1|congruence|]. rewrite <- Ho. exact H3.
Qed.

Lemma run_ops_addresses ops : ∀ res, addresses (run_ops env ops res) res.
Proof.
  induction ops as [|op ops IH]; intros res log.
  - exists res, []. simpl. unfold ret. rewrite app_nil_r. auto.
  - cbn [run_ops]. unfold bind. destruct op as [c|d]; cbn [run_op].
    + unfold ret. destruct (IH (status c res) log) as (r & evs & H1 & H2 & H3).
      exists r, evs. auto.
    + destruct (json_addresses d res log) as (res1 & ev1 & H1 & H2 & H3).
      rewrite H1.
      destruct (IH res1 (log ++ ev1)) as (res2 & ev2 & G1 & G2 & G3).
      exists res2, (ev1 ++ ev2). rewrite G1, <- app_assoc.
      repeat split; [congruence|]. apply Forall_app. split; [exact H3|].
      rewrite <- H2. exact G3.
Qed.

Lemma call_handler_addresses message i r route req log :
  ∃ evs, call_handler env message i r route req log = (Done, log ++ Invoke i req :: evs)
         ∧ Forall (response_event (msg_id message)) evs.
Proof.
  unfold call_handler.
  destruct (run_ops_addresses (before (handler r req)) (new_BotAPIResponse message)
              (log ++ [Invoke i req])) as (res1 & ev1 & E1 & O1 & A1).
  cbn [new_BotAPIResponse originalMessage] in O1, A1.
  assert (Hmid : ∃ res2 ev2,
            (if throws (handler r req) then
               run emit (LogError (handler_error (req_method req) route)) then
               if sentFinal res1 then ret res1
               else json env (error_body "Internal Server Error") (status 500 res1)
             else ret res1) ((log ++ [Invoke i req]) ++ ev1)
            = (res2, ((log ++ [Invoke i req]) ++ ev1) ++ ev2)
            ∧ originalMessage res2 = msg_id message
            ∧ Forall (response_event (msg_id message)) ev2).
  { destruct (throws (handler r req)); [destruct (sentFinal res1)|].
    - exists res1, [LogError (handler_error (req_method req) route)].
      unfold bind, emit, ret. repeat split; [exact O1|]. repeat constructor.
    - destruct (json_addresses (error_body "Internal Server Error") (status 500 res1)
                  (((log ++ [Invoke i req]) ++ ev1) ++
                   [LogError (handler_error (req_method req) route)]))
        as (res2 & ev2 & E2 & O2 & A2).
      cbn [status originalMessage] in O2, A2. rewrite O1 in O2, A2.
      exists res2, (LogError (handler_error (req_method req) route) :: ev2).
      unfold bind, emit. rewrite E2, <- !app_assoc. repeat split; [exact O2|].
      constructor; [exact I|exact A2].
    - exists res1, []. unfold ret. rewrite app_nil_r. repeat split; [exact O1|constructor]. }
  destruct Hmid as (res2 & ev2 & E2 & O2 & A2).
  destruct (run_ops_addresses (after (handler r req)) res2
              (((log ++ [Invoke i req]) ++ ev1) ++ ev2)) as (res3 & ev3 & E3 & O3 & A3).
  exists (ev1 ++ ev2 ++ ev3).
  unfold bind at 1. unfold emit at 1. unfold bind at 1. rewrite E1.
  unfold bind at 1. rewrite E2. unfold bind. rewrite E3. unfold ret.
  split; [f_equal; rewrite <- !app_assoc; reflexivity|].
  rewrite !Forall_app. rewrite O2 in A3. auto.
Qed.

Lemma response_events_answer to evs :
  Forall (response_event to) evs →
  Forall (answers to) evs ∧ invocations evs = 0%nat.
Proof.
  unfold invocations. induction 1 as [|e evs He _ [IH1 IH2]]; [split; [constructor|reflexivity]|].
  split.
  - constructor; [|exact IH1]. destruct e; try exact I; try exact He; contradiction.
  - cbn [List.filter]. destruct e; cbn [is_invoke]; try exact IH2; contradiction.
Qed.

Lemma error_reply_events (code : Z) text message log :
  200 <= code →
  ∃ res ok,
    json env (error_body text) (status code (new_BotAPIResponse message)) log =
      (res, log ++ Reply (msg_id message) (string_of_Z code +:+ " " +:+ error_text text) ok
                :: after_reply ok).
Proof. intros H. rewrite error_reply by exact H. eauto. Qed.

Lemma after_reply_finals ok : finals (after_reply ok) = 0%nat.
Proof. destruct ok; reflexivity. Qed.

Lemma after_reply_events to ok : Forall (response_event to) (after_reply ok).
Proof. destruct ok; repeat constructor. Qed.

Lemma single_reply_finals to z body ok :
  (finals (Reply to (string_of_Z z +:+ " " +:+ body) ok :: after_reply ok) <= 1)%nat.
Proof.
  rewrite finals_cons, after_reply_finals.
  destruct (is_final_reply _); lia.
Qed.

End Replies.

(** X3.  For every message, every server and every behaviour of the
    handler, [handleMessage] only appends to the log; among what it
    appends there is at most one reply with a final status (200 or more)
    and at most one handler invocation, and every reply, text or file,
    answers the incoming message. *)
Theorem one_final_reply_per_message (env : Env) (srv : BotAPIServer) (message : Message)
    (log : list Event) :
  ∃ out evs,
    handleMessage env srv message log = (out, log ++ evs)
    ∧ (finals evs <= 1)%nat
    ∧ (invocations evs <= 1)%nat
    ∧ Forall (answers (msg_id message)) evs.
Proof.
  assert (Herr : ∀ (code : Z) text, 200 <= code →
            ∃ out evs,
              (run json env (error_body text) (status code (new_BotAPIResponse message))
               then ret Done) log = (out, log ++ evs)
              ∧ (finals evs <= 1)%nat ∧ (invocations evs <= 1)%nat
              ∧ Forall (answers (msg_id message)) evs).
  { intros code text Hc.
    destruct (error_reply_events env code text message log Hc) as (res & ok & E).
    exists Done. eexists. unfold bind. rewrite E. unfold ret.
    split; [reflexivity|]. split; [apply single_reply_finals|].
    destruct (response_events_answer (msg_id message)
                (Reply (msg_id message) (string_of_Z code +:+ " " +:+ error_text text) ok
                   :: after_reply ok)) as [HA HI].
    { constructor; [reflexivity|apply after_reply_events]. }
    split; [rewrite HI; lia|exact HA]. }
  assert (Hnone : ∀ out : Outcome, ∃ out' evs,
            (out, log) = (out', log ++ evs)
            ∧ (finals evs <= 1)%nat ∧ (invocations evs <= 1)%nat
            ∧ Forall (answers (msg_id message)) evs).
  { intros out. exists out, []. rewrite app_nil_r.
    repeat split; [unfold finals; simpl; lia|unfold invocations; simpl; lia|constructor]. }
  unfold handleMessage.
  destruct (addressed_command srv message) as [command|]; [|apply Hnone].
  destruct (String.eqb command EmptyString || String.eqb command "docs").
  { unfold bind, replyFile. eexists. eexists [ReplyFile _ _ _ _]. unfold ret.
    split; [reflexivity|]. split; [|split; [|repeat constructor]].
    - rewrite finals_cons. cbn [is_final_reply reply_status]. unfold finals. simpl. lia.
    - unfold invocations. simpl. lia. }
  destruct (String.eqb command "routes").
  { unfold bind, reply. eexists. eexists [Reply _ ("200 " +:+ _) _]. unfold ret.
    split; [reflexivity|]. split; [|split; [|repeat constructor]].
    - rewrite finals_cons. unfold finals at 1. destruct (is_final_reply _); simpl; lia.
    - unfold invocations. simpl. lia. }
  unfold handleRequest.
  destruct (request_parts command) as [[first rawRoute] bodyString].
  destruct (decodeURIComponent rawRoute) as [route|]; [|apply Hnone].
  destruct (method_of_string (toUpperCase env first)) as [m|]; [|apply Herr; lia].
  destruct (URL env route) as [url|]; [|apply Hnone].
  destruct (findRoute m (pathname url) 0 (routes srv)) as [[[i r] groups]|];
    [|apply Herr; lia].
  unfold dispatch.
  assert (Hcall : ∀ req, ∃ out evs,
            call_handler env message i r route req log = (out, log ++ evs)
            ∧ (finals evs <= 1)%nat ∧ (invocations evs <= 1)%nat
            ∧ Forall (answers (msg_id message)) evs).
  { intros req.
    destruct (one_final_reply env message i r route req log) as (evs & E & F).
    destruct (call_handler_addresses env message i r route req log) as (evs' & E' & A).
    rewrite E in E'. injection E' as E'. apply app_inv_head in E'. subst evs.
    destruct (response_events_answer _ _ A) as [HA HI].
    exists Done, (Invoke i req :: evs'). split; [exact E|]. split; [exact F|]. split.
    - unfold invocations in *. cbn [List.filter is_invoke length]. rewrite HI. lia.
    - constructor; [exact I|exact HA]. }
  destruct bodyString as [|c b]; [apply Hcall|].
  destruct (JSON_parse (String c b)); [apply Hcall|apply Herr; lia].
Qed.

(** ** The server: commands and routes *)

(** *** Texts without white space *)

Lemma low_not_eq c n : is_high c = false → 128 <= n → (code c =? n) = false.
Proof. unfold is_high. intros H Hn. apply Z.leb_gt in H. apply Z.eqb_neq. lia. Qed.

Lemma low_not_between c lo hi : is_high c = false → 128 <= lo → between lo hi c = false.
Proof.
  unfold is_high, between. intros H Hn. apply Z.leb_gt in H.
  apply andb_false_iff. left. apply Z.leb_gt. lia.
Qed.

Lemma ws_len_window c s : ws_len (String c s) = ws_len (String c (high2 s)).
Proof.
  unfold ws_len. destruct (is_ascii_ws c); [reflexivity|].
  destruct (code c) as [|p|p]; try reflexivity.
  do 8 (destruct p as [p|p|]; try reflexivity).
  all: destruct s as [|d [|e s]]; try reflexivity; unfold high2, high1.
  all: destruct (is_high d) eqn:Ed.
  all: try destruct (is_high e) eqn:Ee.
  all: try reflexivity.
  all: repeat rewrite (low_not_eq d) by (assumption || lia).
  all: repeat rewrite (low_not_eq e) by (assumption || lia).
  all: repeat rewrite (low_not_between e) by (assumption || lia).
  all: cbn [andb orb]; try reflexivity.
  all: rewrite ?andb_false_r; try reflexivity.
Qed.

Lemma high1_app_low s t : starts_low t = true → high1 (s +:+ t) = high1 s.
Proof.
  intros Ht. destruct s as [|e s]; [|reflexivity].
  rewrite app_empty_l. destruct t as [|x t]; [reflexivity|].
  cbn in Ht. apply negb_true_iff in Ht. cbn. rewrite Ht. reflexivity.
Qed.

Lemma high2_app_low s t : starts_low t = true → high2 (s +:+ t) = high2 s.
Proof.
  intros Ht. destruct s as [|d s].
  - rewrite app_empty_l. destruct t as [|x t]; [reflexivity|].
    cbn in Ht. apply negb_true_iff in Ht. cbn. rewrite Ht. reflexivity.
  - rewrite app_cons. cbn [high2]. rewrite (high1_app_low s t Ht). reflexivity.
Qed.

(** What follows a text does not make its head a white-space character,
    when it starts with an ASCII character. *)
Lemma ws_len_app_low c s t :
  starts_low t = true → ws_len (String c s +:+ t) = ws_len (String c s).
Proof.
  intros Ht. rewrite app_cons, ws_len_window, (high2_app_low s t Ht), <- ws_len_window.
  reflexivity.
Qed.

Lemma spaceless_app a b :
  spaceless a = true → spaceless b = true → starts_low b = true →
  spaceless (a +:+ b) = true.
Proof.
  intros Ha Hb Hl. induction a as [|c a IH]; [by rewrite app_empty_l|].
  cbn [spaceless] in Ha.
  destruct (ws_len (String c a)) eqn:E; [|discriminate].
  pose proof (ws_len_app_low c a b Hl) as E'. rewrite E in E'.
  rewrite app_cons in *. cbn [spaceless]. rewrite E'. by apply IH.
Qed.

Lemma plain_spaceless_app a b :
  all_chars plain a = true → spaceless b = true → spaceless (a +:+ b) = true.
Proof.
  intros Ha Hb. induction a as [|c a IH]; [by rewrite app_empty_l|].
  cbn [all_chars] in Ha. apply andb_true_iff in Ha as [Hc Ha].
  rewrite app_cons. cbn [spaceless]. rewrite (plain_ws_len c _ Hc). by apply IH.
Qed.

Lemma plain_spaceless a : all_chars plain a = true → spaceless a = true.
Proof.
  intros H. rewrite <- (app_empty_r a). by apply plain_spaceless_app.
Qed.

Lemma spaceless_wire_safe t : ∀ prev,
  spaceless t = true → (t ≠ EmptyString ∨ prev = true) → wire_safe_go prev t = true.
Proof.
  induction t as [|c t IH]; intros prev Hp Hne.
  - destruct Hne as [Hne| ->]; [congruence|reflexivity].
  - cbn [spaceless] in Hp. cbn [wire_safe_go].
    destruct (ws_len (String c t)); [|discriminate]. apply IH; [exact Hp|by right].
Qed.

(** Splitting a text without white space. *)
Lemma split_spaceless t : ∀ acc inws,
  spaceless t = true →
  split_ws_go acc inws 0 t = [String.rev (String.rev_app t acc)].
Proof.
  induction t as [|c t IH]; intros acc inws Hp; [reflexivity|].
  cbn [spaceless] in Hp. cbn [split_ws_go].
  destruct (ws_len (String c t)); [|discriminate].
  rewrite (IH (String c acc) false Hp). reflexivity.
Qed.

Lemma split_spaceless_token t : ∀ acc inws rest,
  spaceless t = true → t ≠ EmptyString →
  split_ws_go acc inws 0 (t +:+ String " " rest)
  = String.rev (String.rev_app t acc) :: split_ws_go EmptyString true 0 rest.
Proof.
  induction t as [|c t IH]; intros acc inws rest Hp Hne; [congruence|].
  cbn [spaceless] in Hp.
  destruct (ws_len (String c t)) eqn:E; [|discriminate].
  pose proof (ws_len_app_low c t (String " " rest) eq_refl) as E'. rewrite E in E'.
  rewrite app_cons in *. cbn [split_ws_go]. rewrite E'.
  destruct t as [|d t'].
  - rewrite app_empty_l. cbn [split_ws_go]. rewrite space_ws_len. reflexivity.
  - rewrite (IH (String c acc) false rest Hp ltac:(discriminate)). reflexivity.
Qed.

(** *** A command of one token *)

Lemma request_parts_single first :
  spaceless first = true → request_parts first = (first, "/", EmptyString).
Proof.
  intros Hp. unfold request_parts, split_ws.
  rewrite split_spaceless by exact Hp. rewrite rev_rev_app. reflexivity.
Qed.

Lemma request_parts_root first :
  spaceless first = true → first ≠ EmptyString →
  request_parts (first +:+ " /") = (first, "/", EmptyString).
Proof.
  intros Hp Hne. unfold request_parts, split_ws.
  change (first +:+ " /") with (first +:+ String " " "/").
  rewrite split_spaceless_token by assumption. rewrite rev_rev_app. reflexivity.
Qed.

(** X4.  A message whose command is one token without white space,
    other than [docs] and [routes], is handled as the request made of
    that token, a space and a slash: the route defaults to the root and
    the body string is empty. *)
Theorem missing_route_is_root (env : Env) (srv : BotAPIServer) (message : Message)
    (first : string) (log : list Event) :
  addressed_command srv message = Some first →
  spaceless first = true →
  first ≠ EmptyString → first ≠ "docs" → first ≠ "routes" →
  handleMessage env srv message log
  = handleRequest env srv message (first +:+ " /") log.
Proof.
  intros Ha Hp Hne Hd Hr.
  rewrite (handleMessage_request env srv message first log Ha Hne Hd Hr).
  unfold handleRequest.
  rewrite request_parts_single, request_parts_root by assumption. reflexivity.
Qed.

Lemma missing_route_is_root_witness :
  handleMessage example_env example_server (example_message "<@42>:api get") []
  = handleRequest example_env example_server (example_message "<@42>:api get") "get /" [].
Proof.
  apply (missing_route_is_root _ _ _ "get"); [reflexivity|reflexivity|discriminate..].
Defined.

(** *** What a match captures *)

Lemma rev_cons_nonempty a acc : String.rev (String a acc) ≠ EmptyString.
Proof.
  rewrite <- (app_empty_r (String.rev (String a acc))), rev_cons_app.
  destruct (String.rev acc); discriminate.
Qed.

Lemma match_group_inv k s : ∀ acc gs,
  match_group k acc s = Some gs →
  ∃ v rest gs',
    s = v +:+ rest ∧ all_chars not_slash v = true
    ∧ String.rev acc +:+ v ≠ EmptyString
    ∧ k rest = Some gs' ∧ gs = (String.rev acc +:+ v) :: gs'.
Proof.
  assert (Hstop : ∀ acc s gs,
            match acc with
            | EmptyString => None
            | _ => cons (String.rev acc) <$> k s
            end = Some gs →
            ∃ v rest gs',
              s = v +:+ rest ∧ all_chars not_slash v = true
              ∧ String.rev acc +:+ v ≠ EmptyString
              ∧ k rest = Some gs' ∧ gs = (String.rev acc +:+ v) :: gs').
  { intros acc s0 gs H. destruct acc as [|a acc]; [discriminate|].
    destruct (k s0) as [gs'|] eqn:Ek; [|discriminate].
    injection H as <-. exists EmptyString, s0, gs'.
    rewrite app_empty_r. repeat split; auto.
    apply rev_cons_nonempty. }
  induction s as [|c r IH]; intros acc gs H.
  - rewrite match_group_step in H. cbn zeta in H. apply Hstop. exact H.
  - rewrite match_group_step in H. cbn zeta in H.
    destruct (is_slash c) eqn:Ec; [apply Hstop; exact H|].
    destruct (match_group k (String c acc) r) as [gs1|] eqn:Eg; [|apply Hstop; exact H].
    injection H as <-.
    destruct (IH _ _ Eg) as (v & rest & gs' & -> & Hv & Hne & Hk & ->).
    exists (String c v), rest, gs'. rewrite rev_cons_app in *.
    repeat split; auto.
    cbn [all_chars]. unfold not_slash at 1. rewrite Ec. exact Hv.
Qed.

Lemma is_slash_char c : is_slash c = true → c = "/"%char.
Proof.
  unfold is_slash. intros H. apply Z.eqb_eq in H.
  rewrite <- (chr_code c), H. reflexivity.
Qed.

Lemma regex_match_sound ps : ∀ s groups,
  regex_match (map piece_item ps) s = Some groups →
  length groups = length (piece_keys ps)
  ∧ Forall (fun v => segment_value v = true) groups
  ∧ (s = instantiate ps groups ∨ s = instantiate ps groups +:+ "/").
Proof.
  induction ps as [|[c|key] ps IH]; intros s groups H.
  - cbn [map regex_match] in H. destruct s as [|c [|d s]]; try discriminate.
    + injection H as <-. repeat split; [constructor|by left].
    + destruct (is_slash c) eqn:Ec; [|discriminate]. injection H as <-.
      apply is_slash_char in Ec as ->. repeat split; [constructor|by right].
  - cbn [map piece_item regex_match] in H. destruct s as [|d r]; [discriminate|].
    destruct (Ascii.eqb c d) eqn:Ecd; [|discriminate].
    apply Ascii.eqb_eq in Ecd as <-.
    destruct (IH _ _ H) as (H1 & H2 & H3).
    repeat split; [exact H1|exact H2|]. cbn [instantiate].
    destruct H3 as [->| ->]; [by left|by right].
  - cbn [map piece_item regex_match] in H.
    destruct (match_group_inv _ _ _ _ H) as (v & rest & gs' & -> & Hv & Hne & Hk & ->).
    change (String.rev EmptyString +:+ v) with v in *.
    destruct (IH _ _ Hk) as (H1 & H2 & H3).
    repeat split.
    + cbn. f_equal. exact H1.
    + constructor; [|exact H2]. unfold segment_value. rewrite Hv, andb_true_r.
      apply negb_true_iff, String.eqb_neq, Hne.
    + cbn [instantiate]. destruct H3 as [->| ->]; [by left|right].
      by rewrite app_assoc_s.
Qed.

Lemma findRoute_member m pathname rs i j r groups :
  findRoute m pathname i rs = Some (j, r, groups) → r ∈ rs.
Proof.
  intros H. apply findRoute_sound in H as (_ & H & _).
  by apply list_elem_of_lookup_2 in H.
Qed.

Lemma findRoute_instance srv m pathname i r groups :
  registered srv →
  findRoute m pathname 0 (routes srv) = Some (i, r, groups) →
  plain_template (path r) = true →
  ∃ vals,
    groups = map Some vals
    ∧ length vals = length (paramKeys r)
    ∧ Forall (fun v => segment_value v = true) vals
    ∧ (pathname = instantiate (scan_template None (path r)) vals
       ∨ pathname = instantiate (scan_template None (path r)) vals +:+ "/").
Proof.
  intros Hreg Hf Hplain.
  pose proof (findRoute_member _ _ _ _ _ _ _ Hf) as Hr.
  destruct (registered_route_pieces srv r Hreg Hr) as (Hk & Hre & _).
  apply findRoute_sound in Hf as (_ & _ & _ & Hm).
  rewrite (Hre Hplain) in Hm. cbn [regex_exec] in Hm.
  destruct (regex_match _ pathname) as [vals|] eqn:E; [|discriminate].
  injection Hm as <-. exists vals. split; [reflexivity|].
  rewrite Hk. by apply regex_match_sound.
Qed.

(** X5.  On a server built by the registration methods, when the scan of
    the routes selects a route whose template has no character that is
    special in a regular expression, every captured group is defined, the
    groups are as many as the parameter names of the route, and the path
    is the template of the route with the groups in the place of the
    parameters, followed by at most one slash. *)
Theorem matched_path_is_instance (srv : BotAPIServer) (m : HttpMethod) (pathname : string)
    (i : nat) (r : Route) (groups : list (option string)) :
  registered srv →
  findRoute m pathname 0 (routes srv) = Some (i, r, groups) →
  plain_template (path r) = true →
  ∃ vals,
    groups = map Some vals
    ∧ length vals = length (paramKeys r)
    ∧ (pathname = instantiate (scan_template None (path r)) vals
       ∨ pathname = instantiate (scan_template None (path r)) vals +:+ "/").
Proof.
  intros Hreg Hf Hplain.
  destruct (findRoute_instance srv m pathname i r groups Hreg Hf Hplain)
    as (vals & H1 & H2 & _ & H3).
  exists vals. auto.
Qed.

Lemma fromEntries_Some {A} (l : list (string * A)) : ∀ k v,
  fromEntries l !! k = Some v → (k, v) ∈ l.
Proof.
  induction l as [|[k0 v0] l IH] using rev_ind; intros k v H.
  - unfold fromEntries in H. simpl in H. by rewrite lookup_empty in H.
  - rewrite fromEntries_snoc in H. apply elem_of_app.
    apply lookup_insert_Some in H as [[<- <-]|[_ H]].
    + right. by left.
    + left. by apply IH.
Qed.

Lemma fromEntries_is_Some {A} (l : list (string * A)) : ∀ k,
  k ∈ l.*1 → is_Some (fromEntries l !! k).
Proof.
  induction l as [|[k0 v0] l IH] using rev_ind; intros k H.
  - by apply elem_of_nil in H.
  - rewrite fromEntries_snoc. rewrite fmap_app in H. apply elem_of_app in H.
    destruct (decide (k0 = k)) as [->|Hne].
    + rewrite lookup_insert_eq. eauto.
    + rewrite lookup_insert_ne by exact Hne. apply IH.
      destruct H as [H|H]; [exact H|].
      apply list_elem_of_singleton in H. simpl in H. congruence.
Qed.

Lemma param_entries_keys (groups : list (option string)) (keys : list string) :
  (imap (fun i key => (key, default None (groups !! i))) keys).*1 = keys.
Proof.
  apply list_eq. intros j. rewrite list_lookup_fmap, list_lookup_imap.
  destruct (keys !! j); reflexivity.
Qed.

(** The keys of the parameter map are the parameter names, whatever was
    captured. *)
Lemma route_params_keys r groups k :
  k ∈ paramKeys r ↔ is_Some (route_params r groups !! k).
Proof.
  unfold route_params. split.
  - intros Hk. apply fromEntries_is_Some. by rewrite param_entries_keys.
  - intros [v Hv]. apply fromEntries_Some in Hv.
    rewrite <- (param_entries_keys groups (paramKeys r)).
    apply list_elem_of_fmap. exists (k, v). auto.
Qed.

(** Each value of the parameter map is the group at the position of an
    occurrence of its name. *)
Lemma route_params_value r groups k v :
  route_params r groups !! k = Some v →
  ∃ j, paramKeys r !! j = Some k ∧ v = default None (groups !! j).
Proof.
  intros Hv. apply fromEntries_Some, list_elem_of_lookup in Hv as [j Hj].
  rewrite list_lookup_imap in Hj. exists j.
  destruct (paramKeys r !! j); [|discriminate]. by injection Hj as -> ->.
Qed.

(** X6.  The parameter map handed to the handler of the selected route
    has exactly the parameter names of the route as keys.  On a server
    built by the registration methods, when the template of the route has
    no character that is special in a regular expression, each of its
    values is defined and is one of the captured groups: not empty,
    without slash. *)
Theorem every_parameter_bound (srv : BotAPIServer) (m : HttpMethod) (pathname : string)
    (i : nat) (r : Route) (groups : list (option string)) :
  registered srv →
  findRoute m pathname 0 (routes srv) = Some (i, r, groups) →
  (∀ k, k ∈ paramKeys r ↔ is_Some (route_params r groups !! k))
  ∧ (plain_template (path r) = true →
     ∀ k v, route_params r groups !! k = Some v →
            ∃ s, v = Some s ∧ Some s ∈ groups ∧ s ≠ EmptyString
                 ∧ all_chars not_slash s = true).
Proof.
  intros Hreg Hf. split; [intros k; apply route_params_keys|].
  intros Hplain k v Hv.
  destruct (findRoute_instance srv m pathname i r groups Hreg Hf Hplain)
    as (vals & -> & Hlen & Hseg & _).
  destruct (route_params_value r _ k v Hv) as (j & Hj & ->).
  apply lookup_lt_Some in Hj. rewrite <- Hlen in Hj.
  destruct (lookup_lt_is_Some_2 vals j Hj) as [s Hs].
  exists s. rewrite list_lookup_fmap, Hs. split; [reflexivity|].
  split; [apply list_elem_of_fmap; exists s; split; [reflexivity|];
          by apply list_elem_of_lookup_2 in Hs|].
  rewrite List.Forall_forall in Hseg.
  apply list_elem_of_lookup_2, list_elem_of_In in Hs. specialize (Hseg s Hs).
  unfold segment_value in Hseg. apply andb_true_iff in Hseg as [Hne Hns].
  split; [|exact Hns]. by apply negb_true_iff, String.eqb_neq in Hne.
Qed.

Lemma matched_path_is_instance_witness :
  let r := {| method := GET; path := "/balance/:userId";
              pathRegex := Items [RChar "/"; RChar "b"; RChar "a"; RChar "l"; RChar "a";
                                  RChar "n"; RChar "c"; RChar "e"; RChar "/"; RGroup];
              paramKeys := ["userId"]; handler := balance_handler;
              docs := Some "Get the balance of a user" |} in
  ∃ vals,
    [Some "7"] = map Some vals
    ∧ length vals = length (paramKeys r)
    ∧ ("/balance/7/" = instantiate (scan_template None (path r)) vals
       ∨ "/balance/7/" = instantiate (scan_template None (path r)) vals +:+ "/").
Proof.
  intros r.
  apply (matched_path_is_instance example_server GET "/balance/7/" 0%nat r [Some "7"]);
    [apply example_server_registered|reflexivity|reflexivity].
Defined.

Lemma every_parameter_bound_witness :
  let r := {| method := POST; path := "/pay/:userId";
              pathRegex := Items [RChar "/"; RChar "p"; RChar "a"; RChar "y"; RChar "/";
                                  RGroup];
              paramKeys := ["userId"]; handler := pay_handler; docs := None |} in
  (∀ k, k ∈ paramKeys r ↔ is_Some (route_params r [Some "7"] !! k))
  ∧ (plain_template (path r) = true →
     ∀ k v, route_params r [Some "7"] !! k = Some v →
            ∃ s, v = Some s ∧ Some s ∈ [Some "7"] ∧ s ≠ EmptyString
                 ∧ all_chars not_slash s = true).
Proof.
  intros r.
  apply (every_parameter_bound example_server POST "/pay/7" 1%nat r [Some "7"]);
    [apply example_server_registered|reflexivity].
Defined.

(** *** Registration *)

Lemma findRoute_app_Some m pathname more rs : ∀ i x,
  findRoute m pathname i rs = Some x → findRoute m pathname i (rs ++ more) = Some x.
Proof.
  induction rs as [|r rs IH]; intros i x H; [discriminate|].
  cbn [app findRoute] in *.
  destruct (negb (method_eqb (method r) m)); [by apply IH|].
  destruct (regex_exec (pathRegex r) pathname); [exact H|by apply IH].
Qed.

Lemma findRoute_app_None m pathname more rs : ∀ i,
  findRoute m pathname i rs = None →
  findRoute m pathname i (rs ++ more) = findRoute m pathname (i + length rs) more.
Proof.
  induction rs as [|r rs IH]; intros i H.
  - simpl. by rewrite Nat.add_0_r.
  - cbn [app findRoute length] in *.
    replace (i + S (length rs))%nat with (S i + length rs)%nat by lia.
    destruct (negb (method_eqb (method r) m)); [by apply IH|].
    destruct (regex_exec (pathRegex r) pathname); [discriminate|by apply IH].
Qed.

(** X7.  Registering a route never changes where a request goes that an
    earlier route takes: the scan returns the same route, position and
    groups.  A request that no earlier route takes can only go to the new
    route, which sits at the last position with the method, template and
    docs given to [register].  The user identifier and the docs string of
    the server are unchanged. *)
Theorem registration_keeps_dispatch (env : Env) (m : HttpMethod) (p : string)
    (h : Handler) (d : option string) (srv srv' : BotAPIServer) (m0 : HttpMethod)
    (pathname : string) :
  register env m p h d srv = Some srv' →
  (∀ x, findRoute m0 pathname 0 (routes srv) = Some x →
        findRoute m0 pathname 0 (routes srv') = Some x)
  ∧ (findRoute m0 pathname 0 (routes srv) = None →
     ∀ j r groups, findRoute m0 pathname 0 (routes srv') = Some (j, r, groups) →
       j = length (routes srv) ∧ method r = m ∧ path r = p ∧ docs r = d)
  ∧ user_id srv' = user_id srv ∧ docsString srv' = docsString srv.
Proof.
  intros H. unfold register in H.
  destruct (compile_template env p) as [[re keys]|]; [|discriminate].
  injection H as <-. cbn [routes user_id docsString]. split; [|split; [|auto]].
  - intros x Hx. by apply findRoute_app_Some.
  - intros Hn j r groups Hf. rewrite findRoute_app_None in Hf by exact Hn.
    cbn [findRoute] in Hf.
    destruct (negb (method_eqb _ m0)); [discriminate|].
    destruct (regex_exec _ _); [|discriminate].
    injection Hf as <- <- <-. auto.
Qed.

Lemma registration_keeps_dispatch_witness :
  ∃ srv' x,
    register example_env GET "/:anything" slow_handler None example_server = Some srv'
    ∧ findRoute GET "/slow" 0 (routes example_server) = Some x
    ∧ findRoute GET "/slow" 0 (routes srv') = Some x.
Proof.
  eexists. eexists. split; [reflexivity|]. split; [reflexivity|].
  eapply (registration_keeps_dispatch example_env GET "/:anything" slow_handler None
            example_server);
    reflexivity.
Defined.

(** *** Templates *)

Lemma all_chars_rev_app p a : ∀ b,
  all_chars p (String.rev_app a b) = all_chars p a && all_chars p b.
Proof.
  induction a as [|c a IH]; intros b; [reflexivity|].
  cbn [String.rev_app all_chars]. rewrite IH. cbn [all_chars].
  destruct (p c), (all_chars p a), (all_chars p b); reflexivity.
Qed.

Lemma all_chars_rev p a : all_chars p (String.rev a) = all_chars p a.
Proof. unfold String.rev. rewrite all_chars_rev_app. cbn. by rewrite andb_true_r. Qed.

Lemma rev_nonempty k : k ≠ EmptyString → String.rev k ≠ EmptyString.
Proof. destruct k as [|a k]; [congruence|]. intros _. apply rev_cons_nonempty. Qed.

Lemma scan_template_spec s : ∀ key,
  match key with
  | None =>
      render (scan_template None s) = s
      ∧ Forall (fun k => k ≠ EmptyString ∧ all_chars is_word k = true)
               (piece_keys (scan_template None s))
  | Some k =>
      all_chars is_word k = true → (k ≠ EmptyString ∨ starts_with_word s = true) →
      render (scan_template key s) = String ":" (String.rev k +:+ s)
      ∧ Forall (fun k => k ≠ EmptyString ∧ all_chars is_word k = true)
               (piece_keys (scan_template key s))
  end.
Proof.
  induction s as [|c r IH]; intros [k|].
  - intros Hw [Hk|Hk]; [|discriminate]. cbn. rewrite app_empty_r. split; [reflexivity|].
    repeat constructor; [by apply rev_nonempty|by rewrite all_chars_rev].
  - cbn. split; [reflexivity|constructor].
  - intros Hw Hk. cbn [scan_template].
    assert (Hplain :
      render (if (code c =? 58) && starts_with_word r
              then scan_template (Some EmptyString) r
              else Lit c :: scan_template None r) = String c r
      ∧ Forall (fun k => k ≠ EmptyString ∧ all_chars is_word k = true)
          (piece_keys (if (code c =? 58) && starts_with_word r
                       then scan_template (Some EmptyString) r
                       else Lit c :: scan_template None r))).
    { destruct ((code c =? 58) && starts_with_word r) eqn:E.
      - apply andb_true_iff in E as [Ec Er].
        destruct (IH (Some EmptyString) eq_refl (or_intror Er)) as [H1 H2].
        split; [|exact H2]. rewrite H1. apply Z.eqb_eq in Ec.
        rewrite <- (chr_code c), Ec. reflexivity.
      - destruct (IH None) as [H1 H2]. split; [cbn [render]; by rewrite H1|exact H2]. }
    destruct (is_word c) eqn:Ew.
    + destruct (IH (Some (String c k))) as [H1 H2].
      * cbn [all_chars]. by rewrite Ew, Hw.
      * left. discriminate.
      * split; [|exact H2]. rewrite H1, rev_cons_app. reflexivity.
    + destruct Hk as [Hk|Hk]; [|cbn in Hk; congruence].
      destruct Hplain as [H1 H2]. split.
      * cbn [render]. by rewrite H1.
      * change (piece_keys (Param (String.rev k) :: ?l))
          with (String.rev k :: piece_keys l).
        constructor; [|exact H2]. split; [by apply rev_nonempty|by rewrite all_chars_rev].
  - cbn [scan_template].
    destruct ((code c =? 58) && starts_with_word r) eqn:E.
    + apply andb_true_iff in E as [Ec Er].
      destruct (IH (Some EmptyString) eq_refl (or_intror Er)) as [H1 H2].
      split; [|exact H2]. rewrite H1. apply Z.eqb_eq in Ec.
      rewrite <- (chr_code c), Ec. reflexivity.
    + destruct (IH None) as [H1 H2]. split; [cbn [render]; by rewrite H1|exact H2].
Qed.



Lemma colon_not_word : is_word ":" = false.
Proof. reflexivity. Qed.







(** ** The client: settling a call *)

(** The three things [handleReply] can do. *)
Lemma handleReply_cases c message :
  handleReply c message = (c, [])
  ∨ ∃ ref pending,
      reference message = Some ref ∧ pendingRequests c !! ref = Some pending
      ∧ ((∃ evs, handleReply c message = (clearTimeout (timeoutId pending) c, evs)
                 ∧ Forall (fun e => ∃ u, e = Updated (promise pending) u) evs)
         ∨ (∃ e, handleReply c message
                 = (pending_delete ref (clearTimeout (timeoutId pending) c), [e])
                 ∧ ((∃ r, e = Resolved (promise pending) r)
                    ∨ e = Rejected (promise pending) malformed_response))).
Proof.
  unfold handleReply.
  destruct (negb (String.eqb (author_id message) (targetBotId c))); [by left|].
  destruct (reference message) as [[|x k]|]; try by left.
  destruct (pendingRequests c !! String x k) as [p|] eqn:Hp; [|by left].
  destruct (cut_at_space (content message)) as [[statusStr bodyStr]|]; [|by left].
  destruct (parseInt statusStr) as [status|]; [|by left].
  destruct (JSON_parse bodyStr) as [body|].
  - right. exists (String x k), p. split; [reflexivity|]. split; [exact Hp|].
    destruct ((100 <=? status) && (status <? 200)).
    + left. eexists. split; [reflexivity|].
      destruct (onUpdate p); repeat constructor. eauto.
    + right. eexists. split; [reflexivity|]. left. eauto.
  - destruct (200 <=? status); [|by left].
    right. exists (String x k), p. split; [reflexivity|]. split; [exact Hp|].
    right. eexists. split; [reflexivity|]. by right.
Qed.

Lemma settlements_app p a b :
  settlements p (a ++ b) = (settlements p a + settlements p b)%nat.
Proof. unfold settlements. rewrite List.filter_app, length_app. reflexivity. Qed.

Lemma settlements_none p evs :
  Forall (fun e => settles p e = false) evs → settlements p evs = 0%nat.
Proof.
  unfold settlements. induction 1 as [|e evs He _ IH]; [reflexivity|].
  cbn [List.filter]. rewrite He. exact IH.
Qed.

Lemma retired_delete p c k t :
  retired p c →
  retired p (with_tables c (base.delete k (pendingRequests c)) (base.delete t (timers c))).
Proof.
  intros [H1 H2]. split; [exact H1|]. cbn. intros k' e He.
  apply lookup_delete_Some in He as [_ He]. eauto.
Qed.

(** A retired promise stays retired, and no step settles it. *)
Lemma step_retired c i p :
  client_wf c → retired p c →
  retired p (client_step c i).1
  ∧ Forall (fun e => settles p e = false) (client_step c i).2.
Proof.
  intros (I1 & I2 & I3) [R1 R2].
  destruct i as [message|t|m route options sent_id]; cbn [client_step].
  - destruct (handleReply_cases c message) as [->|(ref & pending & _ & Hp & H)].
    { split; [by split|constructor]. }
    assert (Hne : Nat.eqb p (promise pending) = false).
    { apply Nat.eqb_neq. intros ->. by apply (R2 _ _ Hp). }
    destruct H as [(evs & -> & Hev)|(e & -> & He)]; cbn [fst snd].
    + split.
      * split; [exact R1|]. cbn. exact R2.
      * eapply Forall_impl; [exact Hev|]. intros e [u ->]. reflexivity.
    + split.
      * rewrite pending_delete_clearTimeout. by apply retired_delete.
      * constructor; [|constructor].
        destruct He as [[r ->]| ->]; cbn [settles]; exact Hne.
  - unfold fire. destruct (timers c !! t) as [info|] eqn:Ht.
    2:{ split; [by split|constructor]. }
    cbn [fst snd]. destruct (I1 t info Ht) as (e & He & _ & Hprom). split.
    + by apply retired_delete.
    + constructor; [|constructor]. cbn [settles]. apply Nat.eqb_neq.
      intros ->. apply (R2 _ _ He). exact Hprom.
  - unfold makeRequest.
    destruct (requestString (targetBotId c) m route (opt_body options)); cbn [fst snd].
    + split; [|repeat constructor]. split; [cbn; lia|]. cbn. intros k e He.
      apply lookup_insert_Some in He as [[_ <-]|[_ He]]; cbn; [lia|eauto].
    + split.
      * split; [cbn; lia|]. cbn. exact R2.
      * constructor; [|constructor]. cbn [settles]. apply Nat.eqb_neq. lia.
Qed.

(** A step settles a promise at most once, and retires it when it does. *)
Lemma step_settles c i p :
  client_wf c →
  (settlements p (client_step c i).2 <= 1)%nat
  ∧ (settlements p (client_step c i).2 = 1%nat → retired p (client_step c i).1).
Proof.
  intros (I1 & I2 & I3).
  assert (Hone : ∀ e : ClientEvent, (settlements p [e] <= 1)%nat).
  { intros e. unfold settlements. cbn. destruct (settles p e); simpl; lia. }
  assert (Hsettled : ∀ q e, (∃ r, e = Resolved q r) ∨ (∃ r, e = Rejected q r) →
                            settlements p [e] = 1%nat → p = q).
  { intros q e He Hs. unfold settlements in Hs. cbn in Hs.
    destruct He as [[r ->]|[r ->]]; cbn [settles] in Hs;
      destruct (Nat.eqb p q) eqn:E; try discriminate; by apply Nat.eqb_eq. }
  assert (Hdel : ∀ k e t, pendingRequests c !! k = Some e →
            retired (promise e)
              (with_tables c (base.delete k (pendingRequests c)) (base.delete t (timers c)))).
  { intros k e t He. split; [cbn; eauto|]. cbn. intros k' e' He' Heq.
    apply lookup_delete_Some in He' as [Hne He'].
    apply Hne. symmetry. eapply I3; eauto. }
  destruct i as [message|t|m route options sent_id]; cbn [client_step].
  - destruct (handleReply_cases c message) as [->|(ref & pending & _ & Hp & H)].
    { split; [unfold settlements; simpl; lia|unfold settlements; simpl; discriminate]. }
    destruct H as [(evs & -> & Hev)|(e & -> & He)]; cbn [fst snd].
    + assert (Hz : settlements p evs = 0%nat).
      { apply settlements_none. eapply Forall_impl; [exact Hev|].
        intros e [u ->]. reflexivity. }
      rewrite Hz. split; [lia|discriminate].
    + split; [apply Hone|]. intros Hs.
      assert (p = promise pending) as ->.
      { apply (Hsettled _ e); [|exact Hs].
        destruct He as [He| ->]; [by left|right; eauto]. }
      rewrite pending_delete_clearTimeout. by apply Hdel.
  - unfold fire. destruct (timers c !! t) as [info|] eqn:Ht.
    2:{ split; [unfold settlements; simpl; lia|unfold settlements; simpl; discriminate]. }
    cbn [fst snd]. split; [apply Hone|]. intros Hs.
    destruct (I1 t info Ht) as (e & He & _ & Hprom).
    assert (p = timer_promise info) as -> by (eapply Hsettled; [|exact Hs]; right; eauto).
    rewrite <- Hprom. by apply Hdel.
  - unfold makeRequest.
    destruct (requestString (targetBotId c) m route (opt_body options)); cbn [fst snd].
    + split; [apply Hone|]. unfold settlements. simpl. discriminate.
    + split; [apply Hone|]. intros Hs.
      assert (p = next_id c) as -> by (eapply Hsettled; [|exact Hs]; right; eauto).
      split; [cbn; lia|]. cbn. intros k e He Heq. specialize (I2 k e He). lia.
Qed.

Lemma fresh_step c i rest :
  fresh_ids c (i :: rest) →
  (∀ m route options sent_id, i = InRequest m route options sent_id →
                              pendingRequests c !! sent_id = None)
  ∧ fresh_ids (client_step c i).1 rest.
Proof.
  intros [H1 H2]. split; [|exact H2].
  intros m route options sent_id ->. exact H1.
Qed.

Lemma client_run_cons c i rest :
  client_run c (i :: rest) =
    ((client_run (client_step c i).1 rest).1,
     (client_step c i).2 ++ (client_run (client_step c i).1 rest).2).
Proof.
  cbn [client_run]. destruct (client_step c i) as [c1 ev1]. cbn [fst snd].
  destruct (client_run c1 rest) as [c2 ev2]. reflexivity.
Qed.

Lemma run_retired inputs : ∀ c p,
  client_wf c → fresh_ids c inputs → retired p c →
  settlements p (client_run c inputs).2 = 0%nat.
Proof.
  induction inputs as [|i rest IH]; intros c p Hwf Hfresh Hr; [reflexivity|].
  apply fresh_step in Hfresh as [Hi Hrest].
  rewrite client_run_cons. cbn [snd]. rewrite settlements_app.
  destruct (step_retired c i p Hwf Hr) as [Hr' Hq].
  rewrite (settlements_none _ _ Hq).
  rewrite (IH _ p); [reflexivity| |exact Hrest|exact Hr'].
  by apply client_wf_step.
Qed.

(** X9.  From a client whose tables satisfy the invariant, along any
    sequence of replies, timers that run and new requests in which no new
    request gets the identifier of a message whose request is pending,
    every promise is resolved or rejected at most once. *)
Theorem settled_at_most_once (c : BotAPIClient) (inputs : list ClientInput) (p : nat) :
  client_wf c → fresh_ids c inputs →
  (settlements p (client_run c inputs).2 <= 1)%nat.
Proof.
  revert c. induction inputs as [|i rest IH]; intros c Hwf Hfresh; [unfold settlements; simpl; lia|].
  apply fresh_step in Hfresh as [Hi Hrest].
  rewrite client_run_cons. cbn [snd]. rewrite settlements_app.
  assert (Hwf' : client_wf (client_step c i).1) by by apply client_wf_step.
  destruct (step_settles c i p Hwf) as [Hle Hret].
  destruct (settlements p (client_step c i).2) as [|[|n]] eqn:E; [|  |lia].
  - specialize (IH _ Hwf' Hrest). lia.
  - rewrite (run_retired rest _ p Hwf' Hrest (Hret eq_refl)). lia.
Qed.

Lemma settled_at_most_once_witness :
  (settlements 0
     (client_run example_client
        [InReply (reply_message "a1" "r1" "200 [1]"); InFire 0;
         InReply (reply_message "a2" "r1" "500 [2]");
         InRequest GET "/slow" no_options "r1"]).2 <= 1)%nat.
Proof.
  apply settled_at_most_once; [apply example_client_wf|].
  vm_compute. auto.
Defined.

(** *** Timeouts *)

(** X10.  When the timer of a request just sent runs, the promise of the
    request is rejected with the time-out message, which names the
    time-out of the options or else the default of the client; the entry
    and the timer are removed, every later message that refers to the
    request is ignored, and the timer cannot run a second time. *)
Theorem timeout_rejects_and_forgets (c : BotAPIClient) (m : HttpMethod) (route : string)
    (options : ClientRequestOptions) (sent_id text : string) :
  requestString (targetBotId c) m route (opt_body options) = Some text →
  let c1 := (makeRequest m route options sent_id c).1 in
  let c2 := (fire (next_id c) c1).1 in
  (makeRequest m route options sent_id c).2 = [Sent text]
  ∧ (fire (next_id c) c1).2
    = [Rejected (next_id c)
         (timeout_reason (default (defaultTimeout c) (opt_timeout options)))]
  ∧ pendingRequests c2 !! sent_id = None
  ∧ timers c2 !! next_id c = None
  ∧ (∀ message, reference message = Some sent_id → handleReply c2 message = (c2, []))
  ∧ fire (next_id c) c2 = (c2, []).
Proof.
  intros Ht c1 c2.
  assert (E1 : makeRequest m route options sent_id c =
            ({| targetBotId := targetBotId c; defaultTimeout := defaultTimeout c;
                pendingRequests :=
                  <[sent_id := {| promise := next_id c; onUpdate := opt_onUpdate options;
                                  timeoutId := next_id c |}]> (pendingRequests c);
                timers :=
                  <[next_id c := {| timer_message := sent_id; timer_promise := next_id c;
                                    timer_timeout :=
                                      default (defaultTimeout c) (opt_timeout options) |}]>
                    (timers c);
                next_id := S (next_id c) |}, [Sent text]))
    by (unfold makeRequest; rewrite Ht; reflexivity).
  assert (E2 : fire (next_id c) c1 =
            (with_tables c1 (base.delete sent_id (pendingRequests c1))
                            (base.delete (next_id c) (timers c1)),
             [Rejected (next_id c)
                (timeout_reason (default (defaultTimeout c) (opt_timeout options)))])).
  { subst c1. rewrite E1. unfold fire. cbn [fst timers]. rewrite lookup_insert_eq.
    reflexivity. }
  assert (P : pendingRequests c2 !! sent_id = None).
  { subst c2. rewrite E2. cbn. apply lookup_delete_eq. }
  assert (T : timers c2 !! next_id c = None).
  { subst c2. rewrite E2. cbn. apply lookup_delete_eq. }
  split; [by rewrite E1|]. split; [by rewrite E2|]. split; [exact P|]. split; [exact T|].
  split.
  - intros message Hr. unfold handleReply. rewrite Hr.
    destruct (negb _); [reflexivity|].
    destruct sent_id; [reflexivity|]. rewrite P. reflexivity.
  - unfold fire. rewrite T. reflexivity.
Qed.

Lemma timeout_rejects_and_forgets_witness :
  let c1 := (makeRequest GET "/slow" watching "r1" (new_BotAPIClient "42" None)).1 in
  let c2 := (fire 0 c1).1 in
  (fire 0 c1).2
  = [Rejected 0 "Request timed out after 5000ms waiting for an initial response."]
  ∧ handleReply c2 (reply_message "a1" "r1" "200 [1]") = (c2, []).
Proof.
  intros c1 c2.
  destruct (timeout_rejects_and_forgets (new_BotAPIClient "42" None) GET "/slow" watching
              "r1" "<@42>:api GET %2Fslow" eq_refl) as (_ & H2 & _ & _ & H5 & _).
  split; [exact H2|]. apply H5. reflexivity.
Defined.

(** *** Other calls are left alone *)

Lemma reachable_ids c :
  client_reachable c → ∀ k e, pendingRequests c !! k = Some e → timeoutId e = promise e.
Proof.
  induction 1 as [target timeout|c i _ IH _]; intros k e He.
  - cbn in He. by rewrite lookup_empty in He.
  - destruct i as [message|t|m route options sent_id]; cbn [client_step] in He.
    + destruct (handleReply_cases c message) as [E|(ref & pending & _ & _ & H)].
      { rewrite E in He. eauto. }
      destruct H as [(evs & E & _)|(ev & E & _)]; rewrite E in He; cbn in He.
      * eauto.
      * apply lookup_delete_Some in He as [_ He]. eauto.
    + unfold fire in He. destruct (timers c !! t); cbn in He; [|eauto].
      apply lookup_delete_Some in He as [_ He]. eauto.
    + unfold makeRequest in He.
      destruct (requestString (targetBotId c) m route (opt_body options)); cbn in He;
        [|eauto].
      apply lookup_insert_Some in He as [[_ <-]|[_ He]]; [reflexivity|eauto].
Qed.

(** X11.  In a reachable client, a message that does not refer to the
    pending request [k] leaves the entry of [k] and its timer as they are,
    and causes no event on the promise of [k]. *)
Theorem reply_leaves_other_calls (c : BotAPIClient) (message : Message) (k : string)
    (e : PendingRequest) :
  client_reachable c →
  reference message ≠ Some k →
  pendingRequests c !! k = Some e →
  pendingRequests (handleReply c message).1 !! k = Some e
  ∧ timers (handleReply c message).1 !! timeoutId e = timers c !! timeoutId e
  ∧ Forall (fun ev => event_promise ev ≠ Some (promise e)) (handleReply c message).2.
Proof.
  intros Hreach Hk He.
  destruct (handleReply_cases c message) as [->|(ref & pending & Hr & Hp & H)].
  { split; [exact He|]. split; [reflexivity|constructor]. }
  assert (Hne : ref ≠ k) by congruence.
  pose proof (client_reachable_wf c Hreach) as (I1 & I2 & I3).
  assert (Hprom : promise pending ≠ promise e).
  { intros Heq. apply Hne. eapply I3; eauto. }
  assert (Hid : timeoutId pending ≠ timeoutId e).
  { rewrite (reachable_ids c Hreach _ _ Hp), (reachable_ids c Hreach _ _ He). exact Hprom. }
  destruct H as [(evs & -> & Hev)|(ev & -> & Hev)]; cbn [fst snd].
  - split; [exact He|]. split.
    + cbn. by rewrite lookup_delete_ne.
    + eapply Forall_impl; [exact Hev|]. intros ev [u ->]. cbn. congruence.
  - split; [|split].
    + cbn. by rewrite lookup_delete_ne.
    + cbn. by rewrite lookup_delete_ne.
    + constructor; [|constructor].
      destruct Hev as [[r ->]| ->]; cbn; congruence.
Qed.

Lemma reply_leaves_other_calls_witness :
  let c := (client_step example_client (InRequest GET "/balance/7" no_options "r2")).1 in
  let e := {| promise := 1; onUpdate := false; timeoutId := 1 |} in
  let message := reply_message "a1" "r1" "200 [1]" in
  pendingRequests (handleReply c message).1 !! "r2" = Some e
  ∧ timers (handleReply c message).1 !! timeoutId e = timers c !! timeoutId e
  ∧ Forall (fun ev => event_promise ev ≠ Some (promise e)) (handleReply c message).2.
Proof.
  intros c e message.
  apply (reply_leaves_other_calls c message "r2" e); [|discriminate|reflexivity].
  apply (reachable_step example_client (InRequest GET "/balance/7" no_options "r2")).
  - apply (reachable_step (new_BotAPIClient "42" None) (InRequest GET "/slow" watching "r1")).
    + apply reachable_new.
    + intros ? ? ? ? [= <- <- <- <-]. reflexivity.
  - intros ? ? ? ? [= <- <- <- <-]. reflexivity.
Defined.

(** ** JSON texts read back *)

(** *** Numbers *)

Lemma normalise_normal m e :
  (if m =? 0 then e =? 0 else negb (m mod 10 =? 0)) = true → normalise m e = (m, e).
Proof.
  unfold normalise. cbn [strip_zeros]. destruct (m =? 0) eqn:E.
  - intros He. apply Z.eqb_eq in E, He. subst. reflexivity.
  - intros H. apply negb_true_iff in H. rewrite H. reflexivity.
Qed.

Lemma strip_zeros_pow e : ∀ fuel m a,
  m mod 10 ≠ 0 → (e < fuel)%nat →
  strip_zeros fuel (m * 10 ^ Z.of_nat e) a = (m, a + Z.of_nat e).
Proof.
  induction e as [|e IH]; intros fuel m a Hm Hf; destruct fuel as [|f]; try lia;
    cbn [strip_zeros].
  - change (10 ^ Z.of_nat 0) with 1. rewrite Z.mul_1_r.
    destruct (m =? 0) eqn:E.
    { apply Z.eqb_eq in E. subst. exfalso. apply Hm. reflexivity. }
    apply Z.eqb_neq in Hm. rewrite Hm. f_equal. lia.
  - rewrite Nat2Z.inj_succ, Z.pow_succ_r by lia.
    assert (Hz : m ≠ 0) by (intros ->; apply Hm; reflexivity).
    assert (Hp : 0 < 10 ^ Z.of_nat e) by (apply Z.pow_pos_nonneg; lia).
    replace (m * (10 * 10 ^ Z.of_nat e)) with (m * 10 ^ Z.of_nat e * 10) by ring.
    assert (Hnz : (m * 10 ^ Z.of_nat e * 10 =? 0) = false) by (apply Z.eqb_neq; nia).
    rewrite Hnz, Z.mod_mul by lia. cbn [Z.eqb]. rewrite Z.div_mul by lia.
    rewrite IH by (assumption || lia). f_equal. lia.
Qed.

Lemma normalise_pow m e :
  m mod 10 ≠ 0 → 0 <= e → normalise (m * 10 ^ e) 0 = (m, e).
Proof.
  intros Hm He. unfold normalise.
  assert (Hz : m ≠ 0) by (intros ->; apply Hm; reflexivity).
  rewrite <- (Z2Nat.id e He) at 2.
  rewrite strip_zeros_pow; [f_equal; lia|exact Hm|].
  assert (Hle : e <= Z.log2 (Z.abs (m * 10 ^ e))).
  { apply Z.le_trans with (Z.log2 (2 ^ e)); [rewrite Z.log2_pow2 by exact He; lia|].
    apply Z.log2_le_mono.
    rewrite Z.abs_mul, (Z.abs_eq (10 ^ e)) by (apply Z.pow_nonneg; lia).
    pose proof (Z.pow_le_mono_l 2 10 e ltac:(lia)) as H2.
    pose proof (Z.pow_pos_nonneg 2 e ltac:(lia) He). nia. }
  lia.
Qed.

Lemma digits_go_head f : ∀ n acc,
  0 < n < 10 ^ Z.of_nat (S f) →
  ∃ c r, digits_go (S f) n acc = String c r ∧ code c ≠ 48.
Proof.
  induction f as [|f IH]; intros n acc Hn; rewrite digits_go_step.
  - assert (Hlt : (n <? 10) = true) by (apply Z.ltb_lt; simpl in Hn; lia).
    rewrite Hlt. apply Z.ltb_lt in Hlt. eexists. eexists. split; [reflexivity|].
    unfold digit_char. rewrite Z.mod_small, code_chr by lia. lia.
  - destruct (n <? 10) eqn:E.
    + apply Z.ltb_lt in E. eexists. eexists. split; [reflexivity|].
      unfold digit_char. rewrite Z.mod_small, code_chr by lia. lia.
    + apply Z.ltb_ge in E. apply IH. split.
      * apply Z.div_str_pos. lia.
      * apply Z.div_lt_upper_bound; [lia|].
        rewrite (Nat2Z.inj_succ (S f)), Z.pow_succ_r in Hn by lia. lia.
Qed.

Lemma digits_head n : 0 < n → ∃ c r, digits n = String c r ∧ code c ≠ 48.
Proof.
  intros Hn. unfold digits. apply digits_go_head. split; [lia|].
  rewrite Nat2Z.inj_succ, Z2Nat.id by apply Z.log2_nonneg.
  pose proof (Z.log2_spec n ltac:(lia)) as [_ Hlt].
  pose proof (Z.log2_nonneg n) as Hl.
  pose proof (Z.pow_le_mono_l 2 10 (Z.succ (Z.log2 n)) ltac:(lia)). lia.
Qed.

Lemma digits_value_acc s : ∀ a,
  digits_value a s = a * 10 ^ Z.of_nat (String.length s) + digits_value 0 s.
Proof.
  induction s as [|c s IH]; intros a.
  - cbn. lia.
  - cbn [digits_value String.length]. rewrite IH, (IH (10 * 0 + (code c - 48))).
    rewrite Nat2Z.inj_succ, Z.pow_succ_r by lia. ring.
Qed.

Lemma digits_value_nonneg s :
  all_chars is_digit s = true → 0 <= digits_value 0 s.
Proof.
  induction s as [|c s IH]; intros H; [cbn; lia|].
  cbn [all_chars] in H. apply andb_true_iff in H as [Hc Hs].
  cbn [digits_value]. rewrite digits_value_acc.
  unfold is_digit, between in Hc. apply andb_true_iff in Hc as [H1 _].
  apply Z.leb_le in H1. specialize (IH Hs).
  assert (0 <= 10 ^ Z.of_nat (String.length s)) by (apply Z.pow_nonneg; lia). nia.
Qed.

Lemma digits_value_lower c r :
  all_chars is_digit (String c r) = true → code c ≠ 48 →
  10 ^ Z.of_nat (String.length r) <= digits_value 0 (String c r).
Proof.
  intros H Hc. cbn [all_chars] in H. apply andb_true_iff in H as [Hd Hr].
  cbn [digits_value]. rewrite digits_value_acc.
  unfold is_digit, between in Hd. apply andb_true_iff in Hd as [H1 _].
  apply Z.leb_le in H1. pose proof (digits_value_nonneg r Hr).
  assert (0 <= 10 ^ Z.of_nat (String.length r)) by (apply Z.pow_nonneg; lia). nia.
Qed.

Lemma digits_value_app d : ∀ a z, digits_value a (d +:+ z) = digits_value (digits_value a d) z.
Proof.
  induction d as [|c d IH]; intros a z; [reflexivity|].
  rewrite app_cons. cbn [digits_value]. apply IH.
Qed.

Lemma digits_value_zeros n : ∀ a, digits_value a (zeros n) = a * 10 ^ Z.of_nat n.
Proof.
  induction n as [|n IH]; intros a.
  - cbn. lia.
  - cbn [zeros digits_value]. rewrite IH, Nat2Z.inj_succ, Z.pow_succ_r by lia.
    change (code "0") with 48. ring.
Qed.

Lemma zeros_digits n : all_chars is_digit (zeros n) = true.
Proof. induction n as [|n IH]; [reflexivity|]. cbn [zeros all_chars]. by rewrite IH. Qed.

Lemma app_length_s a b : String.length (a +:+ b) = (String.length a + String.length b)%nat.
Proof. induction a as [|c a IH]; [reflexivity|]. rewrite app_cons. cbn. by rewrite IH. Qed.

Lemma delimited_cases rest :
  delimited rest = true →
  rest = EmptyString
  ∨ ∃ c r, rest = String c r ∧ (code c = 44 ∨ code c = 93 ∨ code c = 125).
Proof.
  destruct rest as [|c r]; [by left|]. cbn [delimited]. intros H. right.
  exists c, r. split; [reflexivity|].
  apply orb_true_iff in H as [H|H]; [apply orb_true_iff in H as [H|H]|];
    apply Z.eqb_eq in H; auto.
Qed.

Lemma take_digits_app d rest :
  all_chars is_digit d = true → delimited rest = true →
  take_digits (d +:+ rest) = (d, rest).
Proof.
  intros Hd Hr. induction d as [|c d IH].
  - rewrite app_empty_l.
    destruct (delimited_cases rest Hr) as [->|(c & r & -> & Hc)]; [reflexivity|].
    cbn [take_digits].
    assert (E : is_digit c = false).
    { unfold is_digit, between. apply andb_false_iff.
      destruct Hc as [->|[->| ->]]; [left|right|right]; reflexivity. }
    rewrite E. reflexivity.
  - cbn [all_chars] in Hd. apply andb_true_iff in Hd as [Hc Hd].
    rewrite app_cons. cbn [take_digits]. rewrite Hc, (IH Hd). reflexivity.
Qed.

(** A run of digits without superfluous leading zero, with or without a
    minus sign, is read as the integer it denotes. *)
Lemma parse_number_digits (neg : bool) c more rest :
  all_chars is_digit (String c more) = true →
  (code c =? 48) && negb (match more with EmptyString => true | _ => false end) = false →
  delimited rest = true →
  parse_number ((if neg then String "-" (String c more) else String c more) +:+ rest)
  = Some (let '(m', e') :=
            normalise (if neg then - digits_value 0 (String c more)
                       else digits_value 0 (String c more)) 0 in
          JNum m' e', rest).
Proof.
  intros Hd Hz Hr.
  assert (Hc45 : (code c =? 45) = false).
  { cbn [all_chars] in Hd. apply andb_true_iff in Hd as [Hc _].
    unfold is_digit, between in Hc. apply andb_true_iff in Hc as [H1 _].
    apply Z.leb_le in H1. apply Z.eqb_neq. lia. }
  assert (Htail : ∀ s1,
    s1 = String c more +:+ rest →
    (let '(ip, s2) := take_digits s1 in
     match ip with
     | EmptyString => None
     | String d more0 =>
         if (code d =? 48) && negb (match more0 with EmptyString => true | _ => false end)
         then None
         else
           let '(fp, s3, okf) :=
             match s2 with
             | String c0 r =>
                 if code c0 =? 46 then
                   let '(f, rest0) := take_digits r in
                   (f, rest0, negb (match f with EmptyString => true | _ => false end))
                 else (EmptyString, s2, true)
             | EmptyString => (EmptyString, s2, true)
             end in
           let '(ex, s4, oke) :=
             match s3 with
             | String c0 r =>
                 if (code c0 =? 101) || (code c0 =? 69) then
                   let '(eneg, r1) :=
                     match r with
                     | String g r' =>
                         if code g =? 45 then (true, r')
                         else if code g =? 43 then (false, r') else (false, r)
                     | EmptyString => (false, r)
                     end in
                   let '(x, rest0) := take_digits r1 in
                   (if eneg then - digits_value 0 x else digits_value 0 x, rest0,
                    negb (match x with EmptyString => true | _ => false end))
                 else (0, s3, true)
             | EmptyString => (0, s3, true)
             end in
           if okf && oke then
             let m := digits_value 0 (ip +:+ fp) in
             let '(m', e') := normalise (if neg then - m else m)
                                        (ex - Z.of_nat (String.length fp)) in
             Some (JNum m' e', s4)
           else None
     end)
    = Some (let '(m', e') :=
              normalise (if neg then - digits_value 0 (String c more)
                         else digits_value 0 (String c more)) 0 in
            JNum m' e', rest)).
  { intros s1 ->. rewrite take_digits_app by assumption. rewrite Hz.
    destruct (delimited_cases rest Hr) as [->|(c0 & r & -> & Hc0)].
    - cbn [andb]. rewrite app_empty_r. cbn [String.length Z.of_nat]. rewrite Z.sub_0_r.
      destruct (normalise _ 0). reflexivity.
    - assert (E46 : (code c0 =? 46) = false) by (apply Z.eqb_neq; lia).
      assert (E101 : (code c0 =? 101) = false) by (apply Z.eqb_neq; lia).
      assert (E69 : (code c0 =? 69) = false) by (apply Z.eqb_neq; lia).
      rewrite E46. cbn iota. rewrite E101, E69. cbn [orb andb].
      rewrite app_empty_r. cbn [String.length Z.of_nat]. rewrite Z.sub_0_r.
      destruct (normalise _ 0). reflexivity. }
  unfold parse_number. destruct neg.
  - rewrite app_cons. change (code "-" =? 45) with true. cbv iota beta.
    apply Htail. reflexivity.
  - rewrite app_cons, Hc45. cbv iota beta. rewrite <- app_cons.
    apply Htail. reflexivity.
Qed.

Lemma pow10_16 : 2 ^ 53 < 10 ^ 16.
Proof. reflexivity. Qed.

(** The text of a safe integer is its decimal numeral. *)
Lemma number_text m e :
  safe_integer m e = true →
  ∃ (neg : bool) c more,
    number_to_string m e = (if neg then String "-" (String c more) else String c more)
    ∧ all_chars is_digit (String c more) = true
    ∧ (code c =? 48) && negb (match more with EmptyString => true | _ => false end) = false
    ∧ normalise (if neg then - digits_value 0 (String c more)
                 else digits_value 0 (String c more)) 0 = (m, e).
Proof.
  unfold safe_integer. intros H.
  apply andb_true_iff in H as [H Hb]. apply andb_true_iff in H as [He Hn].
  apply Z.leb_le in He. apply Z.ltb_lt in Hb.
  unfold number_to_string. rewrite (normalise_normal m e Hn).
  destruct (m =? 0) eqn:Ez.
  - apply Z.eqb_eq in Ez, Hn. subst. exists false, "0"%char, EmptyString.
    repeat split.
  - apply Z.eqb_neq in Ez. apply negb_true_iff, Z.eqb_neq in Hn.
    destruct (digits_spec (Z.abs m) ltac:(lia)) as (_ & Hall & Hv).
    destruct (digits_head (Z.abs m) ltac:(lia)) as (c & r & Hd & Hc).
    rewrite Hd in *.
    pose proof (digits_value_lower c r Hall Hc) as Hlow. rewrite Hv in Hlow.
    assert (Hlen : Z.of_nat (String.length r) + e < 16).
    { apply (Z.pow_lt_mono_r_iff 10); [lia|lia|].
      rewrite Z.pow_add_r by lia.
      assert (0 < 10 ^ e) by (apply Z.pow_pos_nonneg; lia).
      pose proof pow10_16. nia. }
    cbn [String.length]. rewrite Nat2Z.inj_succ.
    assert (E1 : (Z.succ (Z.of_nat (String.length r)) <=?
                  Z.succ (Z.of_nat (String.length r)) + e) = true) by (apply Z.leb_le; lia).
    assert (E2 : (Z.succ (Z.of_nat (String.length r)) + e <=? 21) = true)
      by (apply Z.leb_le; lia).
    rewrite E1, E2. cbn [andb].
    replace (Z.succ (Z.of_nat (String.length r)) + e - Z.succ (Z.of_nat (String.length r)))
      with e by lia.
    exists (m <? 0), c, (r +:+ zeros (Z.to_nat e)). rewrite <- !app_cons.
    assert (Hval : digits_value 0 (String c r +:+ zeros (Z.to_nat e)) = Z.abs m * 10 ^ e).
    { rewrite digits_value_app, Hv, digits_value_zeros, Z2Nat.id by lia. reflexivity. }
    split; [destruct (m <? 0); reflexivity|]. split; [|split].
    + rewrite all_chars_app, Hall, zeros_digits. reflexivity.
    + apply Z.eqb_neq in Hc. rewrite Hc. reflexivity.
    + rewrite Hval. destruct (m <? 0) eqn:Em.
      * apply Z.ltb_lt in Em. rewrite Z.abs_neq by lia.
        replace (- (- m * 10 ^ e)) with (m * 10 ^ e) by ring.
        by apply normalise_pow.
      * apply Z.ltb_ge in Em. rewrite Z.abs_eq by lia. by apply normalise_pow.
Qed.

Lemma parse_value_number f c r :
  is_digit c = true ∨ code c = 45 →
  parse_value (S f) (String c r) = parse_number (String c r).
Proof.
  intros H. all_bytes c;
    first [ by (exfalso; destruct H as [H|H]; vm_compute in H; discriminate)
          | reflexivity ].
Qed.

(** *** Arrays and objects *)

Lemma jsval_nested_ind (P : jsval → Prop) :
  P JUndefined → P JNull → (∀ b, P (JBool b)) → (∀ m e, P (JNum m e)) →
  (∀ n, P (JBigInt n)) → (∀ s, P (JStr s)) →
  (∀ items, Forall P items → P (JArr items)) →
  (∀ props, Forall (fun kv => P (snd kv)) props → P (JObj props)) →
  ∀ v, P v.
Proof.
  intros H1 H2 H3 H4 H5 H6 H7 H8. fix IH 1.
  intros [ | |b|m e|n|s|items|props];
    [exact H1|exact H2|apply H3|apply H4|apply H5|apply H6| | ].
  - apply H7. induction items as [|x xs IHxs]; constructor; [apply IH|exact IHxs].
  - apply H8. induction props as [|[k x] xs IHxs]; constructor; [apply IH|exact IHxs].
Qed.

Lemma skip_value_start c r : value_start c = true → skip_json_ws (String c r) = String c r.
Proof.
  intros H. all_bytes c;
    first [ by (exfalso; vm_compute in H; discriminate) | reflexivity ].
Qed.

Lemma value_start_not_closing c :
  value_start c = true → (code c =? 93) = false ∧ (code c =? 125) = false.
Proof.
  intros H. all_bytes c;
    first [ by (exfalso; vm_compute in H; discriminate) | split; reflexivity ].
Qed.

Lemma stringify_elems_cons x r :
  stringify_elems (x :: r) =
    match JSON_stringify x, stringify_elems r with
    | SText t, Some ts => Some (t :: ts)
    | SUndefined, Some ts => Some ("null" :: ts)
    | _, _ => None
    end.
Proof. reflexivity. Qed.

Lemma stringify_members_cons k x r :
  stringify_members ((k, x) :: r) =
    match JSON_stringify x, stringify_members r with
    | SText t, Some ts => Some ((quote k +:+ ":" +:+ t) :: ts)
    | SUndefined, Some ts => Some ts
    | _, _ => None
    end.
Proof. reflexivity. Qed.

Lemma commas_cons t t' ts : commas (t :: t' :: ts) = t +:+ String "," (commas (t' :: ts)).
Proof. reflexivity. Qed.

Lemma parse_elems_step f acc s :
  parse_elems (S f) acc s =
    match parse_value f s with
    | Some (v, rest) =>
        match skip_json_ws rest with
        | String c r =>
            if code c =? 44 then parse_elems f (acc ++ [v]) r
            else if code c =? 93 then Some (JArr (acc ++ [v]), r)
            else None
        | EmptyString => None
        end
    | None => None
    end.
Proof. reflexivity. Qed.

Lemma parse_members_step f acc k r :
  parse_members (S f) acc (quote k +:+ String ":" r) =
    match parse_value f r with
    | Some (v, rest1) =>
        match skip_json_ws rest1 with
        | String d r2 =>
            if code d =? 44 then parse_members f (obj_set k v acc) r2
            else if code d =? 125 then Some (JObj (obj_set k v acc), r2)
            else None
        | EmptyString => None
        end
    | None => None
    end.
Proof.
  unfold quote. rewrite app_cons, app_assoc_s, app_cons, app_empty_l.
  assert (E : ∀ x, parse_members (S f) acc (String dquote x) =
                   match parse_string_go None x with
                   | Some (k0, rest) =>
                       match skip_json_ws rest with
                       | String c r1 =>
                           if code c =? 58 then
                             match parse_value f r1 with
                             | Some (v, rest1) =>
                                 match skip_json_ws rest1 with
                                 | String d r2 =>
                                     if code d =? 44 then parse_members f (obj_set k0 v acc) r2
                                     else if code d =? 125
                                          then Some (JObj (obj_set k0 v acc), r2)
                                          else None
                                 | EmptyString => None
                                 end
                             | None => None
                             end
                           else None
                       | EmptyString => None
                       end
                   | None => None
                   end) by reflexivity.
  rewrite E, parse_quote_chars. reflexivity.
Qed.

Lemma reads_elems items :
  Forall (fun v => portable v = true → reads v) items →
  forallb portable items = true → items ≠ [] →
  ∃ ts, stringify_elems items = Some ts
        ∧ (∃ c r, commas ts = String c r ∧ value_start c = true)
        ∧ ∀ f acc rest, (String.length (commas ts) + 1 < f)%nat →
            parse_elems f acc (commas ts +:+ String "]" rest) = Some (JArr (acc ++ items), rest).
Proof.
  induction items as [|x xs IH]; intros HF Hp Hne; [congruence|].
  apply Forall_cons in HF as [Hx HF]. cbn [forallb] in Hp.
  apply andb_true_iff in Hp as [Hpx Hpxs].
  destruct (Hx Hpx) as (t & Ht & (c & r & -> & Hc) & Hparse).
  rewrite stringify_elems_cons, Ht.
  destruct xs as [|y ys].
  - exists [String c r]. split; [reflexivity|]. split; [by exists c, r|].
    intros f acc rest Hf. change (commas [String c r]) with (String c r) in *.
    destruct f as [|g]; [lia|]. rewrite parse_elems_step.
    cbn [String.length] in Hf.
    rewrite (Hparse g (String "]" rest) eq_refl ltac:(cbn [String.length]; lia)). reflexivity.
  - destruct (IH HF Hpxs ltac:(discriminate)) as (ts & Hts & (c' & r' & Hc' & Hv') & Hrest).
    rewrite Hts. destruct ts as [|t' ts]; [discriminate|].
    exists (String c r :: t' :: ts). split; [reflexivity|].
    rewrite commas_cons. split; [by exists c, (r +:+ String "," (commas (t' :: ts)))|].
    intros f acc rest Hf. rewrite app_length_s in Hf. cbn [String.length] in Hf.
    destruct f as [|g]; [lia|]. rewrite parse_elems_step.
    rewrite app_assoc_s, (app_cons ","%char).
    rewrite Hparse by (reflexivity || (cbn [String.length]; lia)).
    change (skip_json_ws (String "," ?s)) with (String "," s).
    change (code "," =? 44) with true. cbv iota.
    rewrite Hrest by lia. rewrite <- app_assoc. reflexivity.
Qed.

Lemma obj_replace_fresh k v acc :
  existsb (String.eqb k) (map fst acc) = false → obj_replace k v acc = None.
Proof.
  induction acc as [|[k' v'] acc IH]; intros H; [reflexivity|].
  cbn [map fst existsb] in H. apply orb_false_iff in H as [Hk H].
  cbn [obj_replace]. rewrite Hk, (IH H). reflexivity.
Qed.

Lemma obj_insert_index_last n k v acc :
  forallb (fun k' => match array_index k' with
                     | Some n' => n' <? n
                     | None => false
                     end) (map fst acc) = true →
  obj_insert_index n k v acc = acc ++ [(k, v)].
Proof.
  induction acc as [|[k' v'] acc IH]; intros H; [reflexivity|].
  cbn [map fst forallb] in H. apply andb_true_iff in H as [Hk H].
  cbn [obj_insert_index app]. destruct (array_index k') as [n'|]; [|discriminate].
  rewrite Hk, (IH H). reflexivity.
Qed.

Lemma obj_set_ordered k v acc ks :
  keys_ordered (map fst acc) (k :: ks) = true →
  obj_set k v acc = acc ++ [(k, v)]
  ∧ keys_ordered (map fst (acc ++ [(k, v)])) ks = true.
Proof.
  cbn [keys_ordered]. intros H.
  apply andb_true_iff in H as [H Hks]. apply andb_true_iff in H as [Hnew Hidx].
  apply negb_true_iff in Hnew. split.
  - unfold obj_set. rewrite (obj_replace_fresh k v acc Hnew).
    destruct (array_index k) as [n|]; [|reflexivity].
    by apply obj_insert_index_last.
  - rewrite map_app. exact Hks.
Qed.

Lemma reads_members props :
  Forall (fun kv => portable (snd kv) = true → reads (snd kv)) props →
  forallb (fun kv => portable (snd kv)) props = true → props ≠ [] →
  ∃ ts, stringify_members props = Some ts
        ∧ (∃ r, commas ts = String dquote r)
        ∧ ∀ f acc rest,
            keys_ordered (map fst acc) (map fst props) = true →
            (String.length (commas ts) + 1 < f)%nat →
            parse_members f acc (commas ts +:+ String "}" rest)
            = Some (JObj (acc ++ props), rest).
Proof.
  induction props as [|[k x] xs IH]; intros HF Hp Hne; [congruence|].
  apply Forall_cons in HF as [Hx HF]. cbn [forallb snd] in Hp, Hx.
  apply andb_true_iff in Hp as [Hpx Hpxs].
  destruct (Hx Hpx) as (t & Ht & (c & r & -> & Hc) & Hparse).
  rewrite stringify_members_cons, Ht.
  destruct xs as [|y ys].
  - exists [quote k +:+ ":" +:+ String c r]. split; [reflexivity|].
    split; [unfold quote; eexists; reflexivity|].
    intros f acc rest Hk Hf.
    change (commas [quote k +:+ ":" +:+ String c r]) with (quote k +:+ ":" +:+ String c r) in *.
    rewrite !app_length_s in Hf.
    destruct f as [|g]; [lia|].
    rewrite !app_assoc_s, (app_cons ":"%char), app_empty_l, parse_members_step.
    rewrite Hparse by (reflexivity || (cbn [String.length] in *; lia)).
    change (skip_json_ws (String "}" ?s)) with (String "}" s).
    change (code "}" =? 44) with false. change (code "}" =? 125) with true. cbv iota.
    cbn [map fst] in Hk. destruct (obj_set_ordered k x acc [] Hk) as [-> _]. reflexivity.
  - destruct (IH HF Hpxs ltac:(discriminate)) as (ts & Hts & (r' & Hr') & Hrest).
    rewrite Hts. destruct ts as [|t' ts]; [discriminate|].
    exists ((quote k +:+ ":" +:+ String c r) :: t' :: ts). split; [reflexivity|].
    rewrite commas_cons. split; [unfold quote; eexists; reflexivity|].
    intros f acc rest Hk Hf. rewrite !app_length_s in Hf. cbn [String.length] in Hf.
    destruct f as [|g]; [lia|].
    rewrite !app_assoc_s, (app_cons ":"%char), app_empty_l, parse_members_step.
    rewrite (app_cons ","%char).
    rewrite Hparse by (reflexivity || (cbn [String.length] in *; lia)).
    change (skip_json_ws (String "," ?s)) with (String "," s).
    change (code "," =? 44) with true. cbv iota.
    change (map fst ((k, x) :: y :: ys)) with (k :: map fst (y :: ys)) in Hk.
    destruct (obj_set_ordered k x acc _ Hk) as [-> Hk'].
    rewrite Hrest by (exact Hk' || lia). rewrite <- app_assoc. reflexivity.
Qed.

(** Every portable value is read back from its text. *)
Lemma portable_reads v : portable v = true → reads v.
Proof.
  induction v as [ | |b|m e|n|s|items IH|props IH] using jsval_nested_ind; intros Hp;
    try discriminate.
  - exists "null". split; [reflexivity|]. split; [by exists "n"%char, "ull"|].
    intros [|g] rest _ Hf; [cbn in Hf; lia|reflexivity].
  - destruct b.
    + exists "true". split; [reflexivity|]. split; [by exists "t"%char, "rue"|].
      intros [|g] rest _ Hf; [cbn in Hf; lia|reflexivity].
    + exists "false". split; [reflexivity|]. split; [by exists "f"%char, "alse"|].
      intros [|g] rest _ Hf; [cbn in Hf; lia|reflexivity].
  - cbn [portable] in Hp.
    destruct (number_text m e Hp) as (neg & c & more & Ht & Hd & Hz & Hn).
    exists (number_to_string m e). split; [reflexivity|].
    assert (Hc : is_digit c = true)
      by (cbn [all_chars] in Hd; by apply andb_true_iff in Hd as [Hc _]).
    split.
    { rewrite Ht. destruct neg; [by exists "-"%char, (String c more)|].
      exists c, more. split; [reflexivity|]. unfold value_start. by rewrite Hc. }
    intros [|g] rest Hr Hf; [lia|]. rewrite Ht.
    pose proof (parse_number_digits neg c more rest Hd Hz Hr) as Hnum.
    rewrite Hn in Hnum. rewrite <- Hnum. destruct neg.
    + rewrite app_cons. apply parse_value_number. by right.
    + rewrite app_cons. apply parse_value_number. by left.
  - exists (quote s). split; [reflexivity|].
    split; [unfold quote; eexists; eexists; split; reflexivity|].
    intros [|g] rest _ Hf; [lia|]. unfold quote.
    rewrite app_cons, app_assoc_s, app_cons, app_empty_l.
    rewrite parse_value_string, parse_quote_chars. reflexivity.
  - cbn [portable] in Hp. unfold reads. rewrite stringify_array.
    destruct items as [|x xs].
    { exists "[]". split; [reflexivity|]. split; [by exists "["%char, "]"|].
      intros [|g] rest _ Hf; [cbn in Hf; lia|reflexivity]. }
    destruct (reads_elems (x :: xs) IH Hp ltac:(discriminate))
      as (ts & -> & (c & r & Hc & Hv) & Hparse).
    eexists. split; [reflexivity|]. split; [eexists; eexists; split; reflexivity|].
    intros [|g] rest _ Hf; [lia|]. str_norm.
    rewrite app_cons, app_empty_l in Hf. cbn [String.length] in Hf.
    rewrite app_length_s in Hf. cbn [String.length] in Hf.
    assert (E : ∀ y, parse_value (S g) (String "[" y) =
                     match skip_json_ws y with
                     | String c1 r1 =>
                         if code c1 =? 93 then Some (JArr [], r1)
                         else parse_elems g [] (String c1 r1)
                     | EmptyString => None
                     end) by reflexivity.
    rewrite E. rewrite Hc at 1. rewrite app_cons, (skip_value_start c _ Hv).
    destruct (value_start_not_closing c Hv) as [-> _].
    rewrite <- app_cons, <- Hc. apply (Hparse g [] rest). lia.
  - cbn [portable] in Hp. apply andb_true_iff in Hp as [Hp Hk].
    unfold reads. rewrite stringify_object.
    destruct props as [|kx xs].
    { exists "{}". split; [reflexivity|]. split; [by exists "{"%char, "}"|].
      intros [|g] rest _ Hf; [cbn in Hf; lia|reflexivity]. }
    destruct (reads_members (kx :: xs) IH Hp ltac:(discriminate))
      as (ts & -> & (r & Hc) & Hparse).
    eexists. split; [reflexivity|]. split; [eexists; eexists; split; reflexivity|].
    intros [|g] rest _ Hf; [lia|]. str_norm.
    rewrite app_cons, app_empty_l in Hf. cbn [String.length] in Hf.
    rewrite app_length_s in Hf. cbn [String.length] in Hf.
    assert (E : ∀ y, parse_value (S g) (String "{" y) =
                     match skip_json_ws y with
                     | String c1 r1 =>
                         if code c1 =? 125 then Some (JObj [], r1)
                         else parse_members g [] (String c1 r1)
                     | EmptyString => None
                     end) by reflexivity.
    rewrite E. rewrite Hc at 1. rewrite app_cons.
    change (skip_json_ws (String dquote ?y)) with (String dquote y).
    change (code dquote =? 125) with false. cbv iota.
    rewrite <- app_cons, <- Hc. apply (Hparse g [] rest); [exact Hk|lia].
Qed.

Lemma JSON_parse_stringify v :
  portable v = true → ∃ t, JSON_stringify v = SText t ∧ JSON_parse t = Some v.
Proof.
  intros Hp. destruct (portable_reads v Hp) as (t & Ht & _ & Hparse).
  exists t. split; [exact Ht|]. unfold JSON_parse.
  specialize (Hparse (S (String.length t)) EmptyString eq_refl ltac:(lia)).
  rewrite app_empty_r in Hparse. rewrite Hparse. reflexivity.
Qed.

(** ** From the response object to the client *)







(** ** The commands [docs] and [routes], from the client to the server and back *)

Lemma match_mention_bare id :
  all_chars is_digit id = true → match_mention id ("<@" +:+ id +:+ ">:api") = Some EmptyString.
Proof.
  intros Hid.
  assert (Htail : mention_tail id (id +:+ ">:api") = Some EmptyString).
  { unfold mention_tail. rewrite strip_prefix_app. reflexivity. }
  unfold match_mention.
  change ("<@" +:+ id +:+ ">:api") with (String "<" (String "@" (id +:+ ">:api"))).
  cbn [strip_prefix Ascii.eqb Bool.eqb]. cbn iota.
  destruct id as [|d id'].
  - exact Htail.
  - rewrite app_cons. rewrite app_cons in Htail.
    cbn [all_chars] in Hid. apply andb_true_iff in Hid as [Hd _].
    rewrite (digit_not_bang d Hd). exact Htail.
Qed.

Lemma addressed_guard srv message :
  author_id message ≠ user_id srv → user_id srv ∈ mentions message →
  addressed_command srv message = trim <$> match_mention (user_id srv) (content message).
Proof.
  intros Ha Hm. unfold addressed_command.
  apply String.eqb_neq in Ha. rewrite Ha, (bool_decide_eq_true_2 _ Hm). reflexivity.
Qed.

(** X14.  The text sent by [docs] is answered by the server it addresses
    with one file named [api-docs.txt] that holds the docs string of the
    server; and [docs] resolves with the docs string when the first reply
    of the target to the request has an attachment whose text, once
    fetched, is that string. *)
Theorem docs_request_answered (env : Env) (srv : BotAPIServer) (c : BotAPIClient)
    (message : Message) (log : list Event) :
  targetBotId c = user_id srv →
  all_chars is_digit (user_id srv) = true →
  author_id message ≠ user_id srv →
  user_id srv ∈ mentions message →
  content message = docs_request c →
  (∃ ok : bool,
     handleMessage env srv message log =
       (if ok then Done else Threw "reply",
        log ++ [ReplyFile (msg_id message) "api-docs.txt" (docsString srv) ok]))
  ∧ (∀ fetch_text arrivals reply url more,
       awaitMessages (reply_filter c (msg_id message)) arrivals = Some reply →
       cm_attachments reply = url :: more →
       fetch_text url = Fulfilled (docsString srv) →
       (client_docs c fetch_text (msg_id message) arrivals).2 = Fulfilled (docsString srv)).
Proof.
  intros Ht Hid Ha Hm Hc. split.
  - unfold handleMessage. rewrite (addressed_guard srv message Ha Hm), Hc.
    unfold docs_request. rewrite Ht, (match_mention_bare _ Hid).
    cbn [fmap option_fmap option_map]. change (trim EmptyString) with EmptyString.
    cbn [String.eqb orb]. unfold bind, replyFile, ret. eexists. reflexivity.
  - intros fetch_text arrivals reply url more Hw Hatt Hfetch.
    unfold client_docs, docs_try. cbn [snd]. rewrite Hw, Hatt, Hfetch. reflexivity.
Qed.

Lemma docs_request_answered_witness :
  ∃ ok : bool,
    handleMessage example_env example_server (example_message "<@42>:api") [] =
      (if ok then Done else Threw "reply",
       [ReplyFile "m1" "api-docs.txt" "Amazing Bot Docs" ok]).
Proof.
  refine (proj1 (docs_request_answered example_env example_server example_client
                   (example_message "<@42>:api") [] eq_refl eq_refl _ _ eq_refl)).
  - discriminate.
  - by left.
Defined.

(** *** The route listing *)

Lemma stringify_received r :
  JSON_stringify (received_route_info r) = SText (route_info_text r).
Proof.
  unfold received_route_info, route_info_text. rewrite stringify_object.
  destruct (docs r); simpl; unfold commas; simpl; str_norm; reflexivity.
Qed.

Lemma stringify_received_routes rs :
  JSON_stringify (JArr (map received_route_info rs)) =
    SText ("[" +:+ commas (map route_info_text rs) +:+ "]").
Proof.
  rewrite stringify_array.
  rewrite (stringify_elems_texts (fun v => text_of (JSON_stringify v))).
  - rewrite map_map. do 4 f_equal.
    apply map_ext. intros r. rewrite stringify_received. reflexivity.
  - apply Forall_forall. intros v Hv.
    apply list_elem_of_In, in_map_iff in Hv as (r & <- & _).
    rewrite stringify_received. reflexivity.
Qed.

Lemma portable_received_routes rs : portable (JArr (map received_route_info rs)) = true.
Proof.
  cbn [portable]. induction rs as [|r rs IH]; [reflexivity|].
  cbn [map forallb]. rewrite IH, andb_true_r.
  unfold received_route_info. destruct (docs r); reflexivity.
Qed.

Lemma parse_route_listing rs :
  JSON_parse ("[" +:+ commas (map route_info_text rs) +:+ "]")
  = Some (JArr (map received_route_info rs)).
Proof.
  destruct (JSON_parse_stringify _ (portable_received_routes rs)) as (t & Ht & Hp).
  rewrite stringify_received_routes in Ht. injection Ht as <-. exact Hp.
Qed.

(** X15.  The text sent by [routes] is answered by the server it
    addresses with one reply, and [routes] reads from that reply the list
    of the registered routes, in registration order: for each route an
    object with its method, its template and, when it has some, its
    docs. *)
Theorem routes_round_trip (env : Env) (srv : BotAPIServer) (c : BotAPIClient)
    (message : Message) (log : list Event) :
  targetBotId c = user_id srv →
  all_chars is_digit (user_id srv) = true →
  author_id message ≠ user_id srv →
  user_id srv ∈ mentions message →
  content message = routes_request c →
  ∃ (ok : bool) (text : string),
    handleMessage env srv message log =
      (if ok then Done else Threw "reply", log ++ [Reply (msg_id message) text ok])
    ∧ ∀ arrivals reply,
        awaitMessages (reply_filter c (msg_id message)) arrivals = Some reply →
        content (cm_message reply) = text →
        (client_routes c (msg_id message) arrivals).2
        = Fulfilled (JArr (map received_route_info (routes srv))).
Proof.
  intros Ht Hid Ha Hm Hc.
  assert (Hcmd : addressed_command srv message = Some "routes").
  { rewrite (addressed_guard srv message Ha Hm), Hc. unfold routes_request. rewrite Ht.
    change ("<@" +:+ user_id srv +:+ ">:api routes")
      with ("<@" +:+ user_id srv +:+ ">:api " +:+ "routes").
    rewrite (match_mention_command _ "routes" Hid eq_refl); [reflexivity|].
    exists "r"%char, "outes". split; reflexivity. }
  unfold handleMessage. rewrite Hcmd. cbn [String.eqb Ascii.eqb Bool.eqb orb].
  cbv iota. rewrite stringify_publicRoutes. cbn [text_of].
  unfold bind, reply, ret. eexists. eexists. split; [reflexivity|].
  intros arrivals reply Hw Htext.
  unfold client_routes, routes_try. cbn [snd]. rewrite Hw, Htext.
  change (cut_at_space ("200 " +:+ ?b)) with (Some ("200", b)). cbv beta iota.
  rewrite parse_route_listing. reflexivity.
Qed.

Lemma routes_round_trip_witness :
  ∃ (ok : bool) (text : string),
    handleMessage example_env example_server (example_message "<@42>:api routes") [] =
      (if ok then Done else Threw "reply", [Reply "m1" text ok])
    ∧ ∀ arrivals reply,
        awaitMessages (reply_filter example_client "m1") arrivals = Some reply →
        content (cm_message reply) = text →
        (client_routes example_client "m1" arrivals).2
        = Fulfilled (JArr (map received_route_info (routes example_server))).
Proof.
  refine (routes_round_trip example_env example_server example_client
            (example_message "<@42>:api routes") [] eq_refl eq_refl _ _ eq_refl).
  - discriminate.
  - by left.
Defined.

(** X16.  [routes] does not look at what precedes the first space of the
    reply: it resolves with the JSON value after it, whatever the status,
    and rejects with the message about invalid JSON, which its [catch]
    block passes on, when there is none. *)
Theorem routes_ignores_status (c : BotAPIClient) (request_id : string)
    (arrivals : list ChannelMessage) (reply : ChannelMessage) (head body : string) :
  awaitMessages (reply_filter c request_id) arrivals = Some reply →
  all_chars (fun c => negb (code c =? 32)) head = true →
  content (cm_message reply) = head +:+ " " +:+ body →
  (client_routes c request_id arrivals).2 =
    match JSON_parse body with
    | Some v => Fulfilled v
    | None => RejectedWith (ErrorMessage "Malformed routes response: Invalid JSON.")
    end.
Proof.
  intros Hw Hh Hc. unfold client_routes, routes_try. cbn [snd]. rewrite Hw, Hc.
  change (" " +:+ body) with (String " " body). rewrite (cut_at_space_app _ _ Hh).
  destruct (JSON_parse body); reflexivity.
Qed.

Lemma routes_ignores_status_witness :
  (client_routes example_client "m1"
     [ {| cm_message := reply_message "a1" "m1" ("404 " +:+ error_text "nope");
          cm_attachments := [] |} ]).2
  = Fulfilled (error_body "nope").
Proof.
  refine (routes_ignores_status example_client "m1"
            [ {| cm_message := reply_message "a1" "m1" ("404 " +:+ error_text "nope");
                 cm_attachments := [] |} ]
            {| cm_message := reply_message "a1" "m1" ("404 " +:+ error_text "nope");
               cm_attachments := [] |}
            "404" (error_text "nope") eq_refl eq_refl eq_refl).
Defined.

(** ** Addressing the server *)

Lemma trimStart_spaces n command :
  command = EmptyString ∨ ws_len command = 0%nat →
  trimStart (spaces n +:+ command) = command.
Proof.
  intros H. induction n as [|n IH].
  - rewrite app_empty_l. destruct command as [|c r]; [reflexivity|].
    destruct H as [H|H]; [discriminate|].
    unfold trimStart. cbn [trimStart_go]. rewrite H. reflexivity.
  - cbn [spaces]. rewrite app_cons. unfold trimStart in *. cbn [trimStart_go].
    rewrite space_ws_len. destruct (spaces n +:+ command); exact IH.
Qed.

(** X17.  A message of another author that mentions the server and whose
    text is the mention, with or without an exclamation mark, [:api], any
    number of spaces (possibly none) and a command without line
    terminator that does not start with white space, carries that command,
    trimmed. *)
Theorem mention_syntax (srv : BotAPIServer) (message : Message) (bang : bool) (n : nat)
    (command : string) :
  all_chars is_digit (user_id srv) = true →
  author_id message ≠ user_id srv →
  user_id srv ∈ mentions message →
  command = EmptyString ∨ ws_len command = 0%nat →
  has_line_terminator command = false →
  content message
  = "<@" +:+ (if bang then "!" else EmptyString) +:+ user_id srv +:+ ">:api"
    +:+ spaces n +:+ command →
  addressed_command srv message = Some (trim command).
Proof.
  intros Hid Ha Hm Hws Hlt Hc.
  rewrite (addressed_guard srv message Ha Hm), Hc.
  assert (Htail : mention_tail (user_id srv) (user_id srv +:+ ">:api" +:+ spaces n +:+ command)
                  = Some command).
  { unfold mention_tail. rewrite strip_prefix_app. cbn [mbind option_bind].
    rewrite strip_prefix_app, (trimStart_spaces n command Hws), Hlt. reflexivity. }
  unfold match_mention. destruct bang.
  - change ("<@" +:+ "!" +:+ ?x) with (String "<" (String "@" (String "!" x))).
    cbn [strip_prefix Ascii.eqb Bool.eqb]. cbn iota.
    change (code "!" =? 33) with true. cbv iota. rewrite Htail. reflexivity.
  - change ("<@" +:+ EmptyString +:+ ?x) with (String "<" (String "@" x)).
    cbn [strip_prefix Ascii.eqb Bool.eqb]. cbn iota.
    destruct (user_id srv) as [|d id'] eqn:Eid.
    + rewrite app_empty_l in *. cbn iota. change (code ">" =? 33) with false.
      cbv iota. rewrite Htail. reflexivity.
    + rewrite app_cons. rewrite app_cons in Htail.
      cbn [all_chars] in Hid. apply andb_true_iff in Hid as [Hd _].
      rewrite (digit_not_bang d Hd), Htail. reflexivity.
Qed.

Lemma mention_syntax_witness :
  addressed_command example_server (example_message "<@!42>:apiroutes  ") = Some "routes".
Proof.
  refine (mention_syntax example_server (example_message "<@!42>:apiroutes  ") true 0
            "routes  " eq_refl _ _ (or_intror eq_refl) eq_refl eq_refl).
  - discriminate.
  - by left.
Defined.

(** ** The tables of a client *)

(** X18.  The tables of a reachable client are consistent: a timer that
    is set holds the promise of its own number and the key of a live entry
    whose timer it is; the timer and the promise of an entry have the same
    number, below the next one to allocate; two entries never hold the
    same promise. *)
Theorem reachable_client_invariant (c : BotAPIClient) :
  client_reachable c →
  (∀ t info, timers c !! t = Some info →
     timer_promise info = t
     ∧ ∃ e, pendingRequests c !! timer_message info = Some e ∧ timeoutId e = t)
  ∧ (∀ k e, pendingRequests c !! k = Some e →
       timeoutId e = promise e ∧ (promise e < next_id c)%nat)
  ∧ (∀ k1 k2 e1 e2, pendingRequests c !! k1 = Some e1 → pendingRequests c !! k2 = Some e2 →
       promise e1 = promise e2 → k1 = k2).
Proof.
  intros Hreach. pose proof (client_reachable_wf c Hreach) as (I1 & I2 & I3).
  pose proof (reachable_ids c Hreach) as Hids.
  split; [|split; [|exact I3]].
  - intros t info Ht. destruct (I1 t info Ht) as (e & He & Hid & Hprom).
    split; [|eauto]. rewrite <- Hprom, <- (Hids _ _ He). exact Hid.
  - intros k e He. split; [eauto|eauto].
Qed.

Lemma reachable_client_invariant_witness :
  timer_promise {| timer_message := "r1"; timer_promise := 0; timer_timeout := 5000 |} = 0%nat
  ∧ ∃ e, pendingRequests example_client !! "r1" = Some e ∧ timeoutId e = 0%nat.
Proof.
  refine (proj1 (reachable_client_invariant example_client _) 0%nat
            {| timer_message := "r1"; timer_promise := 0; timer_timeout := 5000 |} eq_refl).
  apply (reachable_step (new_BotAPIClient "42" None) (InRequest GET "/slow" watching "r1")).
  - apply reachable_new.
  - intros ? ? ? ? [= <- <- <- <-]. reflexivity.
Defined.

(** ** Values on the wire *)

(** X19.  [JSON.parse] undoes [JSON.stringify] on every portable value:
    null, booleans, safe integers, strings, arrays and objects of such
    values. *)
Theorem portable_value_round_trip (v : jsval) :
  portable v = true →
  ∃ t, JSON_stringify v = SText t ∧ JSON_parse t = Some v.
Proof.
  intros Hp. destruct (portable_reads v Hp) as (t & Ht & _ & Hparse).
  exists t. split; [exact Ht|]. unfold JSON_parse.
  rewrite <- (app_empty_r t) at 2.
  rewrite (Hparse (S (String.length t)) EmptyString eq_refl (Nat.lt_succ_diag_r _)).
  reflexivity.
Qed.

Lemma portable_value_round_trip_witness :
  ∃ t, JSON_stringify (JObj [("7", JArr []); ("amount", jint (-1200)); ("to", JStr "a b")])
       = SText t
       ∧ JSON_parse t = Some (JObj [("7", JArr []); ("amount", jint (-1200)); ("to", JStr "a b")]).
Proof. apply portable_value_round_trip. reflexivity. Defined.

(** ** Bodies without white space *)

Lemma digit_plain c : is_digit c = true → plain c = true.
Proof.
  intros H. unfold plain. destruct (is_digit_not_ws c H) as [_ ->]. reflexivity.
Qed.

Lemma quote_char_plain c : plain c = true → all_chars plain (quote_char c) = true.
Proof.
  intros H. all_bytes c;
    first [ by (exfalso; vm_compute in H; discriminate) | reflexivity ].
Qed.

Lemma number_plain m e :
  safe_integer m e = true → all_chars plain (number_to_string m e) = true.
Proof.
  intros H. destruct (number_text m e H) as (neg & c & more & -> & Hd & _).
  assert (Hp : all_chars plain (String c more) = true).
  { revert Hd. apply all_chars_impl. exact digit_plain. }
  destruct neg; [|exact Hp]. cbn [all_chars]. cbn [all_chars] in Hp. exact Hp.
Qed.

Lemma quote_char_high c : is_high c = true → quote_char c = String c EmptyString.
Proof.
  intros H. all_bytes c;
    first [ by (exfalso; vm_compute in H; discriminate) | reflexivity ].
Qed.

Lemma quote_char_low c :
  is_high c = false → ∃ q rest, quote_char c = String q rest ∧ is_high q = false.
Proof.
  intros H. all_bytes c;
    first [ by (exfalso; vm_compute in H; discriminate)
          | (eexists; eexists; split; reflexivity) ].
Qed.

Lemma low_plain c r : is_high c = false → ws_len (String c r) = 0%nat → plain c = true.
Proof.
  intros H Hw. all_bytes c;
    first [ by (exfalso; vm_compute in H; discriminate)
          | by (exfalso; vm_compute in Hw; discriminate)
          | reflexivity ].
Qed.

Lemma high1_high2 a b : high2 a = high2 b → high1 a = high1 b.
Proof.
  destruct a as [|x a], b as [|y b]; cbn; try reflexivity.
  - destruct (is_high y); [discriminate|reflexivity].
  - destruct (is_high x); [discriminate|reflexivity].
  - destruct (is_high x), (is_high y); (discriminate || reflexivity || idtac).
    intros E. injection E as -> _. reflexivity.
Qed.

(** Quoting a text without white space: no white-space character
    appears, and the bytes at the head that are not ASCII stay. *)
Lemma quote_chars_spaceless s : ∀ t,
  spaceless s = true → spaceless t = true → starts_low t = true →
  spaceless (quote_chars s +:+ t) = true
  ∧ high2 (quote_chars s +:+ t) = high2 s.
Proof.
  induction s as [|c s IH]; intros t Hs Ht Hl.
  - cbn [quote_chars]. rewrite app_empty_l. split; [exact Ht|].
    destruct t as [|x t]; [reflexivity|]. cbn in Hl. apply negb_true_iff in Hl.
    cbn. rewrite Hl. reflexivity.
  - cbn [spaceless] in Hs. destruct (ws_len (String c s)) eqn:E; [|discriminate].
    destruct (IH t Hs Ht Hl) as [H1 H2].
    cbn [quote_chars]. rewrite app_assoc_s.
    destruct (is_high c) eqn:Ec.
    + rewrite (quote_char_high c Ec), app_cons, app_empty_l. split.
      * cbn [spaceless]. rewrite ws_len_window, H2, <- ws_len_window, E. exact H1.
      * cbn [high2]. rewrite Ec, (high1_high2 _ _ H2). reflexivity.
    + split.
      * apply plain_spaceless_app; [|exact H1].
        apply quote_char_plain. exact (low_plain c s Ec E).
      * destruct (quote_char_low c Ec) as (q & rest & -> & Hq).
        rewrite app_cons. cbn [high2]. rewrite Hq, Ec. reflexivity.
Qed.

Lemma quote_spaceless s : spaceless s = true → spaceless (quote s) = true.
Proof.
  intros H. unfold quote.
  destruct (quote_chars_spaceless s (String dquote EmptyString) H eq_refl eq_refl)
    as [H1 _].
  cbn [spaceless]. exact H1.
Qed.

Lemma commas_spaceless ts :
  Forall (fun t => spaceless t = true) ts → spaceless (commas ts) = true.
Proof.
  induction 1 as [|t ts Ht Hts IH]; [reflexivity|].
  destruct ts as [|t' ts]; [exact Ht|].
  rewrite commas_cons. apply spaceless_app; [exact Ht| |reflexivity].
  cbn [spaceless]. exact IH.
Qed.

(** The text of a compact value holds no white space. *)
Lemma compact_text v :
  portable v = true → compact v = true →
  ∀ t, JSON_stringify v = SText t → spaceless t = true.
Proof.
  induction v as [ | |b|m e|n|s|items IH|props IH] using jsval_nested_ind;
    intros Hp Hc t Ht; try discriminate.
  - injection Ht as <-. reflexivity.
  - injection Ht as <-. destruct b; reflexivity.
  - injection Ht as <-. by apply plain_spaceless, number_plain.
  - injection Ht as <-. by apply quote_spaceless.
  - rewrite stringify_array in Ht. cbn [portable compact] in Hp, Hc.
    destruct (stringify_elems items) as [ts|] eqn:Ets; [|discriminate].
    injection Ht as <-.
    assert (Hts : Forall (fun t => spaceless t = true) ts).
    { revert ts Ets. induction items as [|x xs IHxs]; intros ts Ets.
      - injection Ets as <-. constructor.
      - apply Forall_cons in IH as [Hx IH]. cbn [forallb] in Hp, Hc.
        apply andb_true_iff in Hp as [Hpx Hpxs]. apply andb_true_iff in Hc as [Hcx Hcxs].
        rewrite stringify_elems_cons in Ets.
        destruct (portable_reads x Hpx) as (tx & Htx & _). rewrite Htx in Ets.
        destruct (stringify_elems xs) as [ts'|]; [|discriminate].
        injection Ets as <-. constructor; [by apply Hx|by apply IHxs]. }
    change ("[" +:+ commas ts +:+ "]") with (String "[" (commas ts +:+ "]")).
    cbn [spaceless]. change (ws_len (String "[" (commas ts +:+ "]"))) with 0%nat.
    apply spaceless_app; [by apply commas_spaceless|reflexivity|reflexivity].
  - rewrite stringify_object in Ht. cbn [portable compact] in Hp, Hc.
    apply andb_true_iff in Hp as [Hp _].
    destruct (stringify_members props) as [ts|] eqn:Ets; [|discriminate].
    injection Ht as <-.
    assert (Hts : Forall (fun t => spaceless t = true) ts).
    { revert ts Ets. induction props as [|[k x] xs IHxs]; intros ts Ets.
      - injection Ets as <-. constructor.
      - apply Forall_cons in IH as [Hx IH]. cbn [forallb fst snd] in Hp, Hc, Hx.
        apply andb_true_iff in Hp as [Hpx Hpxs]. apply andb_true_iff in Hc as [Hcx Hcxs].
        apply andb_true_iff in Hcx as [Hk Hcx].
        rewrite stringify_members_cons in Ets.
        destruct (portable_reads x Hpx) as (tx & Htx & _). rewrite Htx in Ets.
        destruct (stringify_members xs) as [ts'|]; [|discriminate].
        injection Ets as <-. constructor; [|by apply IHxs].
        apply spaceless_app; [by apply quote_spaceless| |reflexivity].
        change (":" +:+ tx) with (String ":" tx). cbn [spaceless].
        change (ws_len (String ":" tx)) with 0%nat. by apply Hx. }
    change ("{" +:+ commas ts +:+ "}") with (String "{" (commas ts +:+ "}")).
    cbn [spaceless]. change (ws_len (String "{" (commas ts +:+ "}"))) with 0%nat.
    apply spaceless_app; [by apply commas_spaceless|reflexivity|reflexivity].
Qed.

(** The request object that the handler receives from the server when
    the text of [makeRequest] is delivered: a falsy body is not sent and
    becomes [null]. *)
Lemma request_dispatch env srv message m route body text url i r groups log :
  requestString (user_id srv) m route body = Some text →
  content message = text →
  author_id message ≠ user_id srv →
  user_id srv ∈ mentions message →
  all_chars is_digit (user_id srv) = true →
  route ≠ EmptyString →
  utf8_valid route = true →
  truthy body = false ∨ (portable body = true ∧ compact body = true) →
  toUpperCase env (method_name m) = method_name m →
  URL env route = Some url →
  findRoute m (pathname url) 0 (routes srv) = Some (i, r, groups) →
  handleMessage env srv message log =
    call_handler env message i r route
      {| req_message := message; req_authorId := author_id message; req_method := m;
         req_path := pathname url; req_params := route_params r groups;
         req_query := fromEntries (searchParams url);
         req_body := if truthy body then body else JNull |} log.
Proof.
  intros Hreq Hcontent Hauthor Hment Hid Hroute Hutf Hkind Hupper Hurl Hfind.
  assert (Hshape : ∃ t,
            text = "<@" +:+ user_id srv +:+ ">:api " +:+ command_of m route t
            ∧ (t ≠ EmptyString → wire_safe t = true)
            ∧ (truthy body = false → t = EmptyString)
            ∧ (truthy body = true → t ≠ EmptyString ∧ JSON_parse t = Some body)).
  { unfold requestString in Hreq. destruct (truthy body) eqn:Et.
    - destruct Hkind as [Hk|[Hport Hcompact]]; [discriminate|].
      destruct (portable_reads body Hport) as (t & Hs & (c0 & r0 & Ht0 & _) & _).
      destruct (JSON_parse_stringify body Hport) as (t' & Hs' & Hparse).
      rewrite Hs in Hs'. injection Hs' as <-.
      pose proof (compact_text body Hport Hcompact t Hs) as Hplain.
      assert (Hne : t ≠ EmptyString) by (rewrite Ht0; discriminate).
      rewrite Hs in Hreq. injection Hreq as <-. exists t.
      split; [|split; [|split; [discriminate|auto]]].
      + unfold command_of, text_of. destruct t; [congruence|]. str_norm. reflexivity.
      + intros _. apply spaceless_wire_safe; [exact Hplain|by left].
    - injection Hreq as <-. exists EmptyString.
      split; [|split; [congruence|split; [auto|discriminate]]].
      unfold command_of. str_norm. reflexivity. }
  destruct Hshape as (t & Htext & Hsafe & Hfalsy & Htruthy).
  rewrite Htext in Hcontent.
  pose proof (addressed_command_of srv message m route t
                Hcontent Hauthor Hment Hid Hroute Hsafe) as Haddr.
  destruct (command_of_not_reserved m route t) as (N1 & N2 & N3).
  rewrite (handleMessage_request env srv message _ log Haddr N1 N2 N3).
  unfold handleRequest.
  rewrite (request_parts_command m route t Hroute Hsafe).
  rewrite Hupper, (decode_encode route Hutf), method_of_string_name, Hurl, Hfind.
  unfold dispatch. destruct (truthy body) eqn:Et.
  - destruct (Htruthy eq_refl) as [Hne Hparse].
    destruct t; [congruence|]. rewrite Hparse. reflexivity.
  - rewrite (Hfalsy eq_refl). reflexivity.
Qed.

(** X20.  A request built by [makeRequest] for a non-empty well-formed
    route and a truthy portable body without white space in its strings
    and property names, delivered to the server it addresses, makes the
    server call the handler of the selected route on a request object
    with that very body, the method, the pathname, the query and the
    parameters of the route, and the identifier of the author. *)
Theorem compact_body_reaches_handler (env : Env) (srv : BotAPIServer) (message : Message)
    (m : HttpMethod) (route : string) (body : jsval) (text : string)
    (url : ParsedURL) (i : nat) (r : Route) (groups : list (option string)) (log : list Event) :
  requestString (user_id srv) m route body = Some text →
  content message = text →
  author_id message ≠ user_id srv →
  user_id srv ∈ mentions message →
  all_chars is_digit (user_id srv) = true →
  route ≠ EmptyString →
  utf8_valid route = true →
  truthy body = true → portable body = true → compact body = true →
  toUpperCase env (method_name m) = method_name m →
  URL env route = Some url →
  findRoute m (pathname url) 0 (routes srv) = Some (i, r, groups) →
  ∃ req,
    handleMessage env srv message log = call_handler env message i r route req log
    ∧ req_body req = body ∧ req_method req = m ∧ req_path req = pathname url
    ∧ req_params req = route_params r groups
    ∧ req_query req = fromEntries (searchParams url)
    ∧ req_authorId req = author_id message.
Proof.
  intros Hreq Hcontent Hauthor Hment Hid Hroute Hutf Htruthy Hport Hcompact Hupper Hurl Hfind.
  eexists. split.
  - exact (request_dispatch env srv message m route body text url i r groups log
             Hreq Hcontent Hauthor Hment Hid Hroute Hutf
             (or_intror (conj Hport Hcompact)) Hupper Hurl Hfind).
  - cbn. rewrite Htruthy. repeat split.
Qed.

Lemma compact_body_reaches_handler_witness :
  ∃ text req,
    requestString "42" POST "/pay/7?amount=3" (JArr [JStr "5€"; JBool true; JNull])
    = Some text
    ∧ handleMessage example_env example_server (example_message text) []
      = call_handler example_env (example_message text) 1
          {| method := POST; path := "/pay/:userId";
             pathRegex := Items [RChar "/"; RChar "p"; RChar "a"; RChar "y"; RChar "/";
                                 RGroup];
             paramKeys := ["userId"]; handler := pay_handler; docs := None |}
          "/pay/7?amount=3" req []
    ∧ req_body req = JArr [JStr "5€"; JBool true; JNull].
Proof.
  destruct (requestString "42" POST "/pay/7?amount=3"
              (JArr [JStr "5€"; JBool true; JNull])) as [text|] eqn:Etext; [|discriminate].
  destruct (compact_body_reaches_handler example_env example_server
              (example_message text)
              POST "/pay/7?amount=3" (JArr [JStr "5€"; JBool true; JNull]) text
              {| pathname := "/pay/7"; searchParams := [("amount", "3")] |} 1
              {| method := POST; path := "/pay/:userId";
                 pathRegex := Items [RChar "/"; RChar "p"; RChar "a"; RChar "y"; RChar "/";
                                     RGroup];
                 paramKeys := ["userId"]; handler := pay_handler; docs := None |}
              [Some "7"] [] Etext eq_refl ltac:(discriminate) ltac:(by left) eq_refl
              ltac:(discriminate) eq_refl eq_refl eq_refl eq_refl eq_refl eq_refl eq_refl)
    as (req & H1 & H2 & _).
  exists text, req. split; [reflexivity|]. split; [exact H1|exact H2].
Defined.

(** ** A whole call *)



(** ** Handlers that do not answer *)

Lemma run_ops_silent env ops : ∀ res log,
  sends ops = 0%nat → ∃ res', run_ops env ops res log = (res', log).
Proof.
  induction ops as [|[code|d] ops IH]; intros res log Hs.
  - exists res. reflexivity.
  - cbn [run_ops run_op]. unfold bind, ret. apply IH. exact Hs.
  - unfold sends in Hs. cbn in Hs. discriminate.
Qed.

(** X22.  A handler that does not throw and never calls [json], whatever
    statuses it sets, leaves the request without any reply: the call of
    the handler is the only thing that happens. *)
Theorem silent_handler_no_reply (env : Env) (message : Message) (i : nat) (r : Route)
    (route : string) (req : BotAPIRequest) (log : list Event) :
  sends (before (handler r req)) = 0%nat →
  throws (handler r req) = false →
  sends (after (handler r req)) = 0%nat →
  call_handler env message i r route req log = (Done, log ++ [Invoke i req]).
Proof.
  intros Hb Ht Ha. unfold call_handler. rewrite Ht.
  unfold bind at 1. unfold emit at 1. unfold bind at 1.
  destruct (run_ops_silent env _ (new_BotAPIResponse message) (log ++ [Invoke i req]) Hb)
    as (res1 & ->).
  unfold bind at 1. unfold ret at 1. unfold bind.
  destruct (run_ops_silent env _ res1 (log ++ [Invoke i req]) Ha) as (res2 & ->).
  reflexivity.
Qed.

Lemma silent_handler_no_reply_witness :
  let r := {| method := DELETE; path := "/session"; pathRegex := Items [];
              paramKeys := [];
              handler := fun _ => {| before := [SetStatus 204]; throws := false;
                                     after := [SetStatus 200] |};
              docs := None |} in
  let req := expected_request (example_message "x") DELETE
               {| pathname := "/session"; searchParams := [] |} r [] JNull in
  call_handler example_env (example_message "x") 0 r "/session" req []
  = (Done, [] ++ [Invoke 0 req]).
Proof.
  intros r req.
  apply (silent_handler_no_reply example_env (example_message "x") 0 r "/session" req []);
    reflexivity.
Defined.

(** ** What a route accepts *)

Lemma match_group_complete (k : string → option (list string)) rest :
  is_Some (k rest) →
  ∀ v acc, all_chars not_slash v = true → (v ≠ EmptyString ∨ acc ≠ EmptyString) →
    is_Some (match_group k acc (v +:+ rest)).
Proof.
  intros Hk. induction v as [|c v IH]; intros acc Hv Hne.
  - destruct Hne as [Hne|Hne]; [congruence|]. rewrite app_empty_l, match_group_step.
    cbn zeta.
    assert (Hstop : is_Some (match acc with
                             | EmptyString => None
                             | _ => cons (String.rev acc) <$> k rest
                             end)).
    { destruct acc; [congruence|]. destruct Hk as [g ->]. cbn. eauto. }
    destruct rest as [|c r]; [exact Hstop|].
    destruct (is_slash c); [exact Hstop|].
    destruct (match_group k (String c acc) r); [eauto|exact Hstop].
  - cbn [all_chars] in Hv. apply andb_true_iff in Hv as [Hc Hv].
    rewrite app_cons, match_group_step. cbn zeta.
    unfold not_slash in Hc. apply negb_true_iff in Hc. rewrite Hc.
    destruct (IH (String c acc) Hv ltac:(right; discriminate)) as [g ->]. eauto.
Qed.

Lemma regex_match_complete ps : ∀ vals tail,
  length vals = length (piece_keys ps) →
  Forall (fun v => segment_value v = true) vals →
  tail = EmptyString ∨ tail = "/" →
  is_Some (regex_match (map piece_item ps) (instantiate ps vals +:+ tail)).
Proof.
  induction ps as [|[c|key] ps IH]; intros vals tail Hlen Hvals Htail.
  - cbn [instantiate map regex_match]. rewrite app_empty_l.
    destruct Htail as [-> | ->]; cbn; eauto.
  - cbn [instantiate map piece_item regex_match]. rewrite app_cons, Ascii.eqb_refl.
    by apply IH.
  - change (piece_keys (Param key :: ps)) with (key :: piece_keys ps) in Hlen.
    destruct vals as [|v vs]; [discriminate|].
    apply Forall_cons in Hvals as [Hv Hvs]. cbn [length] in Hlen.
    cbn [instantiate map piece_item regex_match]. rewrite app_assoc_s.
    unfold segment_value in Hv. apply andb_true_iff in Hv as [Hne Hns].
    apply negb_true_iff, String.eqb_neq in Hne.
    apply match_group_complete; [|exact Hns|by left].
    apply IH; [lia|exact Hvs|exact Htail].
Qed.

(** X23.  On a server built by the registration methods, a route whose
    template has no character that is special in a regular expression
    accepts every instance of its template: the template with a non-empty
    value without slash in the place of each parameter, followed or not
    by one slash.  (With X5: such a route accepts exactly the instances
    of its template.) *)
Theorem instances_are_accepted (srv : BotAPIServer) (r : Route) (vals : list string)
    (tail : string) :
  registered srv → r ∈ routes srv →
  plain_template (path r) = true →
  length vals = length (paramKeys r) →
  Forall (fun v => segment_value v = true) vals →
  tail = EmptyString ∨ tail = "/" →
  accepts r (method r) (instantiate (scan_template None (path r)) vals +:+ tail).
Proof.
  intros Hreg Hr Hplain Hlen Hvals Htail.
  destruct (registered_route_pieces srv r Hreg Hr) as (Hk & Hre & _).
  split; [reflexivity|]. rewrite (Hre Hplain). cbn [regex_exec].
  destruct (regex_match_complete (scan_template None (path r)) vals tail) as [g Hg];
    [by rewrite <- Hk|exact Hvals|exact Htail|].
  rewrite Hg. cbn. eauto.
Qed.

Lemma instances_are_accepted_witness :
  let r := {| method := GET; path := "/:a-:b";
              pathRegex := Items [RChar "/"; RGroup; RChar "-"; RGroup];
              paramKeys := ["a"; "b"]; handler := balance_handler; docs := None |} in
  routes range_server = [r]
  ∧ accepts r GET (instantiate (scan_template None "/:a-:b") ["x"; "y-z"] +:+ "/").
Proof.
  intros r. split; [reflexivity|].
  refine (instances_are_accepted range_server r ["x"; "y-z"] "/"
            range_server_registered _ eq_refl eq_refl _ (or_intror eq_refl)).
  - by left.
  - repeat constructor.
Defined.

(** *** The optional slash *)

Lemma ends_slash_tail c s : ends_slash (String c s) = false → ends_slash s = false.
Proof. destruct s; [reflexivity|]. cbn [ends_slash]. auto. Qed.

Lemma ends_slash_app a b : ends_slash (a +:+ b) = false → ends_slash b = false.
Proof.
  induction a as [|c a IH]; [by rewrite app_empty_l|].
  rewrite app_cons. intros H. apply IH. by apply ends_slash_tail in H.
Qed.

Lemma match_group_slash (k : string → option (list string)) :
  (∀ s, ends_slash s = false → k (s +:+ "/") = k s) →
  ∀ s acc, ends_slash s = false →
    match_group k acc (s +:+ "/") = match_group k acc s.
Proof.
  intros Hk. induction s as [|c r IH]; intros acc Hs.
  - rewrite app_empty_l, (match_group_step k acc "/"), (match_group_step k acc EmptyString).
    cbv zeta beta iota.
    change (is_slash "/") with true. cbv iota.
    rewrite <- (Hk EmptyString eq_refl). reflexivity.
  - rewrite app_cons, (match_group_step k acc (String c (r +:+ "/"))),
      (match_group_step k acc (String c r)).
    cbv zeta beta iota.
    rewrite <- app_cons, (Hk (String c r) Hs).
    rewrite (IH (String c acc) (ends_slash_tail c r Hs)). reflexivity.
Qed.

Lemma regex_match_slash ps : ∀ s,
  ends_slash (render ps) = false → ends_slash s = false →
  regex_match (map piece_item ps) (s +:+ "/") = regex_match (map piece_item ps) s.
Proof.
  induction ps as [|[c|key] ps IH]; intros s Hps Hs.
  - cbn [map regex_match]. destruct s as [|d [|e s]].
    + reflexivity.
    + cbn [ends_slash] in Hs. rewrite Hs. reflexivity.
    + reflexivity.
  - cbn [render] in Hps. cbn [map piece_item regex_match].
    pose proof (ends_slash_tail _ _ Hps) as Hps'.
    destruct s as [|d r].
    + rewrite app_empty_l. destruct (Ascii.eqb c "/") eqn:Ec; [|reflexivity].
      apply Ascii.eqb_eq in Ec. subst c.
      destruct ps as [|[c'|key'] ps']; [discriminate Hps|reflexivity|reflexivity].
    + rewrite app_cons. destruct (Ascii.eqb c d); [|reflexivity].
      apply IH; [exact Hps'|by apply ends_slash_tail in Hs].
  - cbn [render] in Hps. cbn [map piece_item regex_match].
    apply match_group_slash; [|exact Hs].
    intros s' Hs'. apply IH; [|exact Hs'].
    apply ends_slash_tail in Hps. by apply ends_slash_app in Hps.
Qed.

Lemma findRoute_ext m p1 p2 rs : ∀ i,
  (∀ r, r ∈ rs → method r = m →
        regex_exec (pathRegex r) p1 = regex_exec (pathRegex r) p2) →
  findRoute m p1 i rs = findRoute m p2 i rs.
Proof.
  induction rs as [|r rs IH]; intros i H; [reflexivity|].
  assert (Hrest : findRoute m p1 (S i) rs = findRoute m p2 (S i) rs).
  { apply IH. intros r' Hr'. apply H. by right. }
  cbn [findRoute]. destruct (method_eqb (method r) m) eqn:Em; cbn [negb]; [|exact Hrest].
  apply method_eqb_eq in Em. rewrite (H r ltac:(by left) Em), Hrest. reflexivity.
Qed.

(** X24.  On a server built by the registration methods, take a method
    all of whose templates have no character that is special in a regular
    expression and do not end with a slash.  For this method, a path that
    does not end with a slash and the same path followed by a slash are
    treated alike: the scan of the routes returns the same route with the
    same groups, or none, for both. *)
Theorem trailing_slash_optional (srv : BotAPIServer) (m : HttpMethod) (pathname : string) :
  registered srv →
  Forall (fun r => method r = m →
                   plain_template (path r) = true ∧ ends_slash (path r) = false)
         (routes srv) →
  ends_slash pathname = false →
  findRoute m (pathname +:+ "/") 0 (routes srv) = findRoute m pathname 0 (routes srv).
Proof.
  intros Hreg Hall Hp. apply findRoute_ext. intros r Hr Hm.
  destruct (registered_route_pieces srv r Hreg Hr) as (_ & Hre & _).
  destruct (scan_template_spec (path r) None) as [Hrender _].
  rewrite List.Forall_forall in Hall.
  destruct (Hall r ltac:(by apply list_elem_of_In) Hm) as [Hplain Hslash].
  rewrite (Hre Hplain). cbn [regex_exec]. rewrite regex_match_slash; [reflexivity| |exact Hp].
  rewrite Hrender. exact Hslash.
Qed.

Lemma trailing_slash_optional_witness :
  findRoute POST "/pay/7/" 0 (routes example_server)
  = findRoute POST "/pay/7" 0 (routes example_server).
Proof.
  refine (trailing_slash_optional example_server POST "/pay/7"
            example_server_registered _ eq_refl).
  repeat constructor; discriminate.
Defined.
